(** * gh-projects-content-queue: sources, manager, data store, tweets

  A shallow embedding of the JavaScript sources
  [lib/sources/source.js], [lib/sources/issues.js],
  [lib/sources/manager.js], [lib/sources/discourse.js] and
  [lib/accounts/twitter.js], together with models of
  [lib/data-store.js] and [lib/sources/publish.js], the properties the
  specification states about them, and further properties of the
  code. *)

From stdpp Require Import base option list strings gmap.
From Stdlib Require Import ZArith NArith Ascii Lia.

Open Scope string_scope.
Open Scope list_scope.

(** ** JavaScript effects

  Asynchronous functions run to completion between two awaits of a
  settled promise, so an [async] body is embedded as a computation that
  either returns a value or throws, and that appends the calls it makes
  on its collaborators to a trace (the way the test suite observes them
  through sinon stubs). *)

Module Js.

Inductive Error : Type :=
| JsError (message : string)
| TypeError
| ModuleNotFound (name : string)
| SourceLoadError (message : string) (sourceType : option string)
| Rejection (tag : nat).

Inductive Result (A : Type) : Type :=
| Ok (a : A)
| Throw (e : Error).
Arguments Ok {A} a.
Arguments Throw {A} e.

Definition is_ok {A} (r : Result A) : bool :=
  match r with Ok _ => true | Throw _ => false end.

(** [St S A]: a computation over a state [S] that returns or throws;
    what it did to the state before throwing stays done. *)
Definition St (S A : Type) : Type := S → Result A * S.

(** [M E A]: a computation whose state is the trace of its calls. *)
Definition M (E A : Type) : Type := St (list E) A.

Definition ret {S A} (a : A) : St S A := λ st, (Ok a, st).

Definition bind {S A B} (m : St S A) (k : A → St S B) : St S B :=
  λ st, match m st with
        | (Ok a, st') => k a st'
        | (Throw e, st') => (Throw e, st')
        end.

(** [await p] for a promise whose outcome is [p]; also a plain
    expression that may throw. *)
Definition await {S A} (p : Result A) : St S A := λ st, (p, st).

Definition throw {S A} (e : Error) : St S A := λ st, (Throw e, st).

Definition modify {S} (f : S → S) : St S unit := λ st, (Ok tt, f st).

Definition get {S} : St S S := λ st, (Ok st, st).

(** A call on a collaborator: logged, then its outcome awaited. *)
Definition call {E A} (ev : E) (outcome : Result A) : M E A :=
  λ tr, (outcome, tr ++ [ev]).

(** [try { m } catch(e) { h e }] *)
Definition try_catch {S A} (m : St S A) (h : Error → St S A) : St S A :=
  λ st, match m st with
        | (Ok a, st') => (Ok a, st')
        | (Throw e, st') => h e st'
        end.

(** [o[k]] on a plain object: an undefined key reads the property
    named "undefined". *)
Definition prop {V} (o : gmap string V) (k : option string) : option V :=
  o !! default "undefined" k.

Fixpoint assoc {V} (o : list (string * V)) (k : string) : option V :=
  match o with
  | [] => None
  | (k', v) :: rest => if String.eqb k' k then Some v else assoc rest k
  end.

End Js.

Import Js.

Notation "'let*' x ':=' m 'in' k" := (Js.bind m (λ x, k))
(at level 10, x name, m at level 100, k at level 200).

(** ** lib/sources/issues.js *)

Module IssuesSource.

Record Issue : Type := { number : nat; issue_id : nat }.

(** A card: [reportError] is the outcome of [card.reportError(ctx, e)]. *)
Record Card : Type := {
  card_id : nat;
  reportError : string → Error → Result unit
}.

(** A column of the board, by the outcomes of the operations the
    handler invokes on it. *)
Record Column : Type := {
  col_id : nat;
  hasIssue : nat → Result bool;
  getCard : nat → Result (option Card);
  removeCard : Card → Result unit
}.

(** The board: [columns] is the object [id -> Column] in property
    enumeration order (a slot may hold no column), [columnIds] the
    object [name -> id]. *)
Record Board : Type := {
  ready : Result unit;
  columns : Result (list (string * option Column));
  columnIds : Result (gmap string string);
  addCard : Issue → option Column → Result Card
}.

Inductive Event : Type :=
| HasIssue (c : Column) (n : nat)
| GetCard (c : Column) (i : nat)
| RemoveCard (c : Column) (card : Card)
| ReportError (card : Card) (context : string) (e : Error)
| AddCard (issue : Issue) (c : option Column)
| ConsoleError (msg : string) (i : nat) (e : Error).

(** The fields of [Source] the issues handler reads:
    [this._board], [this._config.columns], [this._getManagedColumns()]. *)
Record Source : Type := {
  _board : Board;
  _config_columns : gmap string string;
  _getManagedColumns : Result (list (option Column))
}.

(** [Object.values(columns)] *)
Definition values {V} (o : list (string * V)) : list V := map snd o.

(** [Source.getColumn(columnKey)] *)
Definition getColumn (this : Source) (columnKey : string)
  : M Event (option Column) :=
  let* _ := await (ready (_board this)) in
  let* columns := await (columns (_board this)) in
  let* columnIds := await (columnIds (_board this)) in
  ret (mjoin (assoc columns
                (default "undefined"
                   (prop columnIds (prop (_config_columns this) (Some columnKey)))))).

(** [managed.every((c) => c.id !== column.id)]: reading [c.id] of an
    undefined entry is a TypeError; [every] stops at the first false. *)
Fixpoint every_other_id (managed : list (option Column)) (column : Column)
  : Result bool :=
  match managed with
  | [] => Ok true
  | None :: _ => Throw TypeError
  | Some c :: rest =>
      if Nat.eqb (col_id c) (col_id column) then Ok false
      else every_other_id rest column
  end.

(** The [for] loop of [handleCard], from the columns still to visit. *)
Fixpoint handleCard_loop (managed : list (option Column)) (issue : Issue)
    (cols : list (option Column)) : M Event (option Column) :=
  match cols with
  | [] => ret None
  | None :: rest => handleCard_loop managed issue rest
  | Some column :: rest =>
      let* unmanaged := await (every_other_id managed column) in
      if (unmanaged : bool) then
        let* present := call (HasIssue column (number issue))
                        (hasIssue column (number issue)) in
        if (present : bool) then ret (Some column)
        else handleCard_loop managed issue rest
      else handleCard_loop managed issue rest
  end.

(** [IssuesSource.handleCard(issue)]. Of the two promises handed to
    [Promise.all] the first listed is taken to settle first. *)
Definition handleCard (this : Source) (issue : Issue)
  : M Event (option Column) :=
  let* columns := await (columns (_board this)) in
  let* managed := await (_getManagedColumns this) in
  handleCard_loop managed issue (values columns).

(** [IssuesSource.onClosedIssue(issue)] *)
Definition onClosedIssue (this : Source) (issue : Issue) : M Event unit :=
  try_catch
    (let* column := handleCard this issue in
     match column with
     | Some column =>
         let* card := call (GetCard column (issue_id issue))
                      (getCard column (issue_id issue)) in
         match card with
         | Some card =>
             try_catch
               (call (RemoveCard column card) (removeCard column card))
               (λ e, call (ReportError card "Handling closed issue" e)
                          (reportError card "Handling closed issue" e))
         | None => ret tt
         end
     | None => ret tt
     end)
    (λ e, call (ConsoleError "Handling closed issue" (issue_id issue) e)
               (Ok tt)).

(** The [for] loop of [addIssue] followed by the code after it. *)
Fixpoint addIssue_loop (this : Source) (issue : Issue) (isClosed : bool)
    (cols : list (option Column)) : M Event (option Card) :=
  match cols with
  | [] =>
      if negb isClosed then
        let* ideas := getColumn this "target" in
        let* card := call (AddCard issue ideas)
                     (addCard (_board this) issue ideas) in
        ret (Some card)
      else ret None
  | None :: rest => addIssue_loop this issue isClosed rest
  | Some column :: rest =>
      let* present := call (HasIssue column (number issue))
                      (hasIssue column (number issue)) in
      if (present : bool) then
        let* card := call (AddCard issue (Some column))
                     (addCard (_board this) issue (Some column)) in
        ret (Some card)
      else addIssue_loop this issue isClosed rest
  end.

(** [IssuesSource.addIssue(issue, isClosed = false)] *)
Definition addIssue (this : Source) (issue : Issue) (isClosed : bool)
  : M Event (option Card) :=
  let* columns := await (columns (_board this)) in
  addIssue_loop this issue isClosed (values columns).

(** The second loop of [backfillIssues], over the closed issues. *)
Fixpoint backfillClosed (this : Source) (closedIssues : list Issue)
  : M Event unit :=
  match closedIssues with
  | [] => ret tt
  | closedIssue :: rest =>
      let* _ := onClosedIssue this closedIssue in
      backfillClosed this rest
  end.

(** The first loop of [backfillIssues], over the open issues. *)
Fixpoint backfillOpen (this : Source) (issues : list Issue) : M Event unit :=
  match issues with
  | [] => ret tt
  | issue :: rest =>
      let* _ := addIssue this issue false in
      backfillOpen this rest
  end.

(** [IssuesSource.backfillIssues()], given the outcomes of
    [this._repo.issues.issues] and [this._repo.issues.closedIssues]. *)
Definition backfillIssues (this : Source)
    (repo_issues repo_closedIssues : Result (list Issue)) : M Event unit :=
  let* issues := await repo_issues in
  let* _ := backfillOpen this issues in
  let* closedIssues := await repo_closedIssues in
  backfillClosed this closedIssues.

(** *** What the loops compute *)

(** [is_managed managed c]: some managed column has the id of [c]. *)
Definition is_managed (managed : list Column) (c : Column) : bool :=
  existsb (λ m, Nat.eqb (col_id m) (col_id c)) managed.

(** [reports_present issue c]: the membership test of [c] reports the
    issue present. *)
Definition reports_present (issue : Issue) (c : Column) : bool :=
  match hasIssue c (number issue) with
  | Ok b => b
  | Throw _ => false
  end.

(** The columns of the board that are defined, in enumeration order. *)
Definition board_columns (cols : list (string * option Column))
  : list Column :=
  omap (λ c, c) (values cols).

(** The columns [handleCard] asks, in order: the unmanaged ones up to
    and including the first that reports the issue present. *)
Fixpoint asked_unmanaged (managed : list Column) (issue : Issue)
    (cs : list Column) : list Column :=
  match cs with
  | [] => []
  | c :: rest =>
      if is_managed managed c then asked_unmanaged managed issue rest
      else if reports_present issue c then [c]
      else c :: asked_unmanaged managed issue rest
  end.

(** The columns [addIssue] asks: all up to and including the first that
    reports the issue present. *)
Fixpoint asked (issue : Issue) (cs : list Column) : list Column :=
  match cs with
  | [] => []
  | c :: rest =>
      if reports_present issue c then [c] else c :: asked issue rest
  end.

Definition has_issue_calls (issue : Issue) (cs : list Column) : list Event :=
  map (λ c, HasIssue c (number issue)) cs.

Definition is_add_card (ev : Event) : bool :=
  match ev with AddCard _ _ => true | _ => false end.

(** The outcome of [return this._board.addCard(issue, column)]. *)
Definition returned (r : Result Card) : Result (option Card) :=
  match r with
  | Ok card => Ok (Some card)
  | Throw e => Throw e
  end.

(** [columns[columnIds[this._config.columns["target"]]]] *)
Definition target_column (this : Source)
    (cols : list (string * option Column)) (ids : gmap string string)
  : option Column :=
  mjoin (assoc cols
           (default "undefined"
              (prop ids (prop (_config_columns this) (Some "target"))))).

(** *** The board of test/sources/issues.js, with two more columns

    Column 1 ("Foo") is the configured target; column 2 is managed by
    another handler; column 3 holds issue 7, whose card cannot be
    removed. *)

Definition card7 : Card :=
  {| card_id := 70; reportError := λ _ _, Ok tt |}.

Definition colFoo : Column :=
  {| col_id := 1; hasIssue := λ _, Ok false;
     getCard := λ _, Ok None; removeCard := λ _, Ok tt |}.

Definition colDone : Column :=
  {| col_id := 2; hasIssue := λ n, Ok (Nat.eqb n 7);
     getCard := λ _, Ok None; removeCard := λ _, Ok tt |}.

Definition colBar : Column :=
  {| col_id := 3; hasIssue := λ n, Ok (Nat.eqb n 7);
     getCard := λ i, Ok (if Nat.eqb i 700 then Some card7 else None);
     removeCard := λ _, Throw (Rejection 1) |}.

Definition demo_columns : list (string * option Column) :=
  [("1", Some colFoo); ("2", Some colDone); ("3", Some colBar)].

Definition demo_board : Board :=
  {| ready := Ok tt;
     columns := Ok demo_columns;
     columnIds := Ok {[ "Foo" := "1" ]};
     addCard := λ issue c,
       Ok {| card_id := 10 * number issue; reportError := λ _ _, Ok tt |} |}.

Definition demo_source : Source :=
  {| _board := demo_board;
     _config_columns := {[ "target" := "Foo" ]};
     _getManagedColumns := Ok [Some colDone] |}.

Definition issue7 : Issue := {| number := 7; issue_id := 700 |}.
Definition issue8 : Issue := {| number := 8; issue_id := 800 |}.

End IssuesSource.

(** ** lib/sources/source.js, lib/sources/manager.js *)

Module SourceManager.

(** A value of a configuration key other than [type] and [columns]. *)
Inductive Value : Type :=
| VString (s : string)
| VArray (l : list string).

(** One entry of [config.sources]: its [type], its [columns] object when
    the key is present, and its other keys. *)
Record SourceConfig : Type := {
  type : string;
  columns : option (gmap string string);
  settings : gmap string Value
}.

(** An account of the account manager, as far as a handler constructor
    uses it: the outcome of [account.on(event, callback)]. *)
Record Account : Type := {
  on : string → Result unit
}.

(** What the manager hands to every handler it constructs:
    [this._board] (undefined when the manager was given none) and the
    outcome of [this._accountManager.getAccount(type, name)], undefined
    for an account the account manager does not hold. *)
Record Environment : Type := {
  _board : option IssuesSource.Board;
  getAccount : string → option Value → Result (option Account)
}.

(** A handler class, as far as the manager uses it: the static
    properties it declares ([Source.requiredConfig],
    [Source.requiredColumns], [Source.managedColumns]) and the outcome
    of [new Source(this._repo, this._accountManager, this._board, s,
    callback)]. *)
Record HandlerDeclaration : Type := {
  requiredConfig : list string;
  requiredColumns : list string;
  managedColumns : list string;
  constructor : Environment → SourceConfig → Result unit
}.

(** [class Source]: the defaults of the base class; its constructor
    stores its arguments. *)
Definition Source : HandlerDeclaration :=
  {| requiredConfig := ["columns"]; requiredColumns := []; managedColumns := [];
     constructor := λ _ _, Ok tt |}.

(** [class IssuesSource extends Source]: after [super(...args)] the
    constructor calls [this._board.ready.then(callback)], a TypeError
    without a board; the callback runs later. *)
Definition IssuesSource : HandlerDeclaration :=
  {| requiredConfig := requiredConfig Source;
     requiredColumns := ["target"];
     managedColumns := managedColumns Source;
     constructor := λ env s,
       match constructor Source env s with
       | Ok _ =>
           match _board env with
           | Some _ => Ok tt
           | None => Throw TypeError
           end
       | Throw e => Throw e
       end |}.

(** [class DiscourseSource extends Source]: after [super(...args)] the
    constructor asks the account manager for the account
    [this._config.accountName] of type [discourse] and calls
    [on('created', callback)] on it, a TypeError on undefined. *)
Definition DiscourseSource : HandlerDeclaration :=
  {| requiredConfig := requiredConfig Source ++ ["accountName"];
     requiredColumns := ["target"];
     managedColumns := managedColumns Source;
     constructor := λ env s,
       match constructor Source env s with
       | Ok _ =>
           match getAccount env "discourse" (settings s !! "accountName") with
           | Ok (Some discourse) => on discourse "created"
           | Ok None => Throw TypeError
           | Throw e => Throw e
           end
       | Throw e => Throw e
       end |}.

(** [Array.prototype.includes] on strings *)
Definition includes (l : list string) (x : string) : bool :=
  existsb (String.eqb x) l.

(** The property names every plain object inherits from
    [Object.prototype]; [in] finds them too. *)
Definition OBJECT_PROTOTYPE : list string :=
  ["constructor"; "__defineGetter__"; "__defineSetter__"; "hasOwnProperty";
   "__lookupGetter__"; "__lookupSetter__"; "isPrototypeOf";
   "propertyIsEnumerable"; "toString"; "valueOf"; "__proto__";
   "toLocaleString"].

(** A JavaScript object as far as [key in object] sees it. *)
Definition JsObject : Type := string → bool.

(** The own keys of [s] itself. *)
Definition own_key (s : SourceConfig) (c : string) : bool :=
  if String.eqb c "type" then true
  else if String.eqb c "columns" then
         match columns s with Some _ => true | None => false end
  else match settings s !! c with Some _ => true | None => false end.

(** [c in s] *)
Definition config_object (s : SourceConfig) : JsObject :=
  λ c, own_key s c || includes OBJECT_PROTOTYPE c.

(** [c in s.columns]; [s.columns] is undefined when the key is absent. *)
Definition columns_object (s : SourceConfig) : option JsObject :=
  match columns s with
  | Some o => Some (λ c, match o !! c with Some _ => true | None => false end
                         || includes OBJECT_PROTOTYPE c)
  | None => None
  end.

(** [required.every((c) => c in config)]: [in] on undefined is a
    TypeError, raised when the callback first runs. *)
Definition every_in (required : list string) (config : option JsObject)
  : Result bool :=
  match required, config with
  | [], _ => Ok true
  | _ :: _, None => Throw TypeError
  | _ :: _, Some o => Ok (forallb o required)
  end.

(** [SourceManager.checkConfigArray(required, config)] *)
Definition checkConfigArray (required : list string) (config : option JsObject)
  : Result bool :=
  if Nat.eqb (length required) 0 then Ok true else every_in required config.

(** [SourceManager.missingConfig(required, config)] *)
Definition missingConfig (required : list string) (config : option JsObject)
  : Result (list string) :=
  match required, config with
  | [], _ => Ok []
  | _ :: _, None => Throw TypeError
  | _ :: _, Some o => Ok (List.filter (λ c, negb (o c)) required)
  end.

(** [SourceManager.NOT_SOURCES] *)
Definition NOT_SOURCES : list string := ["manager"; "source"].

(** [array.join(",")] *)
Definition join (l : list string) : string := String.concat "," l.

(** [new SourceLoadError(message, sourceType).message] *)
Definition SourceLoadError_message (message : string)
    (sourceType : option string) : string :=
  "Error when reading configuration for source "
    +:+ default "undefined" sourceType +:+ ": " +:+ message.

(** A handler instance: [new Source(repo, accountManager, board, s, cb)]. *)
Record Handler : Type := {
  handler_type : string;
  handler_config : SourceConfig
}.

(** The fields of a [SourceManager] its constructor fills:
    [this.sources], [this.sourceFactories], [this.managedColumns]
    (a [Set], in insertion order; a role absent from [s.columns] adds
    undefined). *)
Record Manager : Type := {
  sources : list Handler;
  sourceFactories : gmap string HandlerDeclaration;
  this_managedColumns : list (option string)
}.

Definition empty : Manager :=
  {| sources := []; sourceFactories := ∅; this_managedColumns := [] |}.

(** [Set.prototype.add] *)
Definition set_add (x : option string) (l : list (option string))
  : list (option string) :=
  if bool_decide (x ∈ l) then l else l ++ [x].

Definition add_source (h : Handler) (m : Manager) : Manager :=
  {| sources := sources m ++ [h];
     sourceFactories := sourceFactories m;
     this_managedColumns := this_managedColumns m |}.

Definition add_managed (x : option string) (m : Manager) : Manager :=
  {| sources := sources m;
     sourceFactories := sourceFactories m;
     this_managedColumns := set_add x (this_managedColumns m) |}.

Definition set_factory (t : string) (d : HandlerDeclaration) (m : Manager)
  : Manager :=
  {| sources := sources m;
     sourceFactories := <[t := d]> (sourceFactories m);
     this_managedColumns := this_managedColumns m |}.

(** [SourceManager.getManagedColumns()], on the board of the manager:
    a managed name the board does not know gives undefined. *)
Definition getManagedColumns (this : Manager) (board : IssuesSource.Board)
  : Result (list (option IssuesSource.Column)) :=
  match IssuesSource.columns board with
  | Throw e => Throw e
  | Ok columns =>
      match IssuesSource.columnIds board with
      | Throw e => Throw e
      | Ok columnIds =>
          Ok (map (λ name, mjoin (assoc columns
                                    (default "undefined" (prop columnIds name))))
                  (this_managedColumns this))
      end
  end.

(** [columns[columnIds[name]]]: the column the board holds under a
    name, if any. *)
Definition column_named (columns : list (string * option IssuesSource.Column))
    (columnIds : gmap string string) (name : option string)
  : option IssuesSource.Column :=
  mjoin (assoc columns (default "undefined" (prop columnIds name))).

Section Loader.

(** [require(`./${sourceType}`)]: the handler module of a type name,
    when there is one. *)
Variable require : string → option HandlerDeclaration.

(** [this._repo], [this._accountManager], [this._board], as far as the
    handler constructors use them. *)
Variable env : Environment.

(** [SourceManager.getSourceFactory(sourceType)]: the constructor the
    [Map] holds for the type, loaded into it on first use. *)
Definition getSourceFactory (sourceType : string)
  : St Manager HandlerDeclaration :=
  if includes NOT_SOURCES sourceType then
    throw (SourceLoadError "It is not a source." None)
  else
    let* this := get in
    match sourceFactories this !! sourceType with
    | Some d => ret d
    | None =>
        match require sourceType with
        | Some d =>
            let* _ := modify (set_factory sourceType d) in
            ret d
        | None => throw (ModuleNotFound ("./" +:+ sourceType))
        end
    end.

(** [SourceManager.checkSourceConfig(sourceConfig)] *)
Definition checkSourceConfig (sourceConfig : SourceConfig)
  : St Manager bool :=
  let* Source := getSourceFactory (type sourceConfig) in
  let* config_ok :=
    await (checkConfigArray (requiredConfig Source)
             (Some (config_object sourceConfig))) in
  if (config_ok : bool) then
    await (checkConfigArray (requiredColumns Source)
             (columns_object sourceConfig))
  else ret false.

(** [for(const c of Source.managedColumns)
       this.managedColumns.add(s.columns[c])] *)
Fixpoint add_managedColumns (roles : list string) (s : SourceConfig)
  : St Manager unit :=
  match roles with
  | [] => ret tt
  | c :: rest =>
      match columns s with
      | None => throw TypeError
      | Some o =>
          let* _ := modify (add_managed (o !! c)) in
          add_managedColumns rest s
      end
  end.

(** The body of the constructor's loop, for one entry [s]; when
    [new Source(...)] throws, nothing is added to [this.sources]. *)
Definition load_source (s : SourceConfig) : St Manager unit :=
  let* Source := getSourceFactory (type s) in
  let* valid := checkSourceConfig s in
  if (valid : bool) then
    let* _ := await (constructor Source env s) in
    let* _ := modify (add_source {| handler_type := type s;
                                    handler_config := s |}) in
    if negb (Nat.eqb (length (managedColumns Source)) 0) then
      add_managedColumns (managedColumns Source) s
    else ret tt
  else
    let* missing :=
      await (missingConfig (requiredConfig Source) (Some (config_object s))) in
    if Nat.eqb (length missing) 0 then
      let* missingColumns :=
        await (missingConfig (requiredColumns Source) (columns_object s)) in
      throw (SourceLoadError
               ("Missing column names: " +:+ join missingColumns)
               (Some (type s)))
    else
      throw (SourceLoadError
               ("Missing the following config keys: " +:+ join missing)
               (Some (type s))).

(** [for(const s of config.sources)] *)
Fixpoint load_sources (l : list SourceConfig) : St Manager unit :=
  match l with
  | [] => ret tt
  | s :: rest =>
      let* _ := load_source s in
      load_sources rest
  end.

(** [new SourceManager(config, repo, accountManager, board)], from
    [config.sources] when it is an array: the outcome, and the manager
    object as the constructor left it. *)
Definition new (config_sources : option (list SourceConfig))
  : Result unit * Manager :=
  match config_sources with
  | Some (s :: rest) => load_sources (s :: rest) empty
  | _ => (Ok tt, empty)
  end.

(** *** Validity of an entry, stated on the entry alone *)

(** What [checkSourceConfig] answers once the handler class is known. *)
Definition validates (d : HandlerDeclaration) (s : SourceConfig)
  : Result bool :=
  match checkConfigArray (requiredConfig d) (Some (config_object s)) with
  | Ok true => checkConfigArray (requiredColumns d) (columns_object s)
  | Ok false => Ok false
  | Throw e => Throw e
  end.

(** The required config keys [s] lacks, in declaration order. *)
Definition missing_keys (d : HandlerDeclaration) (s : SourceConfig)
  : list string :=
  List.filter (λ c, negb (config_object s c)) (requiredConfig d).

(** The required column roles [s.columns] lacks. *)
Definition missing_roles (d : HandlerDeclaration) (s : SourceConfig)
  : list string :=
  match columns s with
  | Some o =>
      List.filter (λ c, match o !! c with Some _ => false | None => true end
                        && negb (includes OBJECT_PROTOTYPE c))
                  (requiredColumns d)
  | None => requiredColumns d
  end.

(** The message of the error a failed validation raises. *)
Definition validation_message (d : HandlerDeclaration) (s : SourceConfig)
  : string :=
  match missing_keys d s with
  | [] => "Missing column names: " +:+ join (missing_roles d s)
  | _ :: _ => "Missing the following config keys: " +:+ join (missing_keys d s)
  end.

(** [accepts s]: the type of [s] resolves to a handler, the
    configuration passes its checks, the constructor of the handler
    returns and the managed roles of the handler can be read. *)
Definition accepts (s : SourceConfig) : bool :=
  negb (includes NOT_SOURCES (type s)) &&
  match require (type s) with
  | Some d =>
      match validates d s with
      | Ok true =>
          is_ok (constructor d env s) &&
          match managedColumns d, columns s with
          | _ :: _, None => false
          | _, _ => true
          end
      | _ => false
      end
  | None => false
  end.

(** [rejects s]: the type of [s] is no handler, the configuration does
    not pass its checks, or the constructor of the handler throws. *)
Definition rejects (s : SourceConfig) : bool :=
  includes NOT_SOURCES (type s) ||
  match require (type s) with
  | Some d =>
      match validates d s with
      | Ok true => negb (is_ok (constructor d env s))
      | _ => true
      end
  | None => true
  end.

(** The column names the managed roles of [s] add to the managed set. *)
Definition managed_names (s : SourceConfig) : list (option string) :=
  match require (type s), columns s with
  | Some d, Some o => map (λ c, o !! c) (managedColumns d)
  | _, _ => []
  end.

(** Every cached constructor is the one [require] loads. *)
Definition cache_ok (m : Manager) : Prop :=
  ∀ t d, sourceFactories m !! t = Some d → require t = Some d.

Definition handler_of (s : SourceConfig) : Handler :=
  {| handler_type := type s; handler_config := s |}.

Definition add_all (names : list (option string)) (l : list (option string))
  : list (option string) :=
  foldl (λ acc x, set_add x acc) l names.

End Loader.

(** *** Example configuration *)

(** The handler modules of the repository: [issues] and [discourse] as
    their classes declare them; [publish] with the column roles
    test/sources/publish.js expects of it and a constructor that
    returns, as in the test. *)
Definition PublishSource : HandlerDeclaration :=
  {| requiredConfig := requiredConfig Source;
     requiredColumns := ["source"; "target"];
     managedColumns := ["target"];
     constructor := λ _ _, Ok tt |}.

Definition modules (sourceType : string) : option HandlerDeclaration :=
  if String.eqb sourceType "issues" then Some IssuesSource
  else if String.eqb sourceType "discourse" then Some DiscourseSource
  else if String.eqb sourceType "publish" then Some PublishSource
  else if String.eqb sourceType "source" then Some Source
  else None.

Definition issues_ok : SourceConfig :=
  {| type := "issues"; columns := Some {[ "target" := "Backlog" ]};
     settings := ∅ |}.

Definition publish_ok : SourceConfig :=
  {| type := "publish";
     columns := Some {[ "source" := "To tweet"; "target" := "Tweeted" ]};
     settings := {[ "schedule" := VArray [] ]} |}.

(** [{type: "issues", columns: {}}] *)
Definition issues_no_target : SourceConfig :=
  {| type := "issues"; columns := Some ∅; settings := ∅ |}.

(** [{type: "issues"}] *)
Definition issues_no_columns : SourceConfig :=
  {| type := "issues"; columns := None; settings := ∅ |}.

(** [{type: "discourse"}] *)
Definition discourse_bare : SourceConfig :=
  {| type := "discourse"; columns := None; settings := ∅ |}.

(** [{type: "discourse", columns: {target: "Backlog"},
      accountName: ...}] *)
Definition discourse_for (accountName : string) : SourceConfig :=
  {| type := "discourse"; columns := Some {[ "target" := "Backlog" ]};
     settings := {[ "accountName" := VString accountName ]} |}.

(** A manager with the board of test/sources/issues.js and an account
    manager that holds the discourse account [forum] only. *)
Definition demo_env : Environment :=
  {| _board := Some IssuesSource.demo_board;
     getAccount := λ t name,
       match name with
       | Some (VString n) =>
           if String.eqb t "discourse" && String.eqb n "forum"
           then Ok (Some {| on := λ _, Ok tt |})
           else Ok None
       | _ => Ok None
       end |}.

End SourceManager.


(** ** lib/sources/discourse.js *)

Module Discourse.

(** A thread of the forum, as the [created] event hands it over. *)
Record Thread : Type := {
  title : string;
  slug : string;
  excerpt : string
}.

(** An issue of the repository, as far as the handler reads it. *)
Record Issue : Type := {
  issue_number : nat;
  issue_title : string
}.

(** The static methods [self(this)] offers besides [getTitle]: a class
    may declare [getEventCardContent], given here applied to
    [this._board.config]. [self(this)] is taken to be the class of the
    instance, as in lib/accounts/twitter.js. *)
Record Statics : Type := {
  getEventCardContent : option (Thread → string)
}.

(** [class DiscourseSource extends Source]: the class declares
    [getDiscourseCardContent], [getTitle], [requiredConfig] and
    [requiredColumns], its base class [requiredColumns],
    [requiredConfig] and [managedColumns]; neither declares
    [getEventCardContent]. *)
Definition DiscourseSource : Statics :=
  {| getEventCardContent := None |}.

(** The fields of the handler: those of [Source] ([_board],
    [_config.columns]), [_config.forum], the class of the instance, and
    the outcomes of [this._repo.issues.issues],
    [this._repo.issues.closedIssues] (their values in order) and
    [this._board.createCard(title, content, column)]. *)
Record Source : Type := {
  self : Statics;
  _board : IssuesSource.Board;
  _config_columns : gmap string string;
  _config_forum : option string;
  repo_issues : Result (list Issue);
  repo_closedIssues : Result (list Issue);
  createCard : string → string → option IssuesSource.Column → Result unit
}.

Inductive Event : Type :=
| CreateCard (title content : string) (column : option IssuesSource.Column).

(** [DiscourseSource.getTitle(thread, config)] *)
Definition getTitle (thread : Thread) (config_forum : option string)
  : string :=
  title thread +:+ " (" +:+ default "undefined" config_forum +:+ ")".

(** [Source.getColumn(columnKey)], inherited *)
Definition getColumn (this : Source) (columnKey : string)
  : M Event (option IssuesSource.Column) :=
  let* _ := await (IssuesSource.ready (_board this)) in
  let* columns := await (IssuesSource.columns (_board this)) in
  let* columnIds := await (IssuesSource.columnIds (_board this)) in
  ret (mjoin (assoc columns
                (default "undefined"
                   (prop columnIds (prop (_config_columns this) (Some columnKey)))))).

(** The [for] loop of [getThread] and the [return false] behind it. *)
Fixpoint getThread_loop (title : string) (allIssues : list Issue)
  : option Issue :=
  match allIssues with
  | [] => None
  | issue :: rest =>
      if String.eqb (issue_title issue) title then Some issue
      else getThread_loop title rest
  end.

(** [getThread(thread)]; [None] stands for [false]. *)
Definition getThread (this : Source) (thread : Thread)
  : M Event (option Issue) :=
  let* _ := await (IssuesSource.ready (_board this)) in
  let* issues := await (repo_issues this) in
  let* closedIssues := await (repo_closedIssues this) in
  let allIssues := issues ++ closedIssues in
  let title := getTitle thread (_config_forum this) in
  ret (getThread_loop title allIssues).

(** [addThread(thread)]: the arguments of [createCard] are evaluated
    from left to right; calling a static method the class does not have
    is a TypeError. *)
Definition addThread (this : Source) (thread : Thread) : M Event unit :=
  let title := getTitle thread (_config_forum this) in
  let* content :=
    match getEventCardContent (self this) with
    | Some f => ret (f thread)
    | None => throw TypeError
    end in
  let* column := getColumn this "target" in
  call (CreateCard title content column) (createCard this title content column).

(** [handleThread(thread)] *)
Definition handleThread (this : Source) (thread : Thread) : M Event unit :=
  let* found := getThread this thread in
  match found with
  | Some _ => ret tt
  | None => addThread this thread
  end.

(** The issues that carry the title of a thread. *)
Definition has_title (this : Source) (thread : Thread) (issue : Issue) : Prop :=
  issue_title issue = getTitle thread (_config_forum this).

(** *** An example handler *)

Definition demo_thread : Thread :=
  {| title := "Hello"; slug := "/t/hello/1"; excerpt := "A first post" |}.

Definition demo_source (class : Statics) (issues : list Issue) : Source :=
  {| self := class;
     _board := IssuesSource.demo_board;
     _config_columns := {[ "target" := "Foo" ]};
     _config_forum := Some "support";
     repo_issues := Ok issues;
     repo_closedIssues :=
       Ok [ {| issue_number := 3; issue_title := "Hello (support)" |} ];
     createCard := λ _ _ _, Ok tt |}.

End Discourse.
(** ** lib/accounts/twitter.js *)

Module TwitterAccount.

(** A JavaScript string is a sequence of UTF-16 code units. *)
Definition CodeUnit : Type := N.

(** The code units of an ASCII literal. *)
Definition str (s : string) : list CodeUnit :=
  map N_of_ascii (String.list_ascii_of_string s).

Definition BANG : CodeUnit := 33%N.
Definition LBRACKET : CodeUnit := 91%N.
Definition RBRACKET : CodeUnit := 93%N.
Definition LPAREN : CodeUnit := 40%N.
Definition RPAREN : CodeUnit := 41%N.

(** [[^\]]*\]] at the head of [s]: what follows the first "]". *)
Fixpoint skip_alt (s : list CodeUnit) : option (list CodeUnit) :=
  match s with
  | [] => None
  | c :: rest => if N.eqb c RBRACKET then Some rest else skip_alt rest
  end.

(** The code units of [s] before its first ")" and what follows it:
    the capture group followed by the closing parenthesis. *)
Fixpoint take_url (s : list CodeUnit)
  : option (list CodeUnit * list CodeUnit) :=
  match s with
  | [] => None
  | c :: rest =>
      if N.eqb c RPAREN then Some ([], rest)
      else match take_url rest with
           | Some (url, after) => Some (c :: url, after)
           | None => None
           end
  end.

(** [/!\[[^\]]*\]\(([^)]+)\)/] matched at the head of [s]: the capture
    group and what follows the match. Neither class can match the
    delimiter that ends it, so there is nothing to backtrack into. *)
Definition match_image (s : list CodeUnit)
  : option (list CodeUnit * list CodeUnit) :=
  match s with
  | c0 :: c1 :: s1 =>
      if N.eqb c0 BANG && N.eqb c1 LBRACKET then
        match skip_alt s1 with
        | Some (c2 :: s2) =>
            if N.eqb c2 LPAREN then
              match take_url s2 with
              | Some (u :: url, after) => Some (u :: url, after)
              | _ => None
              end
            else None
        | _ => None
        end
      else None
  | _ => None
  end.

(** [tweet.search(/!\[[^\]]*\]\([^)]+\)/) !== -1] *)
Fixpoint search (s : list CodeUnit) : bool :=
  match s with
  | [] => false
  | c :: rest =>
      match match_image s with
      | Some _ => true
      | None => search rest
      end
  end.

(** [tweet.replace(/.../g, (match, url) => { media.push(url); return ''; })]:
    the string without the matches, and [media]. Each step consumes at
    least one code unit, so [length s] steps are enough. *)
Fixpoint replace_images (fuel : nat) (s : list CodeUnit)
  : list CodeUnit * list (list CodeUnit) :=
  match fuel, s with
  | _, [] => ([], [])
  | O, _ => (s, [])
  | S fuel', c :: rest =>
      match match_image s with
      | Some (url, after) =>
          let (pure, media) := replace_images fuel' after in
          (pure, url :: media)
      | None =>
          let (pure, media) := replace_images fuel' rest in
          (c :: pure, media)
      end
  end.

(** WhiteSpace and LineTerminator code units, which [trim] strips. *)
Definition is_space (c : CodeUnit) : bool :=
  (N.leb 9 c && N.leb c 13) || N.eqb c 32 || N.eqb c 160 || N.eqb c 5760
  || (N.leb 8192 c && N.leb c 8202) || N.eqb c 8232 || N.eqb c 8233
  || N.eqb c 8239 || N.eqb c 8287 || N.eqb c 12288 || N.eqb c 65279.

Fixpoint trimStart (s : list CodeUnit) : list CodeUnit :=
  match s with
  | [] => []
  | c :: rest => if is_space c then trimStart rest else s
  end.

(** [String.prototype.trim] *)
Definition trim (s : list CodeUnit) : list CodeUnit :=
  rev (trimStart (rev (trimStart s))).

(** [TwitterAccount.getMediaAndContent(tweet)] *)
Definition getMediaAndContent (tweet : list CodeUnit)
  : Result (list CodeUnit * list (list CodeUnit)) :=
  if search tweet then
    let (pureTweet, media) := replace_images (length tweet) tweet in
    if Nat.ltb 4 (length media) then
      Throw (JsError "Can not upload more than 4 images per tweet")
    else Ok (trim pureTweet, media)
  else Ok (trim tweet, []).

(** *** Image references, stated on the text *)

(** [![alt](url)] *)
Definition image (alt url : list CodeUnit) : list CodeUnit :=
  BANG :: LBRACKET :: (alt ++ RBRACKET :: LPAREN :: (url ++ [RPAREN])).

(** An image reference: no "]" in the alternative text, a non-empty
    target without ")". *)
Definition is_image (alt url : list CodeUnit) : Prop :=
  (RBRACKET ∉ alt) ∧ (url ≠ []) ∧ (RPAREN ∉ url).

(** [starts_with_image s]: an image reference starts at the head of [s]. *)
Definition starts_with_image (s : list CodeUnit) : Prop :=
  ∃ alt url after, s = image alt url ++ after ∧ is_image alt url.

(** [contains_image s]: an image reference starts somewhere in [s]. *)
Definition contains_image (s : list CodeUnit) : Prop :=
  ∃ pre post, s = pre ++ post ∧ starts_with_image post.

(** [References s pure media]: reading [s] from the left, the image
    references found (each as soon as one starts, the reading resuming
    behind it) have the targets [media], and [pure] is [s] without them. *)
Inductive References
  : list CodeUnit → list CodeUnit → list (list CodeUnit) → Prop :=
| references_end : References [] [] []
| references_image alt url after pure media :
    is_image alt url →
    References after pure media →
    References (image alt url ++ after) pure (url :: media)
| references_text c rest pure media :
    ¬ starts_with_image (c :: rest) →
    References rest pure media →
    References (c :: rest) (c :: pure) media.

(** *** Regular expressions

    The fragment of JavaScript regular expressions the file uses, with
    the matching order of the language: a quantifier is greedy and gives
    back what it took only when what follows fails; one capture group. *)

Inductive Regex : Type :=
| Eps
| Chr (p : CodeUnit → bool)
| Seq (r1 r2 : Regex)
| Opt (r : Regex)
| Star (p : CodeUnit → bool)
| Plus (p : CodeUnit → bool)
| Group (r : Regex)
| Bol
| Eol.

(** What is left of the input behind a match, and capture group 1. *)
Definition Match : Type := list CodeUnit * option (list CodeUnit).

(** What follows a sub-expression: from the rest of the input and the
    capture so far to the match, if any. *)
Definition Cont : Type := list CodeUnit → option (list CodeUnit) → option Match.

(** [[p]*] followed by [k]: the longest run first. *)
Fixpoint star (p : CodeUnit → bool) (s : list CodeUnit)
    (cap : option (list CodeUnit)) (k : Cont) : option Match :=
  match s with
  | c :: rest =>
      if p c then
        match star p rest cap k with
        | Some m => Some m
        | None => k s cap
        end
      else k s cap
  | [] => k [] cap
  end.

(** [r] followed by [k], on the input [s] of a subject of length [n]. *)
Fixpoint matches (r : Regex) (n : nat) (s : list CodeUnit)
    (cap : option (list CodeUnit)) (k : Cont) : option Match :=
  match r with
  | Eps => k s cap
  | Chr p =>
      match s with
      | c :: rest => if p c then k rest cap else None
      | [] => None
      end
  | Seq r1 r2 => matches r1 n s cap (λ s' cap', matches r2 n s' cap' k)
  | Opt r1 =>
      match matches r1 n s cap k with
      | Some m => Some m
      | None => k s cap
      end
  | Star p => star p s cap k
  | Plus p =>
      match s with
      | c :: rest => if p c then star p rest cap k else None
      | [] => None
      end
  | Group r1 =>
      matches r1 n s cap
        (λ s' _, k s' (Some (take (length s - length s') s)))
  | Bol => if Nat.eqb (length s) n then k s cap else None
  | Eol => match s with [] => k s cap | _ :: _ => None end
  end.

(** A match of [r] that starts at the head of [s]. *)
Definition match_at (r : Regex) (n : nat) (s : list CodeUnit) : option Match :=
  matches r n s None (λ rest cap, Some (rest, cap)).

(** The first match of [r] in [s], scanning the start position from the
    left. *)
Fixpoint exec_from (r : Regex) (n : nat) (s : list CodeUnit) : option Match :=
  match match_at r n s with
  | Some m => Some m
  | None =>
      match s with
      | [] => None
      | _ :: rest => exec_from r n rest
      end
  end.

(** [input.match(r)] for [r] without the [g] flag. *)
Definition exec (r : Regex) (input : list CodeUnit) : option Match :=
  exec_from r (length input) input.

(** The characters of a literal, one after the other. *)
Definition lit (l : list CodeUnit) : Regex :=
  foldr (λ c r, Seq (Chr (N.eqb c)) r) Eps l.

(** [.]: any code unit but a line terminator. *)
Definition dot (c : CodeUnit) : bool :=
  negb (N.eqb c 10 || N.eqb c 13 || N.eqb c 8232 || N.eqb c 8233).

Definition SLASH : CodeUnit := 47%N.

(** [[0-9]] *)
Definition digit (c : CodeUnit) : bool := N.leb 48 c && N.leb c 57.

(** [[^/]] *)
Definition not_slash (c : CodeUnit) : bool := negb (N.eqb c SLASH).

(** [/!\[[^\]]*\]\(([^)]+)\)/], the expression [getMediaAndContent]
    replaces. *)
Definition IMAGE_RE : Regex :=
  Seq (lit (str "!["))
   (Seq (Star (λ c, negb (N.eqb c RBRACKET)))
     (Seq (lit (str "]("))
       (Seq (Group (Plus (λ c, negb (N.eqb c RPAREN))))
            (lit (str ")"))))).

(** [/!\[[^\]]*\]\([^)]+\)/], the expression [getMediaAndContent]
    searches. *)
Definition IMAGE_SEARCH_RE : Regex :=
  Seq (lit (str "!["))
   (Seq (Star (λ c, negb (N.eqb c RBRACKET)))
     (Seq (lit (str "]("))
       (Seq (Plus (λ c, negb (N.eqb c RPAREN)))
            (lit (str ")"))))).

(** [/^https?:\/\/(?:www\.)?twitter.com\/[^/]+\/status\/([0-9]+)\/?$/] *)
Definition TWEET_ID_RE : Regex :=
  Seq Bol
   (Seq (lit (str "http"))
    (Seq (Opt (lit (str "s")))
     (Seq (lit (str "://"))
      (Seq (Opt (lit (str "www.")))
       (Seq (lit (str "twitter"))
        (Seq (Chr dot)
         (Seq (lit (str "com/"))
          (Seq (Plus not_slash)
           (Seq (lit (str "/status/"))
            (Seq (Group (Plus digit))
             (Seq (Opt (lit (str "/"))) Eol))))))))))).

(** [/^https?:\/\/(?:www\.)?twitter.com\/([^/]+)\/status\/[0-9]+\/?$/] *)
Definition TWEET_USER_RE : Regex :=
  Seq Bol
   (Seq (lit (str "http"))
    (Seq (Opt (lit (str "s")))
     (Seq (lit (str "://"))
      (Seq (Opt (lit (str "www.")))
       (Seq (lit (str "twitter"))
        (Seq (Chr dot)
         (Seq (lit (str "com/"))
          (Seq (Group (Plus not_slash))
           (Seq (lit (str "/status/"))
            (Seq (Plus digit)
             (Seq (Opt (lit (str "/"))) Eol))))))))))).

(** [(matches && matches.length > 1) ? matches[1] : null] *)
Definition first_group (m : option Match) : option (list CodeUnit) :=
  match m with
  | Some (_, cap) => cap
  | None => None
  end.

(** [TwitterAccount.getTweetIDFromURL(tweetUrl)] *)
Definition getTweetIDFromURL (tweetUrl : list CodeUnit)
  : option (list CodeUnit) :=
  first_group (exec TWEET_ID_RE tweetUrl).

(** [TwitterAccount.getUserFromURL(tweetUrl)] *)
Definition getUserFromURL (tweetUrl : list CodeUnit)
  : option (list CodeUnit) :=
  first_group (exec TWEET_USER_RE tweetUrl).

(** [TwitterAccount.makeTweetPermalink(username, id)] *)
Definition makeTweetPermalink (username id : list CodeUnit) : list CodeUnit :=
  str "https://twitter.com/" ++ username ++ str "/status/" ++ id.

(** *** Tweet URLs, stated on the text *)

(** [s] without the prefix [l], when it starts with [l]. *)
Fixpoint strip_prefix (l s : list CodeUnit) : option (list CodeUnit) :=
  match l, s with
  | [], _ => Some s
  | c :: l', c' :: s' => if N.eqb c c' then strip_prefix l' s' else None
  | _ :: _, [] => None
  end.

(** The longest prefix of [s] whose code units satisfy [p]. *)
Fixpoint run_of (p : CodeUnit → bool) (s : list CodeUnit) : list CodeUnit :=
  match s with
  | c :: rest => if p c then c :: run_of p rest else []
  | [] => []
  end.

(** [s] behind that prefix. *)
Fixpoint after_run (p : CodeUnit → bool) (s : list CodeUnit) : list CodeUnit :=
  match s with
  | c :: rest => if p c then after_run p rest else s
  | [] => []
  end.

(** What follows the scheme and the host of a tweet URL, read from the
    left: [http] or [https], [://], an optional [www.], [twitter], one
    code unit that is no line terminator, [com/]. *)
Definition strip_host (url : list CodeUnit) : option (list CodeUnit) :=
  match strip_prefix (str "http") url with
  | None => None
  | Some s0 =>
      match strip_prefix (str "://") (default s0 (strip_prefix (str "s") s0)) with
      | None => None
      | Some s2 =>
          match strip_prefix (str "twitter")
                  (default s2 (strip_prefix (str "www.") s2)) with
          | Some (c :: s5) =>
              if dot c then strip_prefix (str "com/") s5 else None
          | _ => None
          end
      end
  end.

(** The user and the id of the path of a tweet URL: a run without
    slash, [/status/], a run of digits, an optional final slash. *)
Definition parse_path (path : list CodeUnit)
  : option (list CodeUnit * list CodeUnit) :=
  match run_of not_slash path,
        strip_prefix (str "/status/") (after_run not_slash path) with
  | _ :: _, Some s8 =>
      match run_of digit s8, after_run digit s8 with
      | _ :: _, [] => Some (run_of not_slash path, run_of digit s8)
      | _ :: _, [c9] =>
          if N.eqb c9 SLASH
          then Some (run_of not_slash path, run_of digit s8)
          else None
      | _, _ => None
      end
  | _, _ => None
  end.

(** A tweet URL read from the left: the user and the id it names. *)
Definition parse_tweet_url (url : list CodeUnit)
  : option (list CodeUnit * list CodeUnit) :=
  match strip_host url with
  | Some path => parse_path path
  | None => None
  end.

(** The URLs the two expressions accept: [http] or [https], an optional
    [www.], any code unit but a line terminator between [twitter] and
    [com], an optional final slash. *)
Definition tweet_url (secure www : bool) (sep : CodeUnit)
    (user id : list CodeUnit) (slash : bool) : list CodeUnit :=
  str "http" ++ (if secure then str "s" else []) ++ str "://"
    ++ (if www then str "www." else []) ++ str "twitter" ++ [sep]
    ++ str "com/" ++ user ++ str "/status/" ++ id
    ++ (if slash then str "/" else []).

(** A user name of a URL: not empty, without a slash. *)
Definition is_user (user : list CodeUnit) : Prop :=
  user ≠ [] ∧ Forall (λ c, not_slash c = true) user.

(** A tweet id: not empty, decimal digits only. *)
Definition is_id (id : list CodeUnit) : Prop :=
  id ≠ [] ∧ Forall (λ c, digit c = true) id.

(** *** The account

    The twitter-text library, the Twitter client and the card come from
    outside the file: the library functions are parameters, the client
    and the card records of the outcomes of the calls made on them. *)

(** The arguments of [statuses/update]. *)
Record UpdateArgs : Type := {
  status : list CodeUnit;
  in_reply_to_status_id : option (list CodeUnit);
  auto_populate_reply_metadata : option (list CodeUnit);
  media_ids : option (list CodeUnit)
}.

(** A tweet of the timeline, as far as the file reads it. *)
Record Tweet : Type := {
  full_text : option (list CodeUnit);
  text : option (list CodeUnit);
  user_screen_name : list CodeUnit;
  id_str : list CodeUnit;
  retweeted_status_id_str : option (list CodeUnit)
}.

(** A card: its sections [TwitterFormatter.RETWEET] and
    [TwitterFormatter.REPLY_TO] when it has them, and what
    [GetContentSection(card)] returns. *)
Record Card : Type := {
  card_number : nat;
  retweet_section : option (list CodeUnit);
  reply_to_section : option (list CodeUnit);
  content_section : list CodeUnit
}.

(** The account: the outcome of [this.ready], the [username] the login
    stored, and the outcomes of the requests of the client. *)
Record Account : Type := {
  ready : Result unit;
  username : list CodeUnit;
  upload : list CodeUnit → Result (list CodeUnit);
  post_update : UpdateArgs → Result (list CodeUnit);
  post_retweet : list CodeUnit → Result unit;
  tweets : Result (list Tweet)
}.

Inductive Call : Type :=
| UploadMedia (mediaUrl : list CodeUnit)
| PostUpdate (args : UpdateArgs)
| PostRetweet (endpoint : list CodeUnit)
| MarkPublished (card : Card) (url : list CodeUnit).

(** [haystack.includes(needle)] *)
Fixpoint String_includes (haystack needle : list CodeUnit) : bool :=
  match strip_prefix needle haystack with
  | Some _ => true
  | None =>
      match haystack with
      | [] => false
      | _ :: rest => String_includes rest needle
      end
  end.

(** [array.includes(x)] on strings *)
Definition Array_includes (l : list (list CodeUnit)) (x : list CodeUnit) : bool :=
  bool_decide (x ∈ l).

(** [array.join(",")] *)
Fixpoint join (l : list (list CodeUnit)) : list CodeUnit :=
  match l with
  | [] => []
  | [x] => x
  | x :: rest => x ++ str "," ++ join rest
  end.

(** A string in a condition: the empty string is falsy. *)
Definition truthy (s : list CodeUnit) : bool :=
  match s with [] => false | _ :: _ => true end.

(** The string a template literal puts for a value that may be null. *)
Definition template (v : option (list CodeUnit)) : list CodeUnit :=
  default (str "null") v.

Section Account.

(** [twitter.parseTweet(text).weightedLength] *)
Variable weightedLength : list CodeUnit → Z.

(** [twitter.extractMentions(text)] *)
Variable extractMentions : list CodeUnit → list (list CodeUnit).

(** [String.prototype.toLowerCase] *)
Variable toLowerCase : list CodeUnit → list CodeUnit.

Variable this : Account.

(** [TwitterAccount.getRemainingChars(content)] *)
Definition getRemainingChars (content : list CodeUnit) : Result Z :=
  match getMediaAndContent content with
  | Ok (pureTweet, _) => Ok (280 - weightedLength pureTweet)%Z
  | Throw e => Throw e
  end.

(** [TwitterAccount.tweetTooLong(content)] *)
Definition tweetTooLong (content : list CodeUnit) : Result bool :=
  match getRemainingChars content with
  | Ok charCount => Ok (Z.ltb charCount 0)
  | Throw e => Throw e
  end.

(** [uploadMedia(mediaUrl)] *)
Definition uploadMedia (mediaUrl : list CodeUnit) : M Call (list CodeUnit) :=
  call (UploadMedia mediaUrl) (upload this mediaUrl).

(** [recipient.toLowerCase()], a TypeError on null. *)
Definition recipient_lower (recipient : option (list CodeUnit))
  : Result (list CodeUnit) :=
  match recipient with
  | Some r => Ok (toLowerCase r)
  | None => Throw TypeError
  end.

(** The [if(inReplyTo)] block of [tweet]: the arguments it adds. *)
Definition reply_args (content : list CodeUnit)
    (inReplyTo : option (list CodeUnit)) (args : UpdateArgs)
  : Result UpdateArgs :=
  match inReplyTo with
  | Some url =>
      if truthy url then
        match getTweetIDFromURL url with
        | Some tweetId =>
            if truthy tweetId then
              let args1 :=
                {| status := status args;
                   in_reply_to_status_id := Some tweetId;
                   auto_populate_reply_metadata :=
                     auto_populate_reply_metadata args;
                   media_ids := media_ids args |} in
              let recipient := getUserFromURL url in
              let mentions := map toLowerCase (extractMentions content) in
              let populate (a : UpdateArgs) :=
                {| status := status a;
                   in_reply_to_status_id := in_reply_to_status_id a;
                   auto_populate_reply_metadata := Some (str "true");
                   media_ids := media_ids a |} in
              if Nat.eqb (length mentions) 0 then Ok (populate args1)
              else
                match recipient_lower recipient with
                | Ok r =>
                    if negb (Array_includes mentions r)
                    then Ok (populate args1) else Ok args1
                | Throw e => Throw e
                end
            else Ok args
        | None => Ok args
        end
      else Ok args
  | None => Ok args
  end.

(** [tweet(content, media = '', inReplyTo = null)] *)
Definition tweet (content media : list CodeUnit)
    (inReplyTo : option (list CodeUnit)) : M Call (list CodeUnit) :=
  let* tooLong := await (tweetTooLong content) in
  if (tooLong : bool) then throw (JsError "Tweet content too long")
  else
    let* args :=
      await (reply_args content inReplyTo
               {| status := content; in_reply_to_status_id := None;
                  auto_populate_reply_metadata := None;
                  media_ids := None |}) in
    let args :=
      if negb (Nat.eqb (length media) 0) then
        {| status := status args;
           in_reply_to_status_id := in_reply_to_status_id args;
           auto_populate_reply_metadata := auto_populate_reply_metadata args;
           media_ids := Some media |}
      else args in
    let* _ := await (ready this) in
    let* res := call (PostUpdate args) (post_update this args) in
    ret (makeTweetPermalink (username this) res).

(** [retweet(url)] *)
Definition retweet (url : list CodeUnit) : M Call (list CodeUnit) :=
  let tweetId := getTweetIDFromURL url in
  let* _ := await (ready this) in
  let* _ := call (PostRetweet (str "statuses/retweet/" ++ template tweetId))
                 (post_retweet this (str "statuses/retweet/" ++ template tweetId)) in
  ret url.

(** [Promise.all(media.map((m) => this.uploadMedia(m)))]: [map] starts
    every upload, also when one of them fails; the uploads are taken to
    settle in the order of the list, so that the first failure of the
    list is the one [Promise.all] rejects with. *)
Fixpoint uploadAll (media : list (list CodeUnit))
  : M Call (list (list CodeUnit)) :=
  match media with
  | [] => ret []
  | m :: rest =>
      λ tr,
        let (r, tr1) := uploadMedia m tr in
        let (rs, tr2) := uploadAll rest tr1 in
        (match r, rs with
         | Ok id, Ok ids => Ok (id :: ids)
         | Throw e, _ => Throw e
         | Ok _, Throw e => Throw e
         end, tr2)
  end.

(** [separateContentAndMedia(card)] *)
Definition separateContentAndMedia (card : Card)
  : M Call (list CodeUnit * list CodeUnit) :=
  let* cm := await (getMediaAndContent (content_section card)) in
  let* mediaIds := uploadAll (snd cm) in
  ret (fst cm, join mediaIds).

(** [publish(card)] *)
Definition publish (card : Card) : M Call (list CodeUnit) :=
  match retweet_section card with
  | Some section =>
      let* url := retweet section in
      ret (str "Successfully retweeted.")
  | None =>
      let replyTo := reply_to_section card in
      let* cm := separateContentAndMedia card in
      let* url := tweet (fst cm) (snd cm) replyTo in
      ret (str "Successfully tweeted. See " ++ url)
  end.

(** [tweets.find((t) => 'full_text' in t ? t.full_text.includes(content)
    : t.text.includes(content))] *)
Fixpoint find_tweet (content : list CodeUnit) (tweets : list Tweet)
  : Result (option Tweet) :=
  match tweets with
  | [] => Ok None
  | t :: rest =>
      match full_text t, text t with
      | Some haystack, _ | None, Some haystack =>
          if String_includes haystack content then Ok (Some t)
          else find_tweet content rest
      | None, None => Throw TypeError
      end
  end.

(** [tweets.some((t) => t.retweeted_status
    && t.retweeted_status.id_str === retweetID)] *)
Definition didRetweet (retweetID : option (list CodeUnit))
    (tweets : list Tweet) : bool :=
  existsb (λ t, match retweeted_status_id_str t, retweetID with
                | Some id, Some id' => bool_decide (id = id')
                | _, _ => false
                end) tweets.

(** The [for] loop of [checkPosts] over [Object.values(cards)]. *)
Fixpoint checkPosts_loop (tweets : list Tweet)
    (markPublished : Card → list CodeUnit → Result unit)
    (cards : list Card) : M Call unit :=
  match cards with
  | [] => ret tt
  | card :: rest =>
      let* _ :=
        match retweet_section card with
        | None =>
            let* cm := await (getMediaAndContent (content_section card)) in
            let* found := await (find_tweet (fst cm) tweets) in
            match found with
            | Some t =>
                let url := makeTweetPermalink (user_screen_name t) (id_str t) in
                call (MarkPublished card url) (markPublished card url)
            | None => ret tt
            end
        | Some section =>
            if didRetweet (getTweetIDFromURL section) tweets then
              call (MarkPublished card (str "Already retweeted."))
                   (markPublished card (str "Already retweeted."))
            else ret tt
        end in
      checkPosts_loop tweets markPublished rest
  end.

(** [checkPosts(column, markPublished)], given the outcome of
    [column.cards]. *)
Definition checkPosts (cards : Result (list Card))
    (markPublished : Card → list CodeUnit → Result unit) : M Call unit :=
  let* tweets := await (tweets this) in
  let* cards := await cards in
  checkPosts_loop tweets markPublished cards.

End Account.

(** *** Example tweets *)

Definition tweet_one_image : list CodeUnit :=
  str " Look ![a cat](https://example.com/cat.png) at this ".

Definition tweet_five_images : list CodeUnit :=
  str "![](a)![](b) ![](c)![](d) and ![e](e)".

Definition tweet_no_image : list CodeUnit :=
  str "  nothing ![here]() or ![there](x  ".

(** *** An example account *)

Definition demo_account : Account :=
  {| ready := Ok tt;
     username := str "mozilla";
     upload := λ url, Ok (str "9" ++ url);
     post_update := λ _, Ok (str "1234");
     post_retweet := λ _, Ok tt;
     tweets := Ok [ {| full_text := Some (str "hello world");
                       text := None;
                       user_screen_name := str "mozilla";
                       id_str := str "77";
                       retweeted_status_id_str := None |} ] |}.

Definition card_images_only : Card :=
  {| card_number := 1; retweet_section := None; reply_to_section := None;
     content_section := str " ![a](1) ![b](2) " |}.

Definition card_five_images : Card :=
  {| card_number := 2; retweet_section := None; reply_to_section := None;
     content_section := tweet_five_images |}.

Definition card_bad_retweet : Card :=
  {| card_number := 3; retweet_section := Some (str "not a tweet");
     reply_to_section := None; content_section := [] |}.

End TwitterAccount.

(** ** lib/data-store.js (the expiring single-flight cache)

    The cache is modelled from section 4.1 of the specification;
    test/data-store.js exercises it. A promise is a future: a slot that
    is pending until the fetch function settles it. The fetch function
    belongs to the environment, which settles the future of the fetch in
    flight by [resolve] or [reject]. *)

Module DataStore.

Section Cache.

(** The type of the fetched data. *)
Variable T : Type.

Inductive FutureState : Type :=
| Pending
| Fulfilled (v : T)
| Rejected (e : Error).

(** Modelled from the spec: the CacheEntry of lib/data-store.js,
    [{data, lastUpdateTimestamp, pendingFetch}], with the cache lifetime.
    [data] is unset and there is no timestamp until a fetch has
    completed; [pendingFetch] names the future of the fetch in flight. *)
Record Cache : Type := {
  cacheTime : Z;
  data : option T;
  lastUpdateTimestamp : option Z;
  pendingFetch : option nat
}.

(** A cache in its environment: [fetchCalls] logs the argument of each
    invocation of the fetch function, [futures] holds the future each
    invocation returned, in order. *)
Record World : Type := {
  cache : Cache;
  fetchCalls : list (option T);
  futures : list FutureState
}.

(** Modelled from the spec: the constructor of lib/data-store.js, which
    stores the lifetime and starts empty. *)
Definition new (cacheTime : Z) : World :=
  {| cache := {| cacheTime := cacheTime; data := None;
                 lastUpdateTimestamp := None; pendingFetch := None |};
     fetchCalls := [];
     futures := [] |}.

(** Modelled from the spec: the [cacheExpired] property of
    lib/data-store.js, "true if no fetch has ever completed, or if
    now - lastUpdateTimestamp >= cacheTime". *)
Definition cacheExpired (now : Z) (c : Cache) : bool :=
  match lastUpdateTimestamp c with
  | None => true
  | Some t => Z.leb (cacheTime c) (now - t)
  end.

(** What a call of [getData] hands to its caller: the cached value, or
    the future of the fetch in flight. *)
Inductive Outcome : Type :=
| Cached (d : option T)
| Future (f : nat).

(** Modelled from the spec: [getData()] of lib/data-store.js. "If a
    fetch is already in flight, returns that same pending future. Else,
    if cache is not expired, returns the cached value immediately without
    invoking fetch. Else, starts a fetch by invoking fetch(currentData),
    stores the returned future as in-flight". *)
Definition getData (now : Z) (w : World) : Outcome * World :=
  match pendingFetch (cache w) with
  | Some f => (Future f, w)
  | None =>
      if cacheExpired now (cache w) then
        let f := length (futures w) in
        (Future f,
         {| cache := {| cacheTime := cacheTime (cache w);
                        data := data (cache w);
                        lastUpdateTimestamp := lastUpdateTimestamp (cache w);
                        pendingFetch := Some f |};
            fetchCalls := fetchCalls w ++ [data (cache w)];
            futures := futures w ++ [Pending] |})
      else (Cached (data (cache w)), w)
  end.

(** Modelled from the spec: the completion of the fetch in flight in
    lib/data-store.js, "on successful completion stores the result as
    the new cached value and timestamp, clearing the in-flight marker". *)
Definition resolve (now : Z) (v : T) (w : World) : World :=
  match pendingFetch (cache w) with
  | Some f =>
      {| cache := {| cacheTime := cacheTime (cache w);
                     data := Some v;
                     lastUpdateTimestamp := Some now;
                     pendingFetch := None |};
         fetchCalls := fetchCalls w;
         futures := <[f := Fulfilled v]> (futures w) |}
  | None => w
  end.

(** Modelled from the spec: the failure of the fetch in flight in
    lib/data-store.js, "on failure, clears the in-flight marker (without
    updating data or timestamp) and propagates the failure to all current
    awaiters". *)
Definition reject (e : Error) (w : World) : World :=
  match pendingFetch (cache w) with
  | Some f =>
      {| cache := {| cacheTime := cacheTime (cache w);
                     data := data (cache w);
                     lastUpdateTimestamp := lastUpdateTimestamp (cache w);
                     pendingFetch := None |};
         fetchCalls := fetchCalls w;
         futures := <[f := Rejected e]> (futures w) |}
  | None => w
  end.

(** What the caller that was handed [o] observes in the world [w]. *)
Definition awaited (o : Outcome) (w : World) : option FutureState :=
  match o with
  | Cached (Some v) => Some (Fulfilled v)
  | Cached None => None
  | Future f => futures w !! f
  end.

(** The history of a cache: calls of [getData] and settlements of the
    fetch in flight, each at a time of the clock. *)
Inductive Event : Type :=
| GetData (now : Z)
| Resolve (now : Z) (v : T)
| Reject (e : Error).

Definition step (w : World) (ev : Event) : World :=
  match ev with
  | GetData now => (getData now w).2
  | Resolve now v => resolve now v w
  | Reject e => reject e w
  end.

Definition run (w : World) (evs : list Event) : World := foldl step w evs.

(** [getData] called once at each of [times]: the outcomes, in order. *)
Fixpoint getData_each (times : list Z) (w : World) : list Outcome * World :=
  match times with
  | [] => ([], w)
  | now :: rest =>
      let (o, w1) := getData now w in
      let (os, w2) := getData_each rest w1 in
      (o :: os, w2)
  end.

Definition is_pending (s : FutureState) : bool :=
  match s with Pending => true | _ => false end.

(** The number of fetches outstanding. *)
Definition outstanding (w : World) : nat :=
  length (List.filter is_pending (futures w)).

Definition is_resolve (ev : Event) : bool :=
  match ev with Resolve _ _ => true | _ => false end.

(** The state reachable histories keep: the future in flight, and only
    that one, is pending. *)
Definition consistent (w : World) : Prop :=
  length (fetchCalls w) = length (futures w)
  ∧ match pendingFetch (cache w) with
    | Some f => futures w !! f = Some Pending ∧ outstanding w = 1%nat
    | None => outstanding w = 0%nat
    end.

End Cache.

Arguments Pending {T}.
Arguments Fulfilled {T} v.
Arguments Rejected {T} e.
Arguments Cached {T} d.
Arguments Future {T} f.
Arguments GetData {T} now.
Arguments Resolve {T} now v.
Arguments Reject {T} e.
Arguments new {T} cacheTime.
Arguments cacheExpired {T} now c.
Arguments getData {T} now w.
Arguments resolve {T} now v w.
Arguments reject {T} e w.
Arguments awaited {T} o w.
Arguments step {T} w ev.
Arguments run {T} w evs.
Arguments getData_each {T} times w.
Arguments outstanding {T} w.
Arguments is_resolve {T} ev.
Arguments consistent {T} w.
Arguments cache {T} w.
Arguments fetchCalls {T} w.
Arguments futures {T} w.
Arguments cacheTime {T} c.
Arguments data {T} c.
Arguments lastUpdateTimestamp {T} c.
Arguments pendingFetch {T} c.

End DataStore.

(** ** lib/sources/publish.js (the quota of the scheduled publisher)

    Modelled from section 4.5 of the specification; test/sources/publish.js
    exercises it. Times are milliseconds since the epoch. *)

Module PublishSource.

Open Scope Z_scope.

Definition MS_PER_MINUTE : Z := 60000.
Definition MS_PER_HOUR : Z := 3600000.
Definition MS_PER_DAY : Z := 86400000.

(** Modelled from the spec: one "H:M" token of the [schedule] of
    lib/sources/publish.js, as the hour and the minute it names. Nothing
    validates a token, so neither number is bounded. *)
Record Token : Type := { hour : Z; minute : Z }.

(** Modelled from the spec: "today at 00:00 UTC" at the time [now]. *)
Definition startOfUTCDay (now : Z) : Z := now - now mod MS_PER_DAY.

(** Modelled from the spec: [toUTCTimestamp(hour, minute)] of
    lib/sources/publish.js, "today at 00:00 UTC + hour*3600000 +
    minute*60000 milliseconds". *)
Definition toUTCTimestamp (now : Z) (hour minute : Z) : Z :=
  startOfUTCDay now + hour * MS_PER_HOUR + minute * MS_PER_MINUTE.

(** The timestamp a token resolves to on the UTC day of [now]. *)
Definition resolved (now : Z) (t : Token) : Z :=
  toUTCTimestamp now (hour t) (minute t).

(** Modelled from the spec: the state of a PublishSource the quota
    reads, its configured [schedule] and its [lastUpdate] timestamp. *)
Record Source : Type := { schedule : list Token; lastUpdate : Z }.

(** A quota: a number of slots, or [Infinity]. *)
Inductive Quota : Type :=
| Infinity
| Slots (n : nat).

(** The slots of [tokens] counted one by one, from [count]. *)
Fixpoint count_slots (now lastUpdate : Z) (tokens : list Token) (count : nat)
  : nat :=
  match tokens with
  | [] => count
  | t :: rest =>
      if (resolved now t <=? now) && (lastUpdate <? resolved now t)
      then count_slots now lastUpdate rest (S count)
      else count_slots now lastUpdate rest count
  end.

(** Modelled from the spec: [getCurrentQuota()] of lib/sources/publish.js,
    "returns Infinity if schedule is empty. Otherwise counts schedule
    entries whose resolved timestamp-for-today is <= now and strictly
    greater than the handler's lastUpdate timestamp". *)
Definition getCurrentQuota (this : Source) (now : Z) : Quota :=
  match schedule this with
  | [] => Infinity
  | _ :: _ => Slots (count_slots now (lastUpdate this) (schedule this) 0)
  end.

(** [elapsed this now t]: the slot of [t] lies in [(lastUpdate, now]]. *)
Definition elapsed (this : Source) (now : Z) (t : Token) : Prop :=
  lastUpdate this < resolved now t ≤ now.

(** The schedule of the quota test of test/sources/publish.js, built at
    clock 0: one minute ahead, one hour ahead, one hour back. *)
Definition test_source : Source :=
  {| schedule := [ {| hour := 0; minute := 1 |};
                   {| hour := 1; minute := 0 |};
                   {| hour := -1; minute := 0 |} ];
     lastUpdate := 0 |}.

#[global] Instance elapsed_dec this now t : Decision (elapsed this now t).
Proof. unfold elapsed. apply _. Defined.

Close Scope Z_scope.

End PublishSource.

(** ** Properties of lib/sources/issues.js *)

Module IssuesSourceSpec.
Import IssuesSource.

Ltac run :=
  unfold handleCard, addIssue, getColumn, onClosedIssue,
    Js.bind, Js.await, Js.call, Js.ret, Js.try_catch in *; simpl in *.

Lemma every_other_id_defined managed c :
  every_other_id (map Some managed) c = Ok (negb (is_managed managed c)).
Proof.
  induction managed as [|m managed IH]; simpl; [reflexivity|].
  destruct (Nat.eqb (col_id m) (col_id c)); simpl; [reflexivity|exact IH].
Qed.

Lemma board_columns_cons_none k cols :
  board_columns ((k, None) :: cols) = board_columns cols.
Proof. reflexivity. Qed.

Lemma board_columns_cons_some k c cols :
  board_columns ((k, Some c) :: cols) = c :: board_columns cols.
Proof. reflexivity. Qed.

Lemma handleCard_loop_spec managed issue cols :
  (∀ c, c ∈ board_columns cols → is_managed managed c = false →
        is_ok (hasIssue c (number issue)) = true) →
  ∀ tr,
    handleCard_loop (map Some managed) issue (values cols) tr =
    (Ok (find (λ c, negb (is_managed managed c) && reports_present issue c)
            (board_columns cols)),
     tr ++ has_issue_calls issue
             (asked_unmanaged managed issue (board_columns cols))).
Proof.
  induction cols as [|[k [c|]] cols IH]; intros Hok tr.
  - simpl. by rewrite app_nil_r.
  - rewrite board_columns_cons_some. simpl values. simpl handleCard_loop.
    unfold Js.bind, Js.await. rewrite every_other_id_defined.
    assert (Hrest : ∀ c', c' ∈ board_columns cols →
              is_managed managed c' = false →
              is_ok (hasIssue c' (number issue)) = true).
    { intros c' Hin. apply Hok. rewrite board_columns_cons_some.
      by apply list_elem_of_further. }
    simpl find. simpl asked_unmanaged.
    destruct (is_managed managed c) eqn:Hm; simpl.
    + by apply IH.
    + unfold Js.call. unfold reports_present.
      specialize (Hok c (list_elem_of_here _ _) Hm).
      destruct (hasIssue c (number issue)) as [[|]|e]; simpl in *;
        [ reflexivity | | discriminate ].
      rewrite IH by exact Hrest. by rewrite <- app_assoc.
  - rewrite board_columns_cons_none. simpl. by apply IH.
Qed.

Lemma asked_unmanaged_sound managed issue cs :
  Forall (λ c, c ∈ cs ∧ is_managed managed c = false)
         (asked_unmanaged managed issue cs).
Proof.
  induction cs as [|c cs IH]; simpl; [constructor|].
  assert (Hmono : Forall (λ c', c' ∈ c :: cs ∧ is_managed managed c' = false)
                    (asked_unmanaged managed issue cs)).
  { eapply Forall_impl; [exact IH|]. intros c' [Hin Hm]. split; [|done].
    by apply list_elem_of_further. }
  destruct (is_managed managed c) eqn:Hm; [exact Hmono|].
  destruct (reports_present issue c).
  - constructor; [|constructor]. split; [apply list_elem_of_here|done].
  - constructor; [|exact Hmono]. split; [apply list_elem_of_here|done].
Qed.

Lemma find_first {A} (p : A → bool) (l : list A) (x : A) :
  find p l = Some x →
  ∃ pre post, l = pre ++ x :: post ∧ p x = true ∧
              forallb (λ y, negb (p y)) pre = true.
Proof.
  induction l as [|a l IH]; simpl; [discriminate|].
  destruct (p a) eqn:Hpa.
  - intros [= ->]. by exists [], l.
  - intros Hf. destruct (IH Hf) as (pre & post & -> & Hx & Hpre).
    exists (a :: pre), post. simpl. by rewrite Hpa, Hpre.
Qed.

Lemma find_none_all {A} (p : A → bool) (l : list A) :
  find p l = None → forallb (λ y, negb (p y)) l = true.
Proof.
  induction l as [|a l IH]; simpl; [done|].
  destruct (p a); [discriminate|]. exact IH.
Qed.

Lemma addIssue_loop_spec this issue isClosed cols :
  forallb (λ c, is_ok (hasIssue c (number issue))) (board_columns cols) = true →
  ∀ tr,
    addIssue_loop this issue isClosed (values cols) tr =
    match find (reports_present issue) (board_columns cols) with
    | Some X =>
        (returned (addCard (_board this) issue (Some X)),
         tr ++ has_issue_calls issue (asked issue (board_columns cols))
            ++ [AddCard issue (Some X)])
    | None =>
        addIssue_loop this issue isClosed []
          (tr ++ has_issue_calls issue (board_columns cols))
    end.
Proof.
  induction cols as [|[k [c|]] cols IH]; intros Hok tr.
  - simpl board_columns. simpl find. unfold has_issue_calls. simpl map.
    by rewrite app_nil_r.
  - rewrite board_columns_cons_some in *. simpl in Hok.
    apply andb_prop in Hok as [Hc Hok].
    simpl values. simpl addIssue_loop. simpl find. simpl asked.
    unfold Js.bind at 1. unfold Js.call at 1. unfold reports_present at 1 3.
    destruct (hasIssue c (number issue)) as [[|]|e]; simpl in *;
      [ | | discriminate ].
    + unfold Js.bind, Js.call, Js.ret, returned.
      rewrite <- app_assoc. simpl.
      by destruct (addCard (_board this) issue (Some c)).
    + rewrite IH by exact Hok.
      destruct (find (reports_present issue) (board_columns cols));
        by rewrite <- !app_assoc.
  - rewrite board_columns_cons_none. simpl. by apply IH.
Qed.

Lemma asked_all_absent issue cs :
  forallb (λ c, negb (reports_present issue c)) cs = true →
  asked issue cs = cs.
Proof.
  induction cs as [|c cs IH]; simpl; [done|].
  destruct (reports_present issue c); simpl; [discriminate|].
  intros H. by rewrite IH.
Qed.

Lemma handleCard_extends this issue tr :
  ∃ evs, snd (handleCard this issue tr) = tr ++ evs.
Proof.
  run. destruct (columns (_board this)) as [cols|e];
    [|exists []; by rewrite app_nil_r].
  destruct (_getManagedColumns this) as [managed|e];
    [|exists []; by rewrite app_nil_r].
  generalize (values cols) as cs. clear cols. intros cs. revert tr.
  induction cs as [|[c|] cs IH]; intros tr; simpl;
    unfold Js.bind, Js.await, Js.call, Js.ret.
  - exists []. by rewrite app_nil_r.
  - destruct (every_other_id managed c) as [[|]|e]; simpl.
    + destruct (hasIssue c (number issue)) as [[|]|e]; simpl.
      * by eexists.
      * destruct (IH (tr ++ [HasIssue c (number issue)])) as [evs Hevs].
        exists (HasIssue c (number issue) :: evs).
        rewrite Hevs. by rewrite <- app_assoc.
      * by eexists.
    + apply IH.
    + exists []. by rewrite app_nil_r.
  - apply IH.
Qed.

Lemma demo_handleCard :
  handleCard demo_source issue7 [] = (Ok (Some colBar), [HasIssue colFoo 7; HasIssue colBar 7]).
Proof. reflexivity. Qed.

Lemma demo_handleCard_absent :
  handleCard demo_source issue8 [] = (Ok None, [HasIssue colFoo 8; HasIssue colBar 8]).
Proof. reflexivity. Qed.

Lemma demo_addIssue_new :
  addIssue demo_source issue8 false [] =
  (Ok (Some {| card_id := 80; reportError := λ _ _, Ok tt |}),
   [HasIssue colFoo 8; HasIssue colDone 8; HasIssue colBar 8;
    AddCard issue8 (Some colFoo)]).
Proof. vm_compute. reflexivity. Qed.

Lemma demo_onClosedIssue :
  onClosedIssue demo_source issue7 [] =
  (Ok tt, [HasIssue colFoo 7; HasIssue colBar 7; GetCard colBar 700;
           RemoveCard colBar card7;
           ReportError card7 "Handling closed issue" (Rejection 1)]).
Proof. reflexivity. Qed.

(** C6. [handleCard(issue)] asks only board columns that are not in the
    managed-column set, returns the first such column whose [hasIssue]
    test reports the issue present, and returns null when no unmanaged
    column contains the issue. *)
Theorem handleCard_first_unmanaged_column
    (this : Source) (issue : Issue) (cols : list (string * option Column))
    (managed : list Column) (tr : list Event) :
  columns (_board this) = Ok cols →
  _getManagedColumns this = Ok (map Some managed) →
  forallb (λ c, is_managed managed c || is_ok (hasIssue c (number issue)))
          (board_columns cols) = true →
  ∃ (result : option Column) (scanned : list Column),
    handleCard this issue tr = (Ok result, tr ++ has_issue_calls issue scanned)
    ∧ Forall (λ c, c ∈ board_columns cols ∧ is_managed managed c = false) scanned
    ∧ match result with
      | Some column =>
          ∃ pre post,
            board_columns cols = pre ++ column :: post
            ∧ is_managed managed column = false
            ∧ hasIssue column (number issue) = Ok true
            ∧ forallb (λ c, is_managed managed c
                            || negb (reports_present issue c)) pre = true
      | None =>
          forallb (λ c, is_managed managed c
                        || negb (reports_present issue c))
                  (board_columns cols) = true
      end.
Proof.
  intros Hcols Hmanaged Hok.
  set (p := λ c, negb (is_managed managed c) && reports_present issue c).
  assert (Hp : ∀ l, forallb (λ y, negb (p y)) l = true →
               forallb (λ c, is_managed managed c
                             || negb (reports_present issue c)) l = true).
  { intros l H. rewrite forallb_forall in *. intros c Hc.
    specialize (H c Hc). unfold p in H.
    destruct (is_managed managed c), (reports_present issue c); done. }
  exists (find p (board_columns cols)),
         (asked_unmanaged managed issue (board_columns cols)).
  split; [|split].
  - unfold handleCard, Js.bind, Js.await. rewrite Hcols, Hmanaged.
    apply handleCard_loop_spec. intros c Hc Hm.
    rewrite forallb_forall in Hok. apply list_elem_of_In in Hc.
    specialize (Hok c Hc). by rewrite Hm in Hok.
  - apply asked_unmanaged_sound.
  - destruct (find p (board_columns cols)) as [column|] eqn:Hfind.
    + destruct (find_first p _ _ Hfind) as (pre & post & Hsplit & Hcol & Hpre).
      exists pre, post. unfold p in Hcol.
      apply andb_prop in Hcol as [Hm Hpres].
      apply negb_true_iff in Hm. unfold reports_present in Hpres.
      repeat split; [done|done| |by apply Hp].
      destruct (hasIssue column (number issue)) as [b|e]; [by subst|done].
    + apply Hp. by apply find_none_all.
Qed.

Lemma handleCard_first_unmanaged_column_witness :
  ∃ (result : option Column) (scanned : list Column),
    handleCard demo_source issue7 [] = (Ok result, [] ++ has_issue_calls issue7 scanned)
    ∧ Forall (λ c, c ∈ board_columns demo_columns ∧ is_managed [colDone] c = false) scanned
    ∧ match result with
      | Some column =>
          ∃ pre post,
            board_columns demo_columns = pre ++ column :: post
            ∧ is_managed [colDone] column = false
            ∧ hasIssue column (number issue7) = Ok true
            ∧ forallb (λ c, is_managed [colDone] c
                            || negb (reports_present issue7 c)) pre = true
      | None =>
          forallb (λ c, is_managed [colDone] c
                        || negb (reports_present issue7 c))
                  (board_columns demo_columns) = true
      end.
Proof.
  apply (handleCard_first_unmanaged_column demo_source issue7 demo_columns
           [colDone] []); reflexivity.
Defined.

Lemma find_present_exists issue (cs : list Column) (X : Column) :
  X ∈ cs → hasIssue X (number issue) = Ok true →
  ∃ X', find (reports_present issue) cs = Some X'.
Proof.
  intros Hin HX. destruct (find (reports_present issue) cs) eqn:Hf; [by eexists|].
  apply find_none_all in Hf. rewrite forallb_forall in Hf.
  apply list_elem_of_In in Hin. specialize (Hf X Hin).
  unfold reports_present in Hf. by rewrite HX in Hf.
Qed.

Lemma has_issue_calls_no_add issue cs :
  filter (λ ev, is_add_card ev = true) (has_issue_calls issue cs) = [].
Proof.
  induction cs as [|c cs IH]; [done|]. simpl.
  rewrite filter_cons_False; [exact IH|]. simpl. discriminate.
Qed.

(** C3. [addIssue(issue, isClosed)] with the issue already present in a
    column re-adds it to the (first) column holding it and returns the
    resulting card; with the issue in no column it adds it to the
    configured target column when [isClosed] is false, and adds no card
    when [isClosed] is true. *)
Theorem addIssue_placement
    (this : Source) (issue : Issue) (cols : list (string * option Column))
    (tr : list Event) :
  columns (_board this) = Ok cols →
  forallb (λ c, is_ok (hasIssue c (number issue))) (board_columns cols) = true →
  (∀ (X : Column) (isClosed : bool),
      X ∈ board_columns cols → hasIssue X (number issue) = Ok true →
      ∃ X' scanned,
        X' ∈ board_columns cols
        ∧ hasIssue X' (number issue) = Ok true
        ∧ ((∀ Y, Y ∈ board_columns cols →
                 hasIssue Y (number issue) = Ok true → Y = X) → X' = X)
        ∧ addIssue this issue isClosed tr =
          (returned (addCard (_board this) issue (Some X')),
           tr ++ has_issue_calls issue scanned ++ [AddCard issue (Some X')]))
  ∧ (forallb (λ c, negb (reports_present issue c)) (board_columns cols) = true →
     (∀ ids, ready (_board this) = Ok tt → columnIds (_board this) = Ok ids →
        addIssue this issue false tr =
        (returned (addCard (_board this) issue (target_column this cols ids)),
         tr ++ has_issue_calls issue (board_columns cols)
            ++ [AddCard issue (target_column this cols ids)]))
     ∧ ∃ evs, addIssue this issue true tr = (Ok None, tr ++ evs)
              ∧ filter (λ ev, is_add_card ev = true) evs = []).
Proof.
  intros Hcols Hok.
  assert (Hrun : ∀ isClosed,
             addIssue this issue isClosed tr =
             addIssue_loop this issue isClosed (values cols) tr).
  { intros isClosed. unfold addIssue, Js.bind, Js.await. by rewrite Hcols. }
  split.
  - intros X isClosed HX Hpresent.
    destruct (find_present_exists issue _ X HX Hpresent) as [X' Hfind].
    exists X', (asked issue (board_columns cols)).
    destruct (find_first _ _ _ Hfind) as (pre & post & Hsplit & HX' & _).
    assert (HinX' : X' ∈ board_columns cols).
    { rewrite Hsplit. set_solver. }
    assert (HpX' : hasIssue X' (number issue) = Ok true).
    { unfold reports_present in HX'.
      destruct (hasIssue X' (number issue)) as [b|e]; [by subst|done]. }
    repeat split; [done|done|by intros Huniq; apply Huniq|].
    rewrite Hrun, addIssue_loop_spec by exact Hok. by rewrite Hfind.
  - intros Habsent.
    assert (Hfind : find (reports_present issue) (board_columns cols) = None).
    { destruct (find (reports_present issue) (board_columns cols)) as [X|] eqn:Hf;
        [|done].
      apply find_some in Hf as [Hin HX]. rewrite forallb_forall in Habsent.
      specialize (Habsent X Hin). by rewrite HX in Habsent. }
    split.
    + intros ids Hready Hids.
      rewrite Hrun, addIssue_loop_spec by exact Hok. rewrite Hfind.
      simpl. unfold getColumn, Js.bind, Js.await, Js.call, Js.ret.
      rewrite Hready, Hcols, Hids. fold (target_column this cols ids).
      rewrite <- app_assoc.
      by destruct (addCard (_board this) issue (target_column this cols ids)).
    + exists (has_issue_calls issue (board_columns cols)).
      rewrite Hrun, addIssue_loop_spec by exact Hok. rewrite Hfind.
      split; [reflexivity|apply has_issue_calls_no_add].
Qed.

Lemma addIssue_placement_witness :
  (∃ X' scanned,
      X' ∈ board_columns demo_columns
      ∧ hasIssue X' 7 = Ok true
      ∧ addIssue demo_source issue7 true [] =
        (returned (addCard demo_board issue7 (Some X')),
         has_issue_calls issue7 scanned ++ [AddCard issue7 (Some X')]))
  ∧ addIssue demo_source issue8 false [] =
    (returned (addCard demo_board issue8 (Some colFoo)),
     has_issue_calls issue8 [colFoo; colDone; colBar]
       ++ [AddCard issue8 (Some colFoo)])
  ∧ ∃ evs, addIssue demo_source issue8 true [] = (Ok None, evs)
           ∧ filter (λ ev, is_add_card ev = true) evs = [].
Proof.
  split.
  - destruct (addIssue_placement demo_source issue7 demo_columns []
                eq_refl eq_refl) as [Hpresent _].
    destruct (Hpresent colDone true) as (X' & scanned & Hin & HX' & _ & Hrun);
      [ apply list_elem_of_further, list_elem_of_here | reflexivity | ].
    by exists X', scanned.
  - destruct (addIssue_placement demo_source issue8 demo_columns []
                eq_refl eq_refl) as [_ Habsent].
    destruct (Habsent eq_refl) as [Hopen Hclosed]. split.
    + exact (Hopen {[ "Foo" := "1" ]} eq_refl eq_refl).
    + exact Hclosed.
Defined.

Lemma onClosedIssue_ok this issue tr :
  ∃ evs, onClosedIssue this issue tr = (Ok tt, tr ++ evs).
Proof.
  destruct (handleCard_extends this issue tr) as [evs0 Hevs0].
  unfold onClosedIssue, Js.try_catch, Js.bind, Js.call, Js.ret.
  destruct (handleCard this issue tr) as [[[column|]|e] tr1]; simpl in Hevs0;
    subst tr1.
  - destruct (getCard column (issue_id issue)) as [[card|]|e].
    + destruct (removeCard column card) as [[]|e].
      * rewrite <- ?app_assoc. by eexists.
      * destruct (reportError card "Handling closed issue" e) as [[]|e'];
          rewrite <- ?app_assoc; by eexists.
    + rewrite <- ?app_assoc. by eexists.
    + rewrite <- ?app_assoc. by eexists.
  - by eexists.
  - rewrite <- ?app_assoc. by eexists.
Qed.

Lemma backfillClosed_ok this closedIssues :
  ∀ tr, ∃ evs, backfillClosed this closedIssues tr = (Ok tt, tr ++ evs).
Proof.
  induction closedIssues as [|issue rest IH]; intros tr; simpl.
  - exists []. unfold Js.ret. by rewrite app_nil_r.
  - unfold Js.bind.
    destruct (onClosedIssue_ok this issue tr) as [evs1 ->].
    destruct (IH (tr ++ evs1)) as [evs2 ->].
    exists (evs1 ++ evs2). by rewrite app_assoc.
Qed.

(** C9. Closed-issue handling never throws: whatever the board does,
    [onClosedIssue] completes normally; when the issue is found in an
    unmanaged column and the column yields its card, the removal of that
    card is attempted, and a failing removal is reported on the card;
    an exception of the lookup, of [getCard] or of the report itself is
    caught and logged on the console; and the loop of [backfillIssues]
    over the closed issues always runs to its end. *)
Theorem onClosedIssue_never_throws
    (this : Source) (issue : Issue) (tr : list Event) :
  ∃ evs,
    onClosedIssue this issue tr = (Ok tt, tr ++ evs)
    ∧ (∀ column tr1 card,
          handleCard this issue tr = (Ok (Some column), tr1) →
          getCard column (issue_id issue) = Ok (Some card) →
          RemoveCard column card ∈ evs
          ∧ (∀ e, removeCard column card = Throw e →
                  ReportError card "Handling closed issue" e ∈ evs
                  ∧ (∀ e', reportError card "Handling closed issue" e = Throw e' →
                           last evs = Some (ConsoleError "Handling closed issue"
                                              (issue_id issue) e'))))
    ∧ (∀ e tr1,
          handleCard this issue tr = (Throw e, tr1) →
          last evs = Some (ConsoleError "Handling closed issue"
                             (issue_id issue) e))
    ∧ (∀ column tr1 e,
          handleCard this issue tr = (Ok (Some column), tr1) →
          getCard column (issue_id issue) = Throw e →
          last evs = Some (ConsoleError "Handling closed issue"
                             (issue_id issue) e))
    ∧ (∀ closedIssues tr0, (backfillClosed this closedIssues tr0).1 = Ok tt).
Proof.
  destruct (onClosedIssue_ok this issue tr) as [evs Hrun].
  exists evs. split; [exact Hrun|].
  destruct (handleCard_extends this issue tr) as [evs0 Hevs0].
  unfold onClosedIssue, Js.try_catch, Js.bind, Js.call, Js.ret in Hrun.
  destruct (handleCard this issue tr) as [r tr0] eqn:Hhandle.
  simpl in Hevs0. subst tr0.
  split; [|split; [|split]].
  - intros column tr1 card [= -> <-] Hcard.
    rewrite Hcard in Hrun.
    destruct (removeCard column card) as [[]|e] eqn:Hremove.
    + apply (f_equal snd) in Hrun. simpl in Hrun.
      rewrite <- !app_assoc in Hrun. apply app_inv_head in Hrun. subst evs.
      split; [set_solver|discriminate].
    + destruct (reportError card "Handling closed issue" e) as [[]|e'] eqn:Hrep;
        apply (f_equal snd) in Hrun; simpl in Hrun;
        rewrite <- !app_assoc in Hrun; apply app_inv_head in Hrun; subst evs;
        (split; [set_solver|]); intros e0 [= <-]; rewrite Hrep;
        (split; [set_solver|]); intros e1; [discriminate|].
      intros [= <-]. by rewrite !last_app.
  - intros e tr1 [= -> <-].
    apply (f_equal snd) in Hrun. simpl in Hrun.
    rewrite <- !app_assoc in Hrun. apply app_inv_head in Hrun. subst evs.
    by rewrite last_app.
  - intros column tr1 e [= -> <-] Hcard.
    rewrite Hcard in Hrun.
    apply (f_equal snd) in Hrun. simpl in Hrun.
    rewrite <- !app_assoc in Hrun. apply app_inv_head in Hrun. subst evs.
    by rewrite !last_app.
  - intros closedIssues tr0.
    by destruct (backfillClosed_ok this closedIssues tr0) as [evs' ->].
Qed.

Lemma onClosedIssue_never_throws_witness :
  ∃ evs,
    onClosedIssue demo_source issue7 [] = (Ok tt, evs)
    ∧ RemoveCard colBar card7 ∈ evs
    ∧ ReportError card7 "Handling closed issue" (Rejection 1) ∈ evs
    ∧ (backfillClosed demo_source [issue7; issue8] []).1 = Ok tt.
Proof.
  destruct (onClosedIssue_never_throws demo_source issue7 [])
    as (evs & Hrun & Hfound & _ & _ & Hloop).
  exists evs. split; [exact Hrun|].
  destruct (Hfound colBar _ card7 eq_refl eq_refl) as [Hremove Hreport].
  split; [exact Hremove|]. split; [|apply Hloop].
  exact (proj1 (Hreport (Rejection 1) eq_refl)).
Defined.

(** *** Beyond the handlers one by one *)

Lemma every_other_id_undefined managed c :
  None ∈ managed →
  every_other_id managed c = Ok false
  ∨ every_other_id managed c = Throw TypeError.
Proof.
  induction managed as [|[m|] managed IH]; intros Hin.
  - by apply elem_of_nil in Hin.
  - simpl. destruct (Nat.eqb (col_id m) (col_id c)); [by left|].
    apply IH. apply elem_of_cons in Hin as [Hin|Hin]; [done|exact Hin].
  - by right.
Qed.

Lemma every_other_id_unmanaged managed c :
  None ∈ managed →
  (∀ m, Some m ∈ managed → col_id m ≠ col_id c) →
  every_other_id managed c = Throw TypeError.
Proof.
  induction managed as [|[m|] managed IH]; intros Hin Hids.
  - by apply elem_of_nil in Hin.
  - simpl. destruct (Nat.eqb (col_id m) (col_id c)) eqn:Heq.
    + apply Nat.eqb_eq in Heq. destruct (Hids m); [apply list_elem_of_here|done].
    + apply IH.
      * apply elem_of_cons in Hin as [Hin|Hin]; [done|exact Hin].
      * intros m' Hm'. apply Hids. by apply list_elem_of_further.
  - done.
Qed.

(** With an undefined entry in the managed columns the loop of
    [handleCard] asks no column: it finds nothing or fails. *)
Lemma handleCard_loop_undefined managed issue cols tr :
  None ∈ managed →
  handleCard_loop managed issue cols tr = (Ok None, tr)
  ∨ handleCard_loop managed issue cols tr = (Throw TypeError, tr).
Proof.
  intros Hin. induction cols as [|[c|] cols IH]; simpl.
  - by left.
  - unfold Js.bind, Js.await.
    destruct (every_other_id_undefined managed c Hin) as [-> | ->];
      [exact IH|by right].
  - exact IH.
Qed.

Lemma handleCard_loop_unmanaged managed issue cols c tr :
  None ∈ managed →
  Some c ∈ cols →
  (∀ m, Some m ∈ managed → col_id m ≠ col_id c) →
  handleCard_loop managed issue cols tr = (Throw TypeError, tr).
Proof.
  intros Hin Hc Hids. induction cols as [|[c'|] cols IH]; simpl.
  - by apply elem_of_nil in Hc.
  - unfold Js.bind, Js.await.
    destruct (every_other_id_undefined managed c' Hin) as [Hc'|Hc'];
      rewrite Hc'; [|done].
    apply IH. apply elem_of_cons in Hc as [[= <-]|Hc]; [|exact Hc].
    by rewrite (every_other_id_unmanaged managed c Hin Hids) in Hc'.
  - apply IH. apply elem_of_cons in Hc as [Hc|Hc]; [done|exact Hc].
Qed.

(** What [onClosedIssue] does once the managed columns hold an undefined
    entry: nothing, or one line on the console. *)
Lemma onClosedIssue_undefined_managed this issue cols managed tr :
  columns (_board this) = Ok cols →
  _getManagedColumns this = Ok managed →
  None ∈ managed →
  (onClosedIssue this issue tr = (Ok tt, tr)
   ∨ onClosedIssue this issue tr
     = (Ok tt, tr ++ [ConsoleError "Handling closed issue" (issue_id issue)
                        TypeError]))
  ∧ (∀ c, Some c ∈ values cols →
          (∀ m, Some m ∈ managed → col_id m ≠ col_id c) →
          onClosedIssue this issue tr
          = (Ok tt, tr ++ [ConsoleError "Handling closed issue" (issue_id issue)
                             TypeError])).
Proof.
  intros Hcols Hmanaged Hin.
  unfold onClosedIssue, handleCard, Js.try_catch, Js.bind, Js.await, Js.call,
    Js.ret.
  rewrite Hcols, Hmanaged. split.
  - destruct (handleCard_loop_undefined managed issue (values cols) tr Hin)
      as [-> | ->]; [by left|by right].
  - intros c Hc Hids.
    by rewrite (handleCard_loop_unmanaged managed issue (values cols) c tr
                  Hin Hc Hids).
Qed.

Lemma backfillOpen_app this pre rest tr :
  backfillOpen this (pre ++ rest) tr
  = match backfillOpen this pre tr with
    | (Ok _, tr1) => backfillOpen this rest tr1
    | (Throw e, tr1) => (Throw e, tr1)
    end.
Proof.
  revert tr. induction pre as [|issue pre IH]; intros tr; [done|].
  cbn [app backfillOpen]. unfold Js.bind.
  destruct (addIssue this issue false tr) as [[card|e] tr1]; [apply IH|done].
Qed.

(** X12. Backfilling stops at the first open issue that cannot be added:
    [backfillIssues] fails with the error of that [addIssue], and
    neither the open issues behind it nor any closed issue is handled.
    Once every open issue was added, the closed issues cannot make it
    fail. *)
Theorem backfillIssues_stops_at_failed_add
    (this : Source) (pre : list Issue) (bad : Issue) (rest : list Issue)
    (repo_closedIssues : Result (list Issue)) (e : Error)
    (tr tr1 tr2 : list Event) :
  backfillOpen this pre tr = (Ok tt, tr1) →
  addIssue this bad false tr1 = (Throw e, tr2) →
  backfillIssues this (Ok (pre ++ bad :: rest)) repo_closedIssues tr
  = (Throw e, tr2)
  ∧ ∀ closedIssues, ∃ evs,
      backfillIssues this (Ok pre) (Ok closedIssues) tr = (Ok tt, tr1 ++ evs).
Proof.
  intros Hpre Hbad. unfold backfillIssues, Js.bind, Js.await. split.
  - rewrite backfillOpen_app, Hpre. cbn [backfillOpen]. unfold Js.bind.
    by rewrite Hbad.
  - intros closedIssues. rewrite Hpre.
    apply backfillClosed_ok.
Qed.

Lemma backfillIssues_stops_at_failed_add_witness :
  backfillIssues
    {| _board := {| ready := Ok tt; columns := Ok demo_columns;
                    columnIds := Ok {[ "Foo" := "1" ]};
                    addCard := λ issue c,
                      if Nat.eqb (number issue) 8 then Throw (Rejection 2)
                      else Ok card7 |};
       _config_columns := {[ "target" := "Foo" ]};
       _getManagedColumns := Ok [Some colDone] |}
    (Ok ([issue7] ++ issue8 :: [issue7])) (Ok [issue7]) []
  = (Throw (Rejection 2),
     [HasIssue colFoo 7; HasIssue colDone 7; AddCard issue7 (Some colDone);
      HasIssue colFoo 8; HasIssue colDone 8; HasIssue colBar 8;
      AddCard issue8 (Some colFoo)]).
Proof.
  apply (backfillIssues_stops_at_failed_add _ [issue7] issue8 [issue7]
           (Ok [issue7]) (Rejection 2) []
           [HasIssue colFoo 7; HasIssue colDone 7;
            AddCard issue7 (Some colDone)]).
  - vm_compute. reflexivity.
  - vm_compute. reflexivity.
Defined.

End IssuesSourceSpec.

(** ** Properties of lib/sources/discourse.js *)

Module DiscourseSpec.
Import Discourse.

Lemma getThread_loop_Some title allIssues issue :
  getThread_loop title allIssues = Some issue →
  ∃ pre post,
    allIssues = pre ++ issue :: post
    ∧ issue_title issue = title
    ∧ Forall (λ i, issue_title i ≠ title) pre.
Proof.
  induction allIssues as [|i rest IH]; simpl; [done|].
  destruct (String.eqb (issue_title i) title) eqn:Heq.
  - intros [= <-]. apply String.eqb_eq in Heq. by exists [], rest.
  - intros Hfind. destruct (IH Hfind) as (pre & post & -> & Htitle & Hpre).
    exists (i :: pre), post. split; [done|]. split; [done|].
    constructor; [|done]. by apply String.eqb_neq.
Qed.

Lemma getThread_loop_None title allIssues :
  getThread_loop title allIssues = None ↔
  Forall (λ i, issue_title i ≠ title) allIssues.
Proof.
  induction allIssues as [|i rest IH]; simpl; [done|].
  destruct (String.eqb (issue_title i) title) eqn:Heq.
  - apply String.eqb_eq in Heq. split; [done|]. by intros [? _]%Forall_cons.
  - apply String.eqb_neq in Heq. rewrite Forall_cons. tauto.
Qed.

Lemma getThread_loop_app_l title open closed issue :
  issue ∈ open → issue_title issue = title →
  ∃ found, getThread_loop title (open ++ closed) = Some found ∧ found ∈ open.
Proof.
  intros Hin Htitle. induction open as [|i rest IH]; simpl.
  - by apply elem_of_nil in Hin.
  - destruct (String.eqb (issue_title i) title) eqn:Heq.
    + exists i. split; [done|apply list_elem_of_here].
    + apply elem_of_cons in Hin as [->|Hin].
      * apply String.eqb_neq in Heq. done.
      * destruct (IH Hin) as (found & Hfound & Hopen).
        exists found. split; [done|by apply list_elem_of_further].
Qed.

(** X17. A thread is never filed twice: when an open or a closed issue
    carries the title of the thread, [handleThread] creates no card and
    completes; [getThread] then returns the first such issue, an open
    one if there is any. *)
Theorem handleThread_known_thread
    (this : Source) (thread : Thread) (open closed : list Issue)
    (issue : Issue) (tr : list Event) :
  IssuesSource.ready (_board this) = Ok tt →
  repo_issues this = Ok open →
  repo_closedIssues this = Ok closed →
  issue ∈ open ++ closed →
  has_title this thread issue →
  handleThread this thread tr = (Ok tt, tr)
  ∧ ∃ found pre post,
      getThread this thread tr = (Ok (Some found), tr)
      ∧ open ++ closed = pre ++ found :: post
      ∧ has_title this thread found
      ∧ Forall (λ i, ¬ has_title this thread i) pre
      ∧ ((∃ i, i ∈ open ∧ has_title this thread i) → found ∈ open).
Proof.
  intros Hready Hopen Hclosed Hin Htitle.
  unfold handleThread, getThread, Js.bind, Js.await, Js.ret.
  rewrite Hready, Hopen, Hclosed.
  destruct (getThread_loop (getTitle thread (_config_forum this))
              (open ++ closed)) as [found|] eqn:Hfind.
  - split; [done|].
    destruct (getThread_loop_Some _ _ _ Hfind) as (pre & post & Hsplit & Hf & Hpre).
    exists found, pre, post. split; [done|]. split; [done|].
    split; [done|]. split; [done|].
    intros (i & Hi & Hti).
    destruct (getThread_loop_app_l _ open closed i Hi Hti)
      as (found' & Hfound' & Hopen').
    rewrite Hfind in Hfound'. by injection Hfound' as <-.
  - apply getThread_loop_None in Hfind.
    rewrite Forall_forall in Hfind. by destruct (Hfind issue Hin).
Qed.

(** X18. A new thread: when no issue carries its title, [handleThread]
    of a class without [getEventCardContent], as [DiscourseSource] is
    declared, fails with a TypeError before the target column is looked
    up, and creates no card. A class that declares the method creates
    one card, with the title of the thread, in the configured target
    column. *)
Theorem handleThread_new_thread
    (this : Source) (thread : Thread) (open closed : list Issue)
    (tr : list Event) :
  IssuesSource.ready (_board this) = Ok tt →
  repo_issues this = Ok open →
  repo_closedIssues this = Ok closed →
  Forall (λ i, ¬ has_title this thread i) (open ++ closed) →
  (getEventCardContent (self this) = None →
   handleThread this thread tr = (Throw TypeError, tr))
  ∧ (∀ f cols ids,
        getEventCardContent (self this) = Some f →
        IssuesSource.columns (_board this) = Ok cols →
        IssuesSource.columnIds (_board this) = Ok ids →
        ∃ column,
          handleThread this thread tr
          = (createCard this (getTitle thread (_config_forum this))
               (f thread) column,
             tr ++ [CreateCard (getTitle thread (_config_forum this))
                      (f thread) column])
          ∧ (∀ name id, _config_columns this !! "target" = Some name →
                        ids !! name = Some id →
                        column = mjoin (assoc cols id))).
Proof.
  intros Hready Hopen Hclosed Hnew.
  apply getThread_loop_None in Hnew.
  unfold handleThread, getThread, addThread, getColumn,
    Js.bind, Js.await, Js.ret, Js.throw, Js.call.
  rewrite Hready, Hopen, Hclosed, Hnew. split.
  - by intros ->.
  - intros f cols ids -> Hcols Hids. rewrite Hcols, Hids.
    eexists. split; [reflexivity|].
    intros name i Hname Hid. unfold prop.
    change (default "undefined" (Some "target")) with "target".
    rewrite Hname.
    change (default "undefined" (Some name)) with name. by rewrite Hid.
Qed.

Lemma handleThread_known_thread_witness :
  handleThread (demo_source DiscourseSource []) demo_thread [] = (Ok tt, []).
Proof.
  apply (handleThread_known_thread (demo_source DiscourseSource []) demo_thread
           [] [ {| issue_number := 3; issue_title := "Hello (support)" |} ]
           {| issue_number := 3; issue_title := "Hello (support)" |} []).
  - reflexivity.
  - reflexivity.
  - reflexivity.
  - apply list_elem_of_here.
  - reflexivity.
Defined.

Lemma handleThread_new_thread_witness :
  handleThread
    (demo_source DiscourseSource
       [ {| issue_number := 1; issue_title := "Other (support)" |} ])
    {| title := "Bye"; slug := "/t/bye/2"; excerpt := "" |} []
  = (Throw TypeError, []).
Proof.
  apply (handleThread_new_thread
           (demo_source DiscourseSource
              [ {| issue_number := 1; issue_title := "Other (support)" |} ])
           {| title := "Bye"; slug := "/t/bye/2"; excerpt := "" |}
           [ {| issue_number := 1; issue_title := "Other (support)" |} ]
           [ {| issue_number := 3; issue_title := "Hello (support)" |} ] []).
  - reflexivity.
  - reflexivity.
  - reflexivity.
  - repeat constructor; discriminate.
  - reflexivity.
Defined.

End DiscourseSpec.

(** ** Properties of lib/sources/manager.js *)

Module SourceManagerSpec.
Import SourceManager.

Section Loader.

Variable require : string → option HandlerDeclaration.
Variable env : Environment.

Ltac step := unfold Js.bind, Js.ret, Js.get, Js.modify, Js.throw, Js.await; simpl.

Lemma cache_ok_empty : cache_ok require empty.
Proof. intros t d. simpl. by rewrite lookup_empty. Qed.

Lemma getSourceFactory_resolves m t d :
  cache_ok require m → includes NOT_SOURCES t = false → require t = Some d →
  ∃ m', getSourceFactory require t m = (Ok d, m')
        ∧ cache_ok require m'
        ∧ sources m' = sources m
        ∧ this_managedColumns m' = this_managedColumns m.
Proof.
  intros Hc Hn Hr. unfold getSourceFactory. rewrite Hn. step.
  destruct (sourceFactories m !! t) as [d'|] eqn:Hl.
  - apply Hc in Hl. rewrite Hr in Hl. injection Hl as <-.
    exists m. by step.
  - rewrite Hr. step. exists (set_factory t d m). repeat split.
    intros t' d'. simpl. destruct (decide (t = t')) as [<-|Hne].
    + rewrite lookup_insert_eq. by intros [= <-].
    + rewrite lookup_insert_ne by done. apply Hc.
Qed.

Lemma checkSourceConfig_validates m s d :
  cache_ok require m → includes NOT_SOURCES (type s) = false →
  require (type s) = Some d →
  ∃ m', checkSourceConfig require s m = (validates d s, m')
        ∧ cache_ok require m'
        ∧ sources m' = sources m
        ∧ this_managedColumns m' = this_managedColumns m.
Proof.
  intros Hc Hn Hr.
  destruct (getSourceFactory_resolves m (type s) d Hc Hn Hr)
    as (m' & Hrun & Hc' & Hs & Hm).
  exists m'. unfold checkSourceConfig, validates. step. rewrite Hrun. step.
  by destruct (checkConfigArray (requiredConfig d) (Some (config_object s)))
    as [[|]|e].
Qed.

Lemma add_managedColumns_run roles s o :
  columns s = Some o →
  ∀ m, ∃ m', add_managedColumns roles s m = (Ok tt, m')
             ∧ sourceFactories m' = sourceFactories m
             ∧ sources m' = sources m
             ∧ this_managedColumns m' =
               add_all (map (λ c, o !! c) roles) (this_managedColumns m).
Proof.
  intros Ho. induction roles as [|c roles IH]; intros m; simpl.
  - by exists m.
  - rewrite Ho. step.
    destruct (IH (add_managed (o !! c) m)) as (m' & -> & Hf & Hs & Hm).
    by exists m'.
Qed.

Lemma load_source_accepted m s :
  cache_ok require m → accepts require env s = true →
  ∃ m', load_source require env s m = (Ok tt, m')
        ∧ cache_ok require m'
        ∧ sources m' = sources m ++ [handler_of s]
        ∧ this_managedColumns m' =
          add_all (managed_names require s) (this_managedColumns m).
Proof.
  intros Hc Hacc. unfold accepts in Hacc.
  apply andb_prop in Hacc as [Hn Hacc]. apply negb_true_iff in Hn.
  destruct (require (type s)) as [d|] eqn:Hr; [|done].
  destruct (validates d s) as [[|]|e] eqn:Hv; try done.
  apply andb_prop in Hacc as [Hnew Hacc].
  destruct (constructor d env s) as [[]|e] eqn:Hconstructor; [|done].
  destruct (getSourceFactory_resolves m (type s) d Hc Hn Hr)
    as (m1 & Hrun1 & Hc1 & Hs1 & Hm1).
  destruct (checkSourceConfig_validates m1 s d Hc1 Hn Hr)
    as (m2 & Hrun2 & Hc2 & Hs2 & Hm2).
  unfold load_source. step. rewrite Hrun1, Hrun2, Hv. step.
  rewrite Hconstructor.
  unfold managed_names. rewrite Hr.
  destruct (managedColumns d) as [|c roles] eqn:Hroles; simpl.
  - exists (add_source (handler_of s) m2). repeat split; simpl.
    + done.
    + by rewrite Hs2, Hs1.
    + unfold add_all. destruct (columns s); simpl; congruence.
  - destruct (columns s) as [o|] eqn:Ho; [|done].
    step.
    destruct (add_managedColumns_run roles s o Ho
                (add_managed (o !! c)
                   (add_source {| handler_type := type s;
                                  handler_config := s |} m2)))
      as (m3 & Hrun3 & Hf3 & Hs3 & Hm3).
    rewrite Hrun3.
    exists m3. repeat split.
    + intros t' d'. rewrite Hf3. simpl. apply Hc2.
    + rewrite Hs3. simpl. unfold handler_of. by rewrite Hs2, Hs1.
    + rewrite Hm3. simpl. by rewrite Hm2, Hm1.
Qed.

Lemma load_sources_accepted pre :
  forallb (accepts require env) pre = true →
  ∀ m, cache_ok require m →
    ∃ m', load_sources require env pre m = (Ok tt, m')
          ∧ cache_ok require m'
          ∧ sources m' = sources m ++ map handler_of pre
          ∧ this_managedColumns m' =
            add_all (concat (map (managed_names require) pre))
                    (this_managedColumns m).
Proof.
  induction pre as [|s pre IH]; simpl; intros Hacc m Hc.
  - exists m. repeat split; [done|]. by rewrite app_nil_r.
  - apply andb_prop in Hacc as [Hs Hpre].
    destruct (load_source_accepted m s Hc Hs) as (m1 & Hrun1 & Hc1 & Hs1 & Hm1).
    destruct (IH Hpre m1 Hc1) as (m2 & Hrun2 & Hc2 & Hs2 & Hm2).
    exists m2. step. rewrite Hrun1, Hrun2. repeat split; [done| |].
    + rewrite Hs2, Hs1. by rewrite <- app_assoc.
    + rewrite Hm2, Hm1. unfold add_all. by rewrite foldl_app.
Qed.

Lemma load_sources_app pre rest m m' :
  load_sources require env pre m = (Ok tt, m') →
  load_sources require env (pre ++ rest) m = load_sources require env rest m'.
Proof.
  revert m. induction pre as [|s pre IH]; simpl; intros m.
  - unfold Js.ret. by intros [= <-].
  - unfold Js.bind.
    destruct (load_source require env s m) as [[[]|e] m1]; [apply IH|done].
Qed.

Lemma checkConfigArray_object required (o : JsObject) :
  checkConfigArray required (Some o) = Ok (forallb o required).
Proof. by destruct required. Qed.

Lemma missingConfig_object required (o : JsObject) :
  missingConfig required (Some o) = Ok (List.filter (λ c, negb (o c)) required).
Proof. by destruct required. Qed.

Lemma forallb_no_missing (o : JsObject) required :
  forallb o required = true ↔ List.filter (λ c, negb (o c)) required = [].
Proof.
  induction required as [|c required IH]; simpl; [done|].
  destruct (o c); simpl; [exact IH|]. split; discriminate.
Qed.

Lemma missing_roles_object d s o :
  columns s = Some o →
  ∃ obj : JsObject,
    columns_object s = Some obj
    ∧ missing_roles d s = List.filter (λ c, negb (obj c)) (requiredColumns d).
Proof.
  intros Ho. unfold columns_object, missing_roles. rewrite Ho.
  eexists. split; [done|].
  induction (requiredColumns d) as [|c l IH]; [done|].
  cbn [List.filter]. rewrite IH.
  by destruct (o !! c), (includes OBJECT_PROTOTYPE c).
Qed.

(** What a failed validation leaves of the two checks. *)
Lemma validates_false d s :
  validates d s = Ok false →
  missing_keys d s ≠ []
  ∨ (missing_keys d s = []
     ∧ ∃ o, columns s = Some o ∧ missing_roles d s ≠ []).
Proof.
  unfold validates. rewrite checkConfigArray_object.
  destruct (forallb (config_object s) (requiredConfig d)) eqn:Hk.
  - intros Hcols. right. split; [by apply forallb_no_missing|].
    destruct (columns s) as [o|] eqn:Ho.
    + exists o. split; [done|].
      destruct (missing_roles_object d s o Ho) as (obj & Hobj & Hroles).
      rewrite Hobj, checkConfigArray_object in Hcols. injection Hcols as Hcols.
      rewrite Hroles. intros Hnone. apply forallb_no_missing in Hnone.
      congruence.
    + unfold columns_object in Hcols. rewrite Ho in Hcols.
      unfold checkConfigArray in Hcols.
      by destruct (requiredColumns d).
  - intros _. left. intros Hnone. apply forallb_no_missing in Hnone.
    congruence.
Qed.

Lemma load_source_invalid m s d :
  cache_ok require m → includes NOT_SOURCES (type s) = false →
  require (type s) = Some d → validates d s = Ok false →
  ∃ m', load_source require env s m =
        (Throw (SourceLoadError (validation_message d s) (Some (type s))), m')
        ∧ sources m' = sources m
        ∧ this_managedColumns m' = this_managedColumns m.
Proof.
  intros Hc Hn Hr Hv.
  destruct (getSourceFactory_resolves m (type s) d Hc Hn Hr)
    as (m1 & Hrun1 & Hc1 & Hs1 & Hm1).
  destruct (checkSourceConfig_validates m1 s d Hc1 Hn Hr)
    as (m2 & Hrun2 & Hc2 & Hs2 & Hm2).
  exists m2. split; [|split; congruence].
  unfold load_source. step. rewrite Hrun1, Hrun2, Hv. step.
  rewrite missingConfig_object. fold (missing_keys d s).
  unfold validation_message.
  destruct (validates_false d s Hv) as [Hkeys|(Hkeys & o & Ho & Hroles)].
  - by destruct (missing_keys d s).
  - rewrite Hkeys. simpl.
    destruct (missing_roles_object d s o Ho) as (obj & -> & ->).
    by rewrite missingConfig_object.
Qed.

(** An entry that passes validation but whose handler cannot be
    constructed: [new Source(...)] throws, and nothing is added to
    [this.sources]. *)
Lemma load_source_constructor_throws m s d :
  cache_ok require m → includes NOT_SOURCES (type s) = false →
  require (type s) = Some d → validates d s = Ok true →
  is_ok (constructor d env s) = false →
  ∃ e m', load_source require env s m = (Throw e, m')
          ∧ constructor d env s = Throw e
          ∧ sources m' = sources m
          ∧ this_managedColumns m' = this_managedColumns m.
Proof.
  intros Hc Hn Hr Hv Hnew.
  destruct (getSourceFactory_resolves m (type s) d Hc Hn Hr)
    as (m1 & Hrun1 & Hc1 & Hs1 & Hm1).
  destruct (checkSourceConfig_validates m1 s d Hc1 Hn Hr)
    as (m2 & Hrun2 & Hc2 & Hs2 & Hm2).
  destruct (constructor d env s) as [[]|e] eqn:Hconstructor; [done|].
  exists e, m2. split; [|split; [done|split; congruence]].
  unfold load_source. step. rewrite Hrun1, Hrun2, Hv. step.
  by rewrite Hconstructor.
Qed.

Lemma load_source_rejected m s :
  cache_ok require m → rejects require env s = true →
  ∃ e m', load_source require env s m = (Throw e, m')
          ∧ sources m' = sources m
          ∧ this_managedColumns m' = this_managedColumns m
          ∧ (∀ d, includes NOT_SOURCES (type s) = false →
                  require (type s) = Some d → validates d s = Ok true →
                  constructor d env s = Throw e).
Proof.
  intros Hc Hrej. unfold rejects in Hrej.
  destruct (includes NOT_SOURCES (type s)) eqn:Hn.
  { eexists _, m. unfold load_source, getSourceFactory. rewrite Hn. by step. }
  simpl in Hrej. destruct (require (type s)) as [d|] eqn:Hr.
  - destruct (validates d s) as [[|]|e] eqn:Hv.
    + destruct (load_source_constructor_throws m s d Hc Hn Hr Hv)
        as (e & m' & Hrun & Hthrows & Hs & Hm).
      { by destruct (constructor d env s). }
      exists e, m'. split; [done|]. split; [done|]. split; [done|].
      by intros d' _ [= <-] _.
    + destruct (load_source_invalid m s d Hc Hn Hr Hv) as (m' & Hrun & Hs & Hm).
      eexists _, m'. split; [done|]. split; [done|]. split; [done|].
      intros d' _ [= <-] Hv'. congruence.
    + destruct (getSourceFactory_resolves m (type s) d Hc Hn Hr)
        as (m1 & Hrun1 & Hc1 & Hs1 & Hm1).
      destruct (checkSourceConfig_validates m1 s d Hc1 Hn Hr)
        as (m2 & Hrun2 & Hc2 & Hs2 & Hm2).
      exists e, m2. split; [|split; [congruence|split; [congruence|]]].
      * unfold load_source. step. by rewrite Hrun1, Hrun2, Hv.
      * intros d' _ [= <-] Hv'. congruence.
  - eexists _, m. unfold load_source, getSourceFactory. rewrite Hn. step.
    destruct (sourceFactories m !! type s) as [d|] eqn:Hl.
    + apply Hc in Hl. congruence.
    + rewrite Hr. by step.
Qed.

Lemma new_loads l : new require env (Some l) = load_sources require env l empty.
Proof. by destruct l. Qed.

Lemma set_add_elem x y l : x ∈ set_add y l ↔ x = y ∨ x ∈ l.
Proof.
  unfold set_add. case_bool_decide as Hy.
  - split; [by right|]. by intros [->|].
  - rewrite elem_of_app, list_elem_of_singleton. tauto.
Qed.

Lemma add_all_elem x names l : x ∈ add_all names l ↔ x ∈ names ∨ x ∈ l.
Proof.
  revert l. induction names as [|y names IH]; intros l; simpl.
  - split; [by right|]. intros [H|H]; [by apply elem_of_nil in H|done].
  - unfold add_all in *. simpl. rewrite IH, set_add_elem, elem_of_cons. tauto.
Qed.

Lemma load_sources_stops m bad suf e m' :
  load_source require env bad m = (Throw e, m') →
  load_sources require env (bad :: suf) m = (Throw e, m').
Proof. intros H. simpl. unfold Js.bind. by rewrite H. Qed.

(** C4. An entry that fails validation, reached after entries that
    were all accepted (validated, and their handlers constructed),
    makes the constructor throw a SourceLoadError carrying the type of
    the entry; when required config keys are missing the message lists
    exactly those keys, and the column roles are reported only when no
    required key is missing (so an absent [columns] key is reported as
    a missing config key). *)
Theorem invalid_entry_names_missing_keys
    (pre : list SourceConfig) (s : SourceConfig) (suf : list SourceConfig)
    (d : HandlerDeclaration) :
  forallb (accepts require env) pre = true →
  includes NOT_SOURCES (type s) = false →
  require (type s) = Some d →
  validates d s = Ok false →
  ∃ message m,
    new require env (Some (pre ++ s :: suf))
    = (Throw (SourceLoadError message (Some (type s))), m)
    ∧ (∀ k, k ∈ missing_keys d s
            ↔ k ∈ requiredConfig d ∧ config_object s k = false)
    ∧ (missing_keys d s ≠ [] →
       message = "Missing the following config keys: "
                   +:+ join (missing_keys d s))
    ∧ (missing_keys d s = [] →
       message = "Missing column names: " +:+ join (missing_roles d s)
       ∧ missing_roles d s ≠ []
       ∧ ∃ o, columns s = Some o
              ∧ ∀ r, r ∈ missing_roles d s
                     ↔ r ∈ requiredColumns d ∧ o !! r = None
                       ∧ includes OBJECT_PROTOTYPE r = false)
    ∧ (columns s = None → "columns" ∈ requiredConfig d →
       "columns" ∈ missing_keys d s
       ∧ message = "Missing the following config keys: "
                     +:+ join (missing_keys d s)).
Proof.
  intros Hpre Hn Hr Hv.
  destruct (load_sources_accepted pre Hpre empty cache_ok_empty)
    as (m1 & Hrun1 & Hc1 & _ & _).
  destruct (load_source_invalid m1 s d Hc1 Hn Hr Hv) as (m2 & Hrun2 & _ & _).
  assert (Hkeys : ∀ k, k ∈ missing_keys d s
                       ↔ k ∈ requiredConfig d ∧ config_object s k = false).
  { intros k. unfold missing_keys.
    rewrite !list_elem_of_In, filter_In, negb_true_iff. tauto. }
  exists (validation_message d s), m2.
  split; [|split; [exact Hkeys|split; [|split]]].
  - rewrite new_loads, (load_sources_app pre (s :: suf) empty m1 Hrun1).
    by apply load_sources_stops.
  - unfold validation_message. by destruct (missing_keys d s).
  - intros Hnone. unfold validation_message. rewrite Hnone.
    split; [done|].
    destruct (validates_false d s Hv) as [Hsome|(_ & o & Ho & Hroles)]; [done|].
    split; [done|]. exists o. split; [done|]. intros r.
    unfold missing_roles. rewrite Ho.
    rewrite !list_elem_of_In, filter_In.
    destruct (o !! r), (includes OBJECT_PROTOTYPE r); simpl; intuition congruence.
  - intros Hnocols Hreq.
    assert (Hin : "columns" ∈ missing_keys d s).
    { apply Hkeys. split; [done|]. unfold config_object, own_key. simpl.
      by rewrite Hnocols. }
    split; [done|]. unfold validation_message.
    destruct (missing_keys d s); [by apply elem_of_nil in Hin|done].
Qed.

(** C8. Construction fails fast and is not atomic: the first rejected
    entry (its type is no handler, its configuration does not pass the
    checks, or the constructor of its handler throws) makes the
    constructor throw, whatever follows it, and the handlers
    instantiated from the accepted entries before it, with the column
    names they added to the managed set, stay as they were; the
    rejected entry adds no handler, and when it is the constructor of
    its handler that throws, that error is the one raised. *)
Theorem construction_fails_fast_without_rollback
    (pre : list SourceConfig) (bad : SourceConfig) (suf : list SourceConfig) :
  forallb (accepts require env) pre = true →
  rejects require env bad = true →
  ∃ e m,
    new require env (Some (pre ++ bad :: suf)) = (Throw e, m)
    ∧ (∀ suf', new require env (Some (pre ++ bad :: suf')) = (Throw e, m))
    ∧ sources m = map handler_of pre
    ∧ this_managedColumns m
      = add_all (concat (map (managed_names require) pre)) []
    ∧ (∀ s name, s ∈ pre → name ∈ managed_names require s →
                 name ∈ this_managedColumns m)
    ∧ (∃ m_pre, new require env (Some pre) = (Ok tt, m_pre)
                ∧ sources m_pre = sources m
                ∧ this_managedColumns m_pre = this_managedColumns m)
    ∧ (∀ d, includes NOT_SOURCES (type bad) = false →
            require (type bad) = Some d → validates d bad = Ok true →
            constructor d env bad = Throw e).
Proof.
  intros Hpre Hbad.
  destruct (load_sources_accepted pre Hpre empty cache_ok_empty)
    as (m1 & Hrun1 & Hc1 & Hs1 & Hm1).
  destruct (load_source_rejected m1 bad Hc1 Hbad)
    as (e & m2 & Hrun2 & Hs2 & Hm2 & Hthrows).
  simpl in Hs1, Hm1.
  exists e, m2.
  assert (Hany : ∀ suf', new require env (Some (pre ++ bad :: suf')) = (Throw e, m2)).
  { intros suf'.
    rewrite new_loads, (load_sources_app pre (bad :: suf') empty m1 Hrun1).
    by apply load_sources_stops. }
  split; [apply Hany|]. split; [exact Hany|].
  split; [congruence|]. split; [congruence|]. split.
  - intros s name Hs Hname. rewrite Hm2, Hm1. apply add_all_elem. left.
    apply list_elem_of_In, in_concat. exists (managed_names require s).
    split; [apply in_map|]; by apply list_elem_of_In.
  - split; [|exact Hthrows].
    exists m1. rewrite new_loads. split; [done|]. split; congruence.
Qed.

(** *** The constructor as a whole *)

(** An entry that passes validation but whose managed roles cannot be
    read: the handler is registered, then [s.columns[c]] fails. *)
Lemma load_source_unreadable_roles m s d :
  cache_ok require m → includes NOT_SOURCES (type s) = false →
  require (type s) = Some d → validates d s = Ok true →
  constructor d env s = Ok tt →
  managedColumns d ≠ [] → columns s = None →
  ∃ m', load_source require env s m = (Throw TypeError, m')
        ∧ sources m' = sources m ++ [handler_of s].
Proof.
  intros Hc Hn Hr Hv Hnew Hroles Ho.
  destruct (getSourceFactory_resolves m (type s) d Hc Hn Hr)
    as (m1 & Hrun1 & Hc1 & Hs1 & Hm1).
  destruct (checkSourceConfig_validates m1 s d Hc1 Hn Hr)
    as (m2 & Hrun2 & Hc2 & Hs2 & Hm2).
  unfold load_source. step. rewrite Hrun1, Hrun2, Hv. step. rewrite Hnew.
  destruct (managedColumns d) as [|c roles]; [done|]. simpl. rewrite Ho.
  eexists. split; [done|]. simpl. unfold handler_of. by rewrite Hs2, Hs1.
Qed.

Lemma load_source_not_accepted m s :
  cache_ok require m → accepts require env s = false →
  ∃ e m', load_source require env s m = (Throw e, m').
Proof.
  intros Hc Hacc.
  destruct (rejects require env s) eqn:Hrej.
  { destruct (load_source_rejected m s Hc Hrej) as (e & m' & Hrun & _).
    by exists e, m'. }
  unfold rejects in Hrej. unfold accepts in Hacc.
  destruct (includes NOT_SOURCES (type s)) eqn:Hn; [done|].
  simpl in Hrej, Hacc.
  destruct (require (type s)) as [d|] eqn:Hr; [|done].
  destruct (validates d s) as [[|]|e] eqn:Hv; try done.
  destruct (constructor d env s) as [[]|e] eqn:Hnew; [|done].
  simpl in Hacc.
  destruct (managedColumns d) as [|c roles] eqn:Hroles; [done|].
  destruct (columns s) as [o|] eqn:Ho; [done|].
  destruct (load_source_unreadable_roles m s d Hc Hn Hr Hv Hnew)
    as (m' & Hrun & _); [by rewrite Hroles|done|].
  by exists TypeError, m'.
Qed.

Lemma load_sources_not_accepted l :
  forallb (accepts require env) l = false →
  ∀ m, cache_ok require m → ∃ e m', load_sources require env l m = (Throw e, m').
Proof.
  induction l as [|s l IH]; simpl; [done|]. intros Hacc m Hc.
  destruct (accepts require env s) eqn:Hs.
  - destruct (load_source_accepted m s Hc Hs) as (m1 & Hrun1 & Hc1 & _).
    destruct (IH Hacc m1 Hc1) as (e & m' & Hrun).
    exists e, m'. step. by rewrite Hrun1.
  - destruct (load_source_not_accepted m s Hc Hs) as (e & m' & Hrun).
    exists e, m'. step. by rewrite Hrun.
Qed.

Lemma set_add_NoDup x (l : list (option string)) :
  NoDup l → NoDup (set_add x l).
Proof.
  intros Hl. unfold set_add. case_bool_decide as Hx; [done|].
  apply NoDup_app. split; [done|]. split; [|apply NoDup_singleton].
  intros y Hy Hyx. apply list_elem_of_singleton in Hyx. by subst y.
Qed.

Lemma add_all_NoDup names (l : list (option string)) :
  NoDup l → NoDup (add_all names l).
Proof.
  revert l. induction names as [|x names IH]; intros l Hl; [done|].
  unfold add_all in *. simpl. apply IH. by apply set_add_NoDup.
Qed.

(** X13. The constructor succeeds exactly when every entry of
    [config.sources] is accepted: its type resolves to a handler, its
    configuration passes the checks of the handler, the constructor of
    the handler returns and the managed roles of the handler can be
    read. It then holds one handler per entry, in the order of the
    entries, and the managed column names of all entries, each one
    once. *)
Theorem construction_succeeds_iff_all_accepted (l : list SourceConfig) :
  (forallb (accepts require env) l = true
   ↔ ∃ m, new require env (Some l) = (Ok tt, m))
  ∧ ∀ m, new require env (Some l) = (Ok tt, m) →
      sources m = map handler_of l
      ∧ NoDup (this_managedColumns m)
      ∧ ∀ name, name ∈ this_managedColumns m
                ↔ ∃ s, s ∈ l ∧ name ∈ managed_names require s.
Proof.
  rewrite new_loads.
  destruct (forallb (accepts require env) l) eqn:Hacc.
  - destruct (load_sources_accepted l Hacc empty cache_ok_empty)
      as (m1 & Hrun1 & _ & Hs1 & Hm1).
    split; [split; [by exists m1|done]|].
    intros m Hrun. rewrite Hrun1 in Hrun. injection Hrun as <-.
    split; [exact Hs1|]. rewrite Hm1. split.
    + apply add_all_NoDup. simpl. apply NoDup_nil_2.
    + intros name. rewrite add_all_elem. simpl. split.
      * intros [Hin|Hin]; [|by apply elem_of_nil in Hin].
        apply list_elem_of_In, in_concat in Hin as (names & Hnames & Hin).
        apply in_map_iff in Hnames as (s & <- & Hs).
        exists s. split; by apply list_elem_of_In.
      * intros (s & Hs & Hin). left.
        apply list_elem_of_In, in_concat. exists (managed_names require s).
        split; [apply in_map|]; by apply list_elem_of_In.
  - destruct (load_sources_not_accepted l Hacc empty cache_ok_empty)
      as (e & m' & Hrun).
    rewrite Hrun. split; [split; [done|by intros [m [=]]]|].
    by intros m [=].
Qed.

(** X14. A handler module is loaded once: after [getSourceFactory] has
    returned the constructor of a type, asking again returns the same
    constructor and leaves the manager as it is, whatever [require]
    would load by then; the first call touches the cache entry of that
    type only. *)
Theorem getSourceFactory_loads_once
    (require' : string → option HandlerDeclaration)
    (t : string) (d : HandlerDeclaration) (m m' : Manager) :
  getSourceFactory require t m = (Ok d, m') →
  getSourceFactory require' t m' = (Ok d, m')
  ∧ (∀ t', t' ≠ t → sourceFactories m' !! t' = sourceFactories m !! t')
  ∧ sources m' = sources m
  ∧ this_managedColumns m' = this_managedColumns m.
Proof.
  unfold getSourceFactory.
  destruct (includes NOT_SOURCES t); [by step|]. step.
  destruct (sourceFactories m !! t) as [d0|] eqn:Hl.
  - intros [= -> <-]. by rewrite Hl.
  - destruct (require t) as [d0|]; [|by step]. step.
    intros [= -> <-]. simpl. rewrite lookup_insert_eq. split; [done|].
    split; [|done]. intros t' Hne. by rewrite lookup_insert_ne.
Qed.

(** X15. [checkConfigArray] and [missingConfig] agree: the check answers
    true exactly when no required key is missing, false exactly when
    some key is, and one fails exactly when the other does, with a
    TypeError, for a non-empty list of keys looked for in undefined. *)
Theorem checkConfigArray_agrees_with_missingConfig
    (required : list string) (config : option JsObject) :
  (checkConfigArray required config = Ok true
   ↔ missingConfig required config = Ok [])
  ∧ (checkConfigArray required config = Ok false
     ↔ ∃ k missing, missingConfig required config = Ok (k :: missing))
  ∧ (checkConfigArray required config = Throw TypeError
     ↔ missingConfig required config = Throw TypeError)
  ∧ (checkConfigArray required config = Throw TypeError
     ↔ required ≠ [] ∧ config = None)
  ∧ ∀ missing k, missingConfig required config = Ok missing →
      (k ∈ missing ↔ k ∈ required ∧ ∃ o, config = Some o ∧ o k = false).
Proof.
  destruct config as [o|].
  - rewrite checkConfigArray_object, missingConfig_object.
    pose proof (forallb_no_missing o required) as Hiff.
    split; [|split; [|split; [|split]]].
    + split; intros [= H]; f_equal; by apply Hiff.
    + destruct (forallb o required) eqn:Hall.
      * rewrite (proj1 Hiff eq_refl). split; [done|by intros (? & ? & [=])].
      * destruct (List.filter (λ c, negb (o c)) required) as [|k missing] eqn:Hf.
        -- discriminate (proj2 Hiff eq_refl).
        -- split; [by exists k, missing|done].
    + done.
    + split; [done|by intros [_ [=]]].
    + intros missing k [= <-]. rewrite list_elem_of_In, filter_In, <- list_elem_of_In.
      rewrite negb_true_iff. split.
      * intros [Hk Hok]. split; [done|by exists o].
      * intros [Hk (o' & [= <-] & Hok)]. done.
  - destruct required as [|c required]; simpl.
    + split; [done|]. split; [split; [done|by intros (? & ? & [=])]|].
      split; [done|]. split; [split; [done|by intros [? _]]|].
      intros missing k [= <-]. split; [by intros ?%elem_of_nil|].
      by intros [?%elem_of_nil _].
    + split; [done|]. split; [split; [done|by intros (? & ? & [=])]|].
      split; [done|]. split; [done|]. by intros missing k [=].
Qed.

End Loader.

Lemma demo_missing_target :
  new modules demo_env (Some [issues_ok; issues_no_target])
  = (Throw (SourceLoadError "Missing column names: target" (Some "issues")),
     {| sources := [{| handler_type := "issues"; handler_config := issues_ok |}];
        sourceFactories := {[ "issues" := IssuesSource ]};
        this_managedColumns := [] |}).
Proof. vm_compute. reflexivity. Qed.

Lemma demo_not_a_source :
  (new modules demo_env (Some [{| type := "source"; columns := Some ∅; settings := ∅ |}])).1
  = Throw (SourceLoadError "It is not a source." None).
Proof. reflexivity. Qed.

Lemma demo_unknown_type :
  (new modules demo_env (Some [{| type := "rss"; columns := Some ∅; settings := ∅ |}])).1
  = Throw (ModuleNotFound "./rss").
Proof. reflexivity. Qed.

Lemma demo_getManagedColumns :
  getManagedColumns
    {| sources := []; sourceFactories := ∅;
       this_managedColumns := [Some "Foo"; Some "Gone"; None] |}
    IssuesSource.demo_board
  = Ok [Some IssuesSource.colFoo; None; None].
Proof. reflexivity. Qed.

(** A valid discourse entry whose account the account manager does not
    hold: the constructor of the handler throws, and the entries behind
    it are not loaded. *)
Lemma demo_unknown_account :
  new modules demo_env
    (Some [issues_ok; discourse_for "nobody"; publish_ok])
  = (Throw TypeError,
     {| sources := [{| handler_type := "issues"; handler_config := issues_ok |}];
        sourceFactories :=
          {[ "issues" := IssuesSource; "discourse" := DiscourseSource ]};
        this_managedColumns := [] |}).
Proof. vm_compute. reflexivity. Qed.

Lemma demo_known_account :
  (new modules demo_env
     (Some [issues_ok; discourse_for "forum"; publish_ok])).1 = Ok tt.
Proof. vm_compute. reflexivity. Qed.

(** Without a board the constructor of the issues handler throws. *)
Lemma demo_no_board :
  (new modules {| _board := None; getAccount := λ _ _, Ok None |}
     (Some [issues_ok])).1 = Throw TypeError.
Proof. vm_compute. reflexivity. Qed.

Lemma demo_missing_columns :
  (new modules demo_env (Some [issues_no_columns])).1
  = Throw (SourceLoadError "Missing the following config keys: columns"
             (Some "issues")).
Proof. reflexivity. Qed.

Lemma demo_missing_two_keys :
  (new modules demo_env (Some [discourse_bare])).1
  = Throw (SourceLoadError
             "Missing the following config keys: columns,accountName"
             (Some "discourse")).
Proof. reflexivity. Qed.

Lemma invalid_entry_names_missing_keys_witness :
  ∃ message m,
    new modules demo_env (Some ([issues_ok] ++ issues_no_columns :: [publish_ok]))
    = (Throw (SourceLoadError message (Some "issues")), m)
    ∧ message = "Missing the following config keys: columns".
Proof.
  destruct (invalid_entry_names_missing_keys modules demo_env [issues_ok]
              issues_no_columns [publish_ok] IssuesSource
              eq_refl eq_refl eq_refl eq_refl)
    as (message & m & Hrun & _ & _ & _ & Hcolumns).
  exists message, m. split; [exact Hrun|].
  apply Hcolumns; [reflexivity|]. apply list_elem_of_here.
Defined.

Lemma construction_fails_fast_without_rollback_witness :
  ∃ m,
    new modules demo_env
      (Some ([issues_ok; publish_ok] ++ discourse_for "nobody" :: [issues_ok]))
    = (Throw TypeError, m)
    ∧ sources m = [handler_of issues_ok; handler_of publish_ok]
    ∧ this_managedColumns m = [Some "Tweeted"].
Proof.
  destruct (construction_fails_fast_without_rollback modules demo_env
              [issues_ok; publish_ok] (discourse_for "nobody") [issues_ok]
              eq_refl eq_refl)
    as (e & m & Hrun & _ & Hsources & Hmanaged & _ & _ & Hthrows).
  specialize (Hthrows DiscourseSource eq_refl eq_refl eq_refl).
  vm_compute in Hthrows. injection Hthrows as <-.
  exists m. split; [exact Hrun|]. split; [exact Hsources|].
  rewrite Hmanaged. vm_compute. reflexivity.
Defined.

(** *** The managed columns, as the issues handler sees them *)

Lemma getManagedColumns_columns m board cols ids :
  IssuesSource.columns board = Ok cols →
  IssuesSource.columnIds board = Ok ids →
  getManagedColumns m board
  = Ok (map (column_named cols ids) (this_managedColumns m)).
Proof. intros Hcols Hids. unfold getManagedColumns. by rewrite Hcols, Hids. Qed.

(** X16. One managed column name the board does not hold stops the
    clean-up of closed issues: [getManagedColumns] yields undefined for
    it, so [onClosedIssue] asks no column and removes no card; it does
    nothing at all or logs a TypeError, and it logs the TypeError as
    soon as the board has a column that no managed name stands for. *)
Theorem unknown_managed_column_stops_cleanup
    (m : Manager) (this : IssuesSource.Source) (issue : IssuesSource.Issue)
    (cols : list (string * option IssuesSource.Column))
    (ids : gmap string string) (name : option string)
    (tr : list IssuesSource.Event) :
  IssuesSource.columns (IssuesSource._board this) = Ok cols →
  IssuesSource.columnIds (IssuesSource._board this) = Ok ids →
  IssuesSource._getManagedColumns this
  = getManagedColumns m (IssuesSource._board this) →
  name ∈ this_managedColumns m →
  column_named cols ids name = None →
  (IssuesSource.onClosedIssue this issue tr = (Ok tt, tr)
   ∨ IssuesSource.onClosedIssue this issue tr
     = (Ok tt, tr ++ [IssuesSource.ConsoleError "Handling closed issue"
                        (IssuesSource.issue_id issue) TypeError]))
  ∧ (∀ c, c ∈ IssuesSource.board_columns cols →
          (∀ name' c', name' ∈ this_managedColumns m →
                       column_named cols ids name' = Some c' →
                       IssuesSource.col_id c' ≠ IssuesSource.col_id c) →
          IssuesSource.onClosedIssue this issue tr
          = (Ok tt, tr ++ [IssuesSource.ConsoleError "Handling closed issue"
                             (IssuesSource.issue_id issue) TypeError])).
Proof.
  intros Hcols Hids Hmanaged Hname Hnone.
  rewrite (getManagedColumns_columns m _ cols ids Hcols Hids) in Hmanaged.
  assert (Hin : None ∈ map (column_named cols ids) (this_managedColumns m)).
  { rewrite <- Hnone. by apply list_elem_of_fmap_2. }
  destruct (IssuesSourceSpec.onClosedIssue_undefined_managed this issue cols _ tr
              Hcols Hmanaged Hin) as [Hnothing Hlogs].
  split; [exact Hnothing|].
  intros c Hc Hids'. apply (Hlogs c).
  - unfold IssuesSource.board_columns in Hc.
    apply list_elem_of_omap in Hc as (oc & Hoc & Heq). by subst oc.
  - intros c' Hc'. apply list_elem_of_fmap in Hc' as (name' & Hname' & Hin').
    by apply (Hids' name' c').
Qed.

Lemma unknown_managed_column_stops_cleanup_witness :
  IssuesSource.onClosedIssue
    {| IssuesSource._board := IssuesSource.demo_board;
       IssuesSource._config_columns := {[ "target" := "Foo" ]};
       IssuesSource._getManagedColumns :=
         getManagedColumns
           {| sources := []; sourceFactories := ∅;
              this_managedColumns := [Some "Gone"] |}
           IssuesSource.demo_board |}
    IssuesSource.issue7 []
  = (Ok tt, [] ++ [IssuesSource.ConsoleError "Handling closed issue" 700
                     TypeError]).
Proof.
  destruct (unknown_managed_column_stops_cleanup
              {| sources := []; sourceFactories := ∅;
                 this_managedColumns := [Some "Gone"] |}
              {| IssuesSource._board := IssuesSource.demo_board;
                 IssuesSource._config_columns := {[ "target" := "Foo" ]};
                 IssuesSource._getManagedColumns :=
                   getManagedColumns
                     {| sources := []; sourceFactories := ∅;
                        this_managedColumns := [Some "Gone"] |}
                     IssuesSource.demo_board |}
              IssuesSource.issue7 IssuesSource.demo_columns
              {[ "Foo" := "1" ]} (Some "Gone") []
              eq_refl eq_refl eq_refl)
    as [_ Hlogs].
  - apply list_elem_of_here.
  - reflexivity.
  - apply (Hlogs IssuesSource.colFoo).
    + apply list_elem_of_here.
    + intros name' c' Hname'. apply list_elem_of_singleton in Hname' as ->.
      discriminate.
Defined.

Lemma getSourceFactory_loads_once_witness :
  getSourceFactory (λ _, None) "issues" (set_factory "issues" IssuesSource empty)
  = (Ok IssuesSource, set_factory "issues" IssuesSource empty).
Proof.
  apply (getSourceFactory_loads_once modules (λ _, None) "issues" IssuesSource
           empty (set_factory "issues" IssuesSource empty)).
  reflexivity.
Defined.

End SourceManagerSpec.

(** ** Properties of lib/accounts/twitter.js *)

Module TwitterAccountSpec.
Import TwitterAccount.

Lemma demo_one_image :
  getMediaAndContent tweet_one_image
  = Ok (str "Look  at this", [str "https://example.com/cat.png"]).
Proof. vm_compute. reflexivity. Qed.

Lemma demo_five_images :
  getMediaAndContent tweet_five_images
  = Throw (JsError "Can not upload more than 4 images per tweet").
Proof. vm_compute. reflexivity. Qed.

Lemma demo_no_image :
  getMediaAndContent tweet_no_image
  = Ok (str "nothing ![here]() or ![there](x", []).
Proof. vm_compute. reflexivity. Qed.

Lemma skip_alt_spec s rest :
  skip_alt s = Some rest ↔ ∃ alt, s = alt ++ RBRACKET :: rest ∧ RBRACKET ∉ alt.
Proof.
  split.
  - revert rest. induction s as [|c s IH]; simpl; intros rest; [done|].
    destruct (N.eqb_spec c RBRACKET) as [->|Hc].
    + intros [= ->]. exists []. split; [done|]. apply not_elem_of_nil.
    + intros H. destruct (IH _ H) as (alt & -> & Halt).
      exists (c :: alt). split; [done|]. rewrite not_elem_of_cons. by split.
  - intros (alt & -> & Halt). induction alt as [|c alt IH]; simpl.
    + done.
    + apply not_elem_of_cons in Halt as [Hc Halt].
      destruct (N.eqb_spec c RBRACKET) as [->|_]; [done|]. by apply IH.
Qed.

Lemma take_url_spec s url after :
  take_url s = Some (url, after) ↔ s = url ++ RPAREN :: after ∧ RPAREN ∉ url.
Proof.
  split.
  - revert url. induction s as [|c s IH]; simpl; intros url; [done|].
    destruct (N.eqb_spec c RPAREN) as [->|Hc].
    + intros [= <- <-]. split; [done|]. apply not_elem_of_nil.
    + destruct (take_url s) as [[url' after']|]; [|done].
      intros [= <- <-]. destruct (IH url' eq_refl) as [-> Hurl].
      split; [done|]. rewrite not_elem_of_cons. by split.
  - intros [-> Hurl]. induction url as [|c url IH]; simpl.
    + done.
    + apply not_elem_of_cons in Hurl as [Hc Hurl].
      destruct (N.eqb_spec c RPAREN) as [->|_]; [done|]. by rewrite IH.
Qed.

Lemma image_app alt url after :
  image alt url ++ after
  = BANG :: LBRACKET :: (alt ++ RBRACKET :: LPAREN :: (url ++ RPAREN :: after)).
Proof.
  unfold image. simpl. rewrite <- app_assoc. simpl. by rewrite <- app_assoc.
Qed.

Lemma match_image_spec s url after :
  match_image s = Some (url, after)
  ↔ ∃ alt, s = image alt url ++ after ∧ is_image alt url.
Proof.
  split.
  - unfold match_image. destruct s as [|c0 [|c1 s1]]; try done.
    destruct (N.eqb_spec c0 BANG) as [->|]; [|done].
    destruct (N.eqb_spec c1 LBRACKET) as [->|]; [|done]. simpl.
    destruct (skip_alt s1) as [[|c2 s2]|] eqn:Halt; try done.
    destruct (N.eqb_spec c2 LPAREN) as [->|]; [|done].
    destruct (take_url s2) as [[[|u url'] after']|] eqn:Hurl; try done.
    intros [= <- <-].
    apply skip_alt_spec in Halt as (alt & -> & Halt).
    apply take_url_spec in Hurl as [-> Hurl].
    exists alt. split; [|done]. symmetry. apply image_app.
  - intros (alt & -> & Halt & Hne & Hurl). rewrite image_app.
    unfold match_image. simpl.
    assert (Hskip : skip_alt (alt ++ RBRACKET :: LPAREN :: (url ++ RPAREN :: after))
                    = Some (LPAREN :: (url ++ RPAREN :: after))).
    { apply skip_alt_spec. by exists alt. }
    rewrite Hskip. simpl.
    assert (Htake : take_url (url ++ RPAREN :: after) = Some (url, after)).
    { by apply take_url_spec. }
    rewrite Htake. by destruct url.
Qed.

Lemma match_image_none s :
  match_image s = None ↔ ¬ starts_with_image s.
Proof.
  split.
  - intros Hnone (alt & url & after & Hs & Himg).
    assert (match_image s = Some (url, after)) by (apply match_image_spec; eauto).
    congruence.
  - intros Hno. destruct (match_image s) as [[url after]|] eqn:Hm; [|done].
    apply match_image_spec in Hm as (alt & Hs & Himg).
    exfalso. apply Hno. by exists alt, url, after.
Qed.

Lemma match_image_shorter s url after :
  match_image s = Some (url, after) → (length after < length s)%nat.
Proof.
  intros (alt & -> & _)%match_image_spec.
  rewrite image_app. simpl. rewrite !length_app. simpl. rewrite length_app. simpl. lia.
Qed.

#[local] Arguments match_image : simpl never.

Lemma replace_images_references fuel :
  ∀ s, (length s ≤ fuel)%nat →
       References s (replace_images fuel s).1 (replace_images fuel s).2.
Proof.
  induction fuel as [|fuel IH]; intros [|c rest] Hlen; simpl in *.
  - apply references_end.
  - lia.
  - apply references_end.
  - idtac.
    destruct (match_image (c :: rest)) as [[url after]|] eqn:Hm.
    + pose proof (match_image_shorter _ _ _ Hm) as Hshort. simpl in Hshort.
      specialize (IH after ltac:(lia)).
      destruct (replace_images fuel after) as [pure media]. simpl in *.
      apply match_image_spec in Hm as (alt & Hs & Himg). rewrite Hs.
      by apply references_image.
    + specialize (IH rest ltac:(lia)).
      destruct (replace_images fuel rest) as [pure media]. simpl in *.
      apply references_text; [|done]. by apply match_image_none.
Qed.

Lemma image_starts alt url after :
  is_image alt url → starts_with_image (image alt url ++ after).
Proof. intros Himg. by exists alt, url, after. Qed.

Lemma References_unique s pure media :
  References s pure media →
  ∀ pure' media', References s pure' media' → pure' = pure ∧ media' = media.
Proof.
  induction 1 as [|alt url after pure media Himg Hrest IH
                  |c rest pure media Hno Hrest IH];
    intros pure' media' H'.
  - remember [] as s eqn:Hs in H'.
    destruct H' as [|alt' url' after' p' m' Himg' Hrest'
                    |c' rest' p' m' Hno' Hrest']; [done| |done].
    rewrite image_app in Hs. discriminate.
  - assert (Hm : match_image (image alt url ++ after) = Some (url, after))
      by (apply match_image_spec; eauto).
    remember (image alt url ++ after) as s eqn:Hs in H'.
    destruct H' as [|alt' url' after' p' m' Himg' Hrest'
                    |c' rest' p' m' Hno' Hrest'].
    + rewrite image_app in Hs. discriminate.
    + assert (Hm' : match_image (image alt' url' ++ after') = Some (url', after'))
        by (apply match_image_spec; eauto).
      rewrite Hs, Hm in Hm'. injection Hm' as <- <-.
      by destruct (IH _ _ Hrest') as [-> ->].
    + exfalso. apply Hno'. rewrite Hs. by apply image_starts.
  - remember (c :: rest) as s eqn:Hs in H'.
    destruct H' as [|alt' url' after' p' m' Himg' Hrest'
                    |c' rest' p' m' Hno' Hrest'].
    + discriminate.
    + exfalso. apply Hno. rewrite <- Hs. by apply image_starts.
    + injection Hs as -> ->. by destruct (IH _ _ Hrest') as [-> ->].
Qed.

Lemma search_contains s : search s = true ↔ contains_image s.
Proof.
  split.
  - induction s as [|c rest IH]; simpl; [done|].
    destruct (match_image (c :: rest)) as [[url after]|] eqn:Hm.
    + intros _. exists [], (c :: rest). split; [done|].
      apply match_image_spec in Hm as (alt & Hs & Himg).
      by exists alt, url, after.
    + intros Hrest. destruct (IH Hrest) as (pre & post & -> & Hpost).
      by exists (c :: pre), post.
  - intros (pre & post & -> & Hpost).
    induction pre as [|c pre IH]; simpl.
    + destruct post as [|c rest].
      * destruct Hpost as (alt & url & after & Hs & _).
        rewrite image_app in Hs. discriminate.
      * simpl. destruct (match_image (c :: rest)) eqn:Hm; [done|].
        by apply match_image_none in Hm.
    + by destruct (match_image (c :: pre ++ post)).
Qed.

Lemma search_false_replace s :
  search s = false → ∀ fuel, replace_images fuel s = (s, []).
Proof.
  induction s as [|c rest IH]; simpl; intros Hs fuel.
  - by destruct fuel.
  - destruct (match_image (c :: rest)) eqn:Hm; [done|].
    destruct fuel as [|fuel]; simpl; [done|].
    by rewrite Hm, (IH Hs fuel).
Qed.

Lemma References_no_media s pure media :
  References s pure media → media = [] → search s = false.
Proof.
  induction 1 as [|alt url after pure media Himg Hrest IH
                  |c rest pure media Hno Hrest IH]; intros Hmedia.
  - done.
  - discriminate.
  - simpl. apply match_image_none in Hno. rewrite Hno. by apply IH.
Qed.

(** C10. [getMediaAndContent] throws exactly when the tweet holds more
    than four image references; otherwise it returns the tweet without
    its image references, trimmed, with their targets in order of
    appearance; a tweet without image reference comes back trimmed with
    an empty media list. *)
Theorem getMediaAndContent_image_limit (tweet : list CodeUnit) :
  ∃ pure media,
    References tweet pure media
    ∧ (∀ pure' media', References tweet pure' media' →
                       pure' = pure ∧ media' = media)
    ∧ ((∃ e, getMediaAndContent tweet = Throw e) ↔ (4 < length media)%nat)
    ∧ ((4 < length media)%nat →
       getMediaAndContent tweet
       = Throw (JsError "Can not upload more than 4 images per tweet"))
    ∧ ((length media ≤ 4)%nat →
       getMediaAndContent tweet = Ok (trim pure, media))
    ∧ (contains_image tweet ↔ media ≠ [])
    ∧ (media = [] → getMediaAndContent tweet = Ok (trim tweet, [])).
Proof.
  pose proof (replace_images_references (length tweet) tweet (le_n _)) as Href.
  destruct (replace_images (length tweet) tweet) as [pure media] eqn:Hrun.
  simpl in Href. exists pure, media.
  assert (Hget : getMediaAndContent tweet
                 = if Nat.ltb 4 (length media)
                   then Throw (JsError "Can not upload more than 4 images per tweet")
                   else Ok (trim pure, media)).
  { unfold getMediaAndContent. destruct (search tweet) eqn:Hsearch.
    - by rewrite Hrun.
    - rewrite (search_false_replace tweet Hsearch) in Hrun.
      by injection Hrun as <- <-. }
  assert (Hany : contains_image tweet ↔ media ≠ []).
  { rewrite <- search_contains. destruct (search tweet) eqn:Hsearch.
    - split; [intros _|done]. intros Hmedia.
      pose proof (References_no_media _ _ _ Href Hmedia). congruence.
    - rewrite (search_false_replace tweet Hsearch) in Hrun.
      injection Hrun as <- <-. split; done. }
  split; [exact Href|]. split; [by apply References_unique|].
  rewrite Hget. destruct (Nat.ltb_spec 4 (length media)) as [Hmany|Hfew].
  - split; [split; [done|by eexists]|]. split; [done|]. split; [lia|].
    split; [exact Hany|]. intros Hmedia. rewrite Hmedia in Hmany.
    simpl in Hmany. lia.
  - split; [split; [by intros [e He]|lia]|]. split; [lia|]. split; [done|].
    split; [exact Hany|]. intros Hmedia.
    pose proof (References_no_media _ _ _ Href Hmedia) as Hsearch.
    rewrite (search_false_replace tweet Hsearch) in Hrun. congruence.
Qed.

Lemma getMediaAndContent_image_limit_witness :
  ∃ pure media,
    References tweet_five_images pure media
    ∧ length media = 5
    ∧ getMediaAndContent tweet_five_images
      = Throw (JsError "Can not upload more than 4 images per tweet").
Proof.
  destruct (getMediaAndContent_image_limit tweet_five_images)
    as (pure & media & Href & Huniq & _ & Hmany & _).
  pose proof (replace_images_references (length tweet_five_images)
                tweet_five_images (le_n _)) as Hrun.
  destruct (Huniq _ _ Hrun) as [_ Hmedia].
  assert (Hlen : length media = 5) by (by rewrite <- Hmedia).
  exists pure, media. split; [exact Href|]. split; [exact Hlen|].
  apply Hmany. rewrite Hlen. lia.
Defined.

Lemma demo_tweet_id :
  getTweetIDFromURL (str "https://twitter.com/mozilla/status/1234/") = Some (str "1234")
  ∧ getUserFromURL (str "http://www.twitter.com/mozilla/status/1234") = Some (str "mozilla")
  ∧ getTweetIDFromURL (str "https://twitter.com/mozilla/status/12a") = None
  ∧ getTweetIDFromURL (str "see https://twitter.com/mozilla/status/12") = None
  ∧ getTweetIDFromURL (str "https://twitterxcom/mozilla/status/12") = Some (str "12")
  ∧ exec IMAGE_RE (str "a ![x](y) b") = Some (str " b", Some (str "y")).
Proof. vm_compute. repeat split. Qed.

(** *** The regular expressions *)

Lemma matches_lit l n s cap k :
  matches (lit l) n s cap k
  = match strip_prefix l s with
    | Some rest => k rest cap
    | None => None
    end.
Proof.
  revert s. induction l as [|c l IH]; intros s; [done|].
  destruct s as [|c' s]; [done|].
  cbn [lit foldr matches strip_prefix]. destruct (N.eqb c c'); [|done].
  apply IH.
Qed.

Lemma star_greedy p s cap (k : Cont) :
  (∀ c rest, p c = true → k (c :: rest) cap = None) →
  star p s cap k = k (after_run p s) cap.
Proof.
  intros Hk. induction s as [|c s IH]; simpl; [done|].
  destruct (p c) eqn:Hp; [|done].
  rewrite IH. destruct (k (after_run p s) cap); [done|]. by apply Hk.
Qed.

Lemma matches_plus p n s cap (k : Cont) :
  (∀ c rest, p c = true → k (c :: rest) cap = None) →
  matches (Plus p) n s cap k
  = match run_of p s with
    | [] => None
    | _ :: _ => k (after_run p s) cap
    end.
Proof.
  intros Hk. destruct s as [|c s]; simpl; [done|].
  destruct (p c); [|done]. by apply star_greedy.
Qed.

Lemma run_of_after_run p s : run_of p s ++ after_run p s = s.
Proof.
  induction s as [|c s IH]; simpl; [done|].
  destruct (p c); simpl; [by rewrite IH|done].
Qed.

Lemma take_run_of p s :
  take (length s - length (after_run p s)) s = run_of p s.
Proof.
  rewrite <- (run_of_after_run p s) at 1 3.
  rewrite length_app, Nat.add_sub. by rewrite take_app_length.
Qed.

Lemma star_group p s0 s cap (k : Cont) :
  (∀ c rest cap', p c = true → k (c :: rest) cap' = None) →
  star p s cap (λ s' _, k s' (Some (take (length s0 - length s') s0)))
  = k (after_run p s) (Some (take (length s0 - length (after_run p s)) s0)).
Proof.
  intros Hk. induction s as [|c s IH]; simpl; [done|].
  destruct (p c) eqn:Hp; [|done].
  rewrite IH.
  destruct (k (after_run p s)
              (Some (take (length s0 - length (after_run p s)) s0))); [done|].
  by apply Hk.
Qed.

Lemma matches_group_plus p n s cap (k : Cont) :
  (∀ c rest cap', p c = true → k (c :: rest) cap' = None) →
  matches (Group (Plus p)) n s cap k
  = match run_of p s with
    | [] => None
    | _ :: _ => k (after_run p s) (Some (run_of p s))
    end.
Proof.
  intros Hk. cbn [matches]. destruct s as [|c s]; [done|].
  cbn [run_of after_run]. destruct (p c) eqn:Hp; [|done].
  rewrite (star_group p (c :: s) s cap k Hk).
  pose proof (take_run_of p (c :: s)) as Htake. simpl in Htake.
  rewrite Hp in Htake. simpl. by rewrite Htake.
Qed.

Lemma strip_prefix_app l s : strip_prefix l (l ++ s) = Some s.
Proof. induction l as [|c l IH]; simpl; [done|]. by rewrite N.eqb_refl. Qed.

Lemma strip_prefix_Some l s rest : strip_prefix l s = Some rest → s = l ++ rest.
Proof.
  revert s. induction l as [|c l IH]; intros [|c' s]; simpl; try done.
  - by intros [= ->].
  - by intros [= ->].
  - destruct (N.eqb_spec c c') as [->|]; [|done]. intros H. by rewrite (IH _ H).
Qed.

Lemma strip_prefix_clash c1 l1 c2 l2 s rest :
  c1 ≠ c2 → strip_prefix (c1 :: l1) s = Some rest →
  strip_prefix (c2 :: l2) s = None.
Proof.
  intros Hne. destruct s as [|c s]; cbn [strip_prefix]; [done|].
  destruct (N.eqb_spec c1 c) as [<-|]; [|done]. intros _.
  by destruct (N.eqb_spec c2 c1) as [->|].
Qed.

Lemma matches_chr p n c rest cap k :
  matches (Chr p) n (c :: rest) cap k = if p c then k rest cap else None.
Proof. reflexivity. Qed.

Lemma matches_seq r1 r2 n s cap k :
  matches (Seq r1 r2) n s cap k
  = matches r1 n s cap (λ s' cap', matches r2 n s' cap' k).
Proof. reflexivity. Qed.

Lemma matches_opt_lit l n s cap (k : Cont) :
  (∀ rest, strip_prefix l s = Some rest → k s cap = None) →
  matches (Opt (lit l)) n s cap k = k (default s (strip_prefix l s)) cap.
Proof.
  intros Hk. cbn [matches]. rewrite matches_lit.
  destruct (strip_prefix l s) as [rest|] eqn:Hl; simpl; [|done].
  destruct (k rest cap); [done|]. by apply (Hk rest).
Qed.

(** The scheme and the host, whatever follows them. *)
Lemma matches_host (R : Regex) n url (k : Cont) :
  matches
    (Seq (lit (str "http"))
      (Seq (Opt (lit (str "s")))
        (Seq (lit (str "://"))
          (Seq (Opt (lit (str "www.")))
            (Seq (lit (str "twitter"))
              (Seq (Chr dot) (Seq (lit (str "com/")) R)))))))
    n url None k
  = match strip_host url with
    | Some path => matches R n path None k
    | None => None
    end.
Proof.
  unfold strip_host. rewrite matches_seq, matches_lit.
  destruct (strip_prefix (str "http") url) as [s0|]; [|done].
  rewrite matches_seq, matches_opt_lit.
  2:{ intros rest Hs. rewrite matches_seq, matches_lit.
      assert (H : strip_prefix (str "://") s0 = None)
        by exact (strip_prefix_clash 115%N [] 58%N (str "//") s0 rest
                    ltac:(done) Hs).
      by rewrite H. }
  rewrite matches_seq, matches_lit.
  destruct (strip_prefix (str "://") (default s0 (strip_prefix (str "s") s0)))
    as [s2|]; [|done].
  rewrite matches_seq, matches_opt_lit.
  2:{ intros rest Hs. rewrite matches_seq, matches_lit.
      assert (H : strip_prefix (str "twitter") s2 = None)
        by exact (strip_prefix_clash 119%N (str "ww.") 116%N (str "witter")
                    s2 rest ltac:(done) Hs).
      by rewrite H. }
  rewrite matches_seq, matches_lit.
  destruct (strip_prefix (str "twitter")
              (default s2 (strip_prefix (str "www.") s2))) as [[|c s5]|];
    [done| |done].
  rewrite matches_seq, matches_chr.
  destruct (dot c); [|done]. by rewrite matches_seq, matches_lit.
Qed.

Lemma not_slash_no_status c rest :
  not_slash c = true → strip_prefix (str "/status/") (c :: rest) = None.
Proof.
  unfold not_slash, SLASH. intros Hc.
  change (str "/status/") with (47%N :: str "status/"). cbn [strip_prefix].
  rewrite N.eqb_sym. by destruct (N.eqb c 47).
Qed.

Lemma digit_not_slash c : digit c = true → N.eqb c SLASH = false.
Proof.
  unfold digit, SLASH. intros [H1 H2]%andb_prop.
  apply N.leb_le in H1. apply N.eqb_neq. lia.
Qed.

(** The end of both expressions: an optional slash, then the end of the
    input. *)
Lemma matches_end n s cap :
  matches (Seq (Opt (lit (str "/"))) Eol) n s cap (λ rest cap', Some (rest, cap'))
  = match s with
    | [] => Some ([], cap)
    | [c] => if N.eqb c SLASH then Some ([], cap) else None
    | _ => None
    end.
Proof.
  rewrite matches_seq. cbn [matches]. rewrite matches_lit.
  change (str "/") with [SLASH].
  destruct s as [|c [|c' s]]; cbn [strip_prefix]; [done| |].
  - rewrite (N.eqb_sym SLASH c). by destruct (N.eqb c SLASH).
  - by destruct (N.eqb SLASH c).
Qed.

Lemma matches_end_digit n c rest cap :
  digit c = true →
  matches (Seq (Opt (lit (str "/"))) Eol) n (c :: rest) cap
    (λ rest cap', Some (rest, cap')) = None.
Proof.
  intros Hc. rewrite matches_end. apply digit_not_slash in Hc.
  destruct rest; [by rewrite Hc|done].
Qed.

Lemma matches_bol n s cap k :
  matches Bol n s cap k = if Nat.eqb (length s) n then k s cap else None.
Proof. reflexivity. Qed.

Lemma match_at_tweet_id url :
  match_at TWEET_ID_RE (length url) url
  = match parse_tweet_url url with
    | Some (user, id) => Some ([], Some id)
    | None => None
    end.
Proof.
  unfold match_at, TWEET_ID_RE.
  rewrite matches_seq, matches_bol, Nat.eqb_refl.
  rewrite matches_host. unfold parse_tweet_url.
  destruct (strip_host url) as [path|]; [|done].
  unfold parse_path. rewrite matches_seq, matches_plus.
  2:{ intros c rest Hc. rewrite matches_seq, matches_lit.
      by rewrite not_slash_no_status. }
  destruct (run_of not_slash path) as [|u user]; [done|].
  rewrite matches_seq, matches_lit.
  destruct (strip_prefix (str "/status/") (after_run not_slash path))
    as [s8|]; [|done].
  rewrite matches_seq, matches_group_plus.
  2:{ intros c rest cap' Hc. by apply matches_end_digit. }
  destruct (run_of digit s8) as [|d id]; [done|].
  rewrite matches_end.
  destruct (after_run digit s8) as [|c9 [|c10 s10]]; [done| |done].
  by destruct (N.eqb c9 SLASH).
Qed.

Lemma match_at_tweet_user url :
  match_at TWEET_USER_RE (length url) url
  = match parse_tweet_url url with
    | Some (user, id) => Some ([], Some user)
    | None => None
    end.
Proof.
  unfold match_at, TWEET_USER_RE.
  rewrite matches_seq, matches_bol, Nat.eqb_refl.
  rewrite matches_host. unfold parse_tweet_url.
  destruct (strip_host url) as [path|]; [|done].
  unfold parse_path. rewrite matches_seq, matches_group_plus.
  2:{ intros c rest cap' Hc. rewrite matches_seq, matches_lit.
      by rewrite not_slash_no_status. }
  destruct (run_of not_slash path) as [|u user]; [done|].
  rewrite matches_seq, matches_lit.
  destruct (strip_prefix (str "/status/") (after_run not_slash path))
    as [s8|]; [|done].
  rewrite matches_seq, matches_plus.
  2:{ intros c rest Hc. by apply matches_end_digit. }
  destruct (run_of digit s8) as [|d id]; [done|].
  rewrite matches_end.
  destruct (after_run digit s8) as [|c9 [|c10 s10]]; [done| |done].
  by destruct (N.eqb c9 SLASH).
Qed.

Lemma exec_from_anchored r n s :
  (length s < n)%nat → exec_from (Seq Bol r) n s = None.
Proof.
  induction s as [|c s IH]; intros Hlen; cbn [exec_from]; unfold match_at;
    rewrite matches_seq, matches_bol.
  - destruct (Nat.eqb_spec (length (@nil CodeUnit)) n); [lia|done].
  - destruct (Nat.eqb_spec (length (c :: s)) n); [lia|].
    apply IH. simpl in Hlen. lia.
Qed.

Lemma exec_anchored r input :
  exec (Seq Bol r) input = match_at (Seq Bol r) (length input) input.
Proof.
  unfold exec. destruct input as [|c s]; cbn [exec_from].
  - by destruct (match_at (Seq Bol r) (length (@nil CodeUnit)) []).
  - destruct (match_at (Seq Bol r) (length (c :: s)) (c :: s)); [done|].
    apply exec_from_anchored. simpl. lia.
Qed.

Lemma getTweetIDFromURL_parse url :
  getTweetIDFromURL url = snd <$> parse_tweet_url url.
Proof.
  unfold getTweetIDFromURL, TWEET_ID_RE. rewrite exec_anchored.
  fold TWEET_ID_RE. rewrite match_at_tweet_id.
  by destruct (parse_tweet_url url) as [[user id]|].
Qed.

Lemma getUserFromURL_parse url :
  getUserFromURL url = fst <$> parse_tweet_url url.
Proof.
  unfold getUserFromURL, TWEET_USER_RE. rewrite exec_anchored.
  fold TWEET_USER_RE. rewrite match_at_tweet_user.
  by destruct (parse_tweet_url url) as [[user id]|].
Qed.

Lemma run_of_all p l rest :
  Forall (λ c, p c = true) l →
  run_of p (l ++ rest) = l ++ run_of p rest
  ∧ after_run p (l ++ rest) = after_run p rest.
Proof.
  induction 1 as [|c l Hc Hl IH]; simpl; [done|].
  rewrite Hc. destruct IH as [-> ->]. done.
Qed.

Lemma run_of_Forall p s : Forall (λ c, p c = true) (run_of p s).
Proof.
  induction s as [|c s IH]; simpl; [constructor|].
  destruct (p c) eqn:Hc; by constructor.
Qed.

Lemma parse_path_complete user id (slash : bool) :
  is_user user → is_id id →
  parse_path (user ++ str "/status/" ++ id ++ (if slash then str "/" else []))
  = Some (user, id).
Proof.
  intros [Hu Husr] [Hi Hid]. unfold parse_path.
  destruct (run_of_all not_slash user
              (str "/status/" ++ id ++ (if slash then str "/" else [])) Husr)
    as [-> ->].
  change (run_of not_slash (str "/status/" ++ id ++ (if slash then str "/" else [])))
    with (@nil CodeUnit).
  change (after_run not_slash
            (str "/status/" ++ id ++ (if slash then str "/" else [])))
    with (str "/status/" ++ id ++ (if slash then str "/" else [])).
  rewrite app_nil_r, strip_prefix_app.
  destruct (run_of_all digit id (if slash then str "/" else []) Hid) as [-> ->].
  destruct user as [|u user]; [done|]. destruct id as [|d id]; [done|].
  destruct slash; cbn; by rewrite app_nil_r.
Qed.

Lemma strip_host_complete (secure www : bool) sep path :
  dot sep = true →
  strip_host (str "http" ++ (if secure then str "s" else []) ++ str "://"
                ++ (if www then str "www." else []) ++ str "twitter" ++ [sep]
                ++ str "com/" ++ path)
  = Some path.
Proof.
  intros Hsep. unfold strip_host. rewrite strip_prefix_app.
  assert (H1 : default ((if secure then str "s" else []) ++ str "://"
                          ++ (if www then str "www." else []) ++ str "twitter"
                          ++ [sep] ++ str "com/" ++ path)
                 (strip_prefix (str "s")
                    ((if secure then str "s" else []) ++ str "://"
                       ++ (if www then str "www." else []) ++ str "twitter"
                       ++ [sep] ++ str "com/" ++ path))
               = str "://" ++ (if www then str "www." else []) ++ str "twitter"
                   ++ [sep] ++ str "com/" ++ path).
  { destruct secure; [by rewrite strip_prefix_app|done]. }
  rewrite H1, strip_prefix_app.
  assert (H2 : default ((if www then str "www." else []) ++ str "twitter"
                          ++ [sep] ++ str "com/" ++ path)
                 (strip_prefix (str "www.")
                    ((if www then str "www." else []) ++ str "twitter"
                       ++ [sep] ++ str "com/" ++ path))
               = str "twitter" ++ [sep] ++ str "com/" ++ path).
  { destruct www; [by rewrite strip_prefix_app|done]. }
  rewrite H2, strip_prefix_app. cbn [app]. rewrite Hsep.
  apply strip_prefix_app.
Qed.

Lemma parse_tweet_url_complete secure www sep user id slash :
  dot sep = true → is_user user → is_id id →
  parse_tweet_url (tweet_url secure www sep user id slash) = Some (user, id).
Proof.
  intros Hsep Hu Hi. unfold parse_tweet_url, tweet_url.
  rewrite strip_host_complete by done. by apply parse_path_complete.
Qed.

Lemma strip_host_sound url path :
  strip_host url = Some path →
  ∃ (secure www : bool) sep,
    dot sep = true
    ∧ url = str "http" ++ (if secure then str "s" else []) ++ str "://"
              ++ (if www then str "www." else []) ++ str "twitter" ++ [sep]
              ++ str "com/" ++ path.
Proof.
  unfold strip_host.
  destruct (strip_prefix (str "http") url) as [s0|] eqn:H0; [|done].
  apply strip_prefix_Some in H0 as ->.
  destruct (strip_prefix (str "://") (default s0 (strip_prefix (str "s") s0)))
    as [s2|] eqn:H2; [|done].
  apply strip_prefix_Some in H2.
  destruct (strip_prefix (str "twitter")
              (default s2 (strip_prefix (str "www.") s2)))
    as [[|sep s5]|] eqn:H4; [done| |done].
  apply strip_prefix_Some in H4.
  destruct (dot sep) eqn:Hsep; [|done]. intros H6.
  apply strip_prefix_Some in H6 as ->.
  destruct (strip_prefix (str "s") s0) as [s1|] eqn:H1;
    destruct (strip_prefix (str "www.") s2) as [s3|] eqn:H3;
    simpl in H2, H4; subst;
    try (apply strip_prefix_Some in H1 as ->);
    try (apply strip_prefix_Some in H3 as ->).
  - by exists true, true, sep.
  - by exists true, false, sep.
  - by exists false, true, sep.
  - by exists false, false, sep.
Qed.

Lemma parse_path_sound path user id :
  parse_path path = Some (user, id) →
  is_user user ∧ is_id id
  ∧ ∃ slash : bool, path = user ++ str "/status/" ++ id
                      ++ (if slash then str "/" else []).
Proof.
  unfold parse_path.
  pose proof (run_of_after_run not_slash path) as Hpath.
  pose proof (run_of_Forall not_slash path) as Husr.
  destruct (run_of not_slash path) as [|u usr] eqn:Hu; [done|].
  destruct (strip_prefix (str "/status/") (after_run not_slash path))
    as [s8|] eqn:H8; [|done].
  apply strip_prefix_Some in H8.
  pose proof (run_of_after_run digit s8) as Hs8.
  pose proof (run_of_Forall digit s8) as Hid.
  destruct (run_of digit s8) as [|d ds] eqn:Hd; [done|].
  destruct (after_run digit s8) as [|c9 [|c10 s10]] eqn:H9; [| |done].
  - intros [= <- <-]. repeat split; try done.
    exists false. rewrite <- Hpath, H8, <- Hs8. by rewrite !app_nil_r.
  - destruct (N.eqb_spec c9 SLASH) as [->|]; [|done].
    intros [= <- <-]. repeat split; try done.
    exists true. by rewrite <- Hpath, H8, <- Hs8.
Qed.

Lemma parse_tweet_url_sound url user id :
  parse_tweet_url url = Some (user, id) →
  ∃ secure www sep slash,
    url = tweet_url secure www sep user id slash
    ∧ dot sep = true ∧ is_user user ∧ is_id id.
Proof.
  unfold parse_tweet_url.
  destruct (strip_host url) as [path|] eqn:Hhost; [|done].
  intros Hpath.
  apply strip_host_sound in Hhost as (secure & www & sep & Hsep & ->).
  apply parse_path_sound in Hpath as (Hu & Hi & slash & ->).
  by exists secure, www, sep, slash.
Qed.

(** X1. A permalink made from a user name and a tweet id is read back:
    [getTweetIDFromURL] yields the id and [getUserFromURL] the user. *)
Theorem permalink_round_trip (username id : list CodeUnit) :
  is_user username → is_id id →
  getTweetIDFromURL (makeTweetPermalink username id) = Some id
  ∧ getUserFromURL (makeTweetPermalink username id) = Some username.
Proof.
  intros Hu Hi.
  assert (Hparse : parse_tweet_url (makeTweetPermalink username id)
                   = Some (username, id)).
  { pose proof (parse_tweet_url_complete true false 46%N username id false
                  eq_refl Hu Hi) as H.
    unfold tweet_url in H. unfold makeTweetPermalink.
    rewrite app_nil_r in H. exact H. }
  rewrite getTweetIDFromURL_parse, getUserFromURL_parse, Hparse. done.
Qed.

Lemma permalink_round_trip_witness :
  getTweetIDFromURL (makeTweetPermalink (str "mozilla") (str "1234"))
  = Some (str "1234")
  ∧ getUserFromURL (makeTweetPermalink (str "mozilla") (str "1234"))
    = Some (str "mozilla").
Proof.
  apply permalink_round_trip.
  - split; [done|]. repeat constructor.
  - split; [done|]. repeat constructor.
Defined.

(** X2. The URLs the two functions accept: both succeed, with the user
    and the id, exactly on [http] or [https], an optional [www.],
    [twitter], any one code unit that is no line terminator, [com/], a
    non-empty user without slash, [/status/], a non-empty run of digits
    and an optional final slash. *)
Theorem tweet_urls_accepted (url user id : list CodeUnit) :
  (getUserFromURL url = Some user ∧ getTweetIDFromURL url = Some id)
  ↔ ∃ secure www sep slash,
      url = tweet_url secure www sep user id slash
      ∧ dot sep = true ∧ is_user user ∧ is_id id.
Proof.
  rewrite getTweetIDFromURL_parse, getUserFromURL_parse. split.
  - intros [Hu Hi]. apply parse_tweet_url_sound.
    destruct (parse_tweet_url url) as [[u i]|]; [|done].
    simpl in Hu, Hi. congruence.
  - intros (secure & www & sep & slash & -> & Hsep & Hu & Hi).
    by rewrite parse_tweet_url_complete.
Qed.

(** X3. The two functions accept the same URLs: whenever
    [getTweetIDFromURL] finds an id, [getUserFromURL] finds a user, and
    the other way round; the id is a non-empty run of digits. *)
Theorem tweet_id_and_user_agree (url : list CodeUnit) :
  (is_Some (getTweetIDFromURL url) ↔ is_Some (getUserFromURL url))
  ∧ (∀ id, getTweetIDFromURL url = Some id → is_id id)
  ∧ (∀ user, getUserFromURL url = Some user → is_user user).
Proof.
  rewrite getTweetIDFromURL_parse, getUserFromURL_parse.
  destruct (parse_tweet_url url) as [[u i]|] eqn:Hparse; simpl.
  - apply parse_tweet_url_sound in Hparse
      as (secure & www & sep & slash & _ & _ & Hu & Hi).
    split; [split; eauto|]. split; intros ? [= <-]; done.
  - split; [split; intros [? ?]; done|]. split; intros ? ?; done.
Qed.

Lemma matches_star p n s cap k : matches (Star p) n s cap k = star p s cap k.
Proof. reflexivity. Qed.

Lemma skip_alt_after_run s :
  skip_alt s
  = match after_run (λ c, negb (N.eqb c RBRACKET)) s with
    | _ :: rest => Some rest
    | [] => None
    end.
Proof.
  induction s as [|c s IH]; simpl; [done|].
  destruct (N.eqb c RBRACKET); simpl; [done|exact IH].
Qed.

Lemma after_run_head p s c rest : after_run p s = c :: rest → p c = false.
Proof.
  induction s as [|c' s IH]; simpl; [done|].
  destruct (p c') eqn:Hc; [exact IH|]. by intros [= <- _].
Qed.

Lemma take_url_after_run s :
  take_url s
  = match after_run (λ c, negb (N.eqb c RPAREN)) s with
    | _ :: after => Some (run_of (λ c, negb (N.eqb c RPAREN)) s, after)
    | [] => None
    end.
Proof.
  induction s as [|c s IH]; simpl; [done|].
  destruct (N.eqb c RPAREN); simpl; [done|]. rewrite IH.
  by destruct (after_run (λ c0, negb (N.eqb c0 RPAREN)) s).
Qed.

Lemma strip_prefix_one c s :
  strip_prefix [c] s
  = match s with
    | c' :: rest => if N.eqb c c' then Some rest else None
    | [] => None
    end.
Proof. by destruct s. Qed.

Lemma strip_prefix_two c1 c2 s :
  strip_prefix [c1; c2] s
  = match s with
    | a :: b :: rest => if N.eqb c1 a && N.eqb c2 b then Some rest else None
    | _ => None
    end.
Proof.
  destruct s as [|a [|b rest]]; cbn [strip_prefix]; [done| |].
  - by destruct (N.eqb c1 a).
  - by destruct (N.eqb c1 a), (N.eqb c2 b).
Qed.

(** The matcher of the image expression, with or without its group. *)
Lemma matches_image_tail (group : bool) n s1 :
  matches
    (Seq (Star (λ c, negb (N.eqb c RBRACKET)))
      (Seq (lit (str "]("))
        (Seq (if group then Group (Plus (λ c, negb (N.eqb c RPAREN)))
              else Plus (λ c, negb (N.eqb c RPAREN)))
             (lit (str ")")))))
    n s1 None (λ rest cap, Some (rest, cap))
  = match skip_alt s1 with
    | Some (c2 :: s2) =>
        if N.eqb c2 LPAREN then
          match take_url s2 with
          | Some (u :: url, after) =>
              Some (after, if group then Some (u :: url) else None)
          | _ => None
          end
        else None
    | _ => None
    end.
Proof.
  rewrite matches_seq, matches_star, star_greedy.
  2:{ intros c rest Hc. rewrite matches_seq, matches_lit.
      change (str "](") with [RBRACKET; LPAREN]. rewrite strip_prefix_two.
      apply negb_true_iff in Hc. rewrite N.eqb_sym, Hc. by destruct rest. }
  rewrite matches_seq, matches_lit, skip_alt_after_run.
  change (str "](") with [RBRACKET; LPAREN]. rewrite strip_prefix_two.
  destruct (after_run (λ c, negb (N.eqb c RBRACKET)) s1) as [|a [|c2 s2]] eqn:Ha;
    [done|done|].
  apply after_run_head in Ha. apply negb_false_iff in Ha.
  rewrite (N.eqb_sym RBRACKET a), Ha, (N.eqb_sym LPAREN c2). cbn [andb].
  destruct (N.eqb c2 LPAREN); [|done]. cbv beta.
  rewrite take_url_after_run.
  assert (Hk : ∀ (cap' : option (list CodeUnit)) c rest,
             negb (N.eqb c RPAREN) = true →
             matches (lit (str ")")) n (c :: rest) cap'
               (λ rest0 cap0, Some (rest0, cap0)) = None).
  { intros cap' c rest Hc. rewrite matches_lit.
    change (str ")") with [RPAREN]. rewrite strip_prefix_one.
    apply negb_true_iff in Hc. by rewrite N.eqb_sym, Hc. }
  destruct group.
  - rewrite matches_seq, matches_group_plus by (intros; by apply Hk).
    destruct (run_of (λ c, negb (N.eqb c RPAREN)) s2) as [|u url] eqn:Hu.
    + by destruct (after_run (λ c, negb (N.eqb c RPAREN)) s2).
    + rewrite matches_lit. change (str ")") with [RPAREN].
      rewrite strip_prefix_one.
      destruct (after_run (λ c, negb (N.eqb c RPAREN)) s2) as [|b after] eqn:Hb;
        [done|].
      apply after_run_head in Hb. apply negb_false_iff in Hb.
      by rewrite N.eqb_sym, Hb.
  - rewrite matches_seq, matches_plus by (intros; by apply Hk).
    destruct (run_of (λ c, negb (N.eqb c RPAREN)) s2) as [|u url] eqn:Hu.
    + by destruct (after_run (λ c, negb (N.eqb c RPAREN)) s2).
    + rewrite matches_lit. change (str ")") with [RPAREN].
      rewrite strip_prefix_one.
      destruct (after_run (λ c, negb (N.eqb c RPAREN)) s2) as [|b after] eqn:Hb;
        [done|].
      apply after_run_head in Hb. apply negb_false_iff in Hb.
      by rewrite N.eqb_sym, Hb.
Qed.

Lemma match_at_image n s :
  match_at IMAGE_RE n s
  = match match_image s with
    | Some (url, after) => Some (after, Some url)
    | None => None
    end
  ∧ match_at IMAGE_SEARCH_RE n s
    = match match_image s with
      | Some (url, after) => Some (after, None)
      | None => None
      end.
Proof.
  unfold match_at, IMAGE_RE, IMAGE_SEARCH_RE.
  rewrite !matches_seq, !matches_lit.
  change (str "![") with [BANG; LBRACKET]. rewrite strip_prefix_two.
  unfold match_image.
  destruct s as [|c0 [|c1 s1]]; [done|done|].
  rewrite (N.eqb_sym BANG c0), (N.eqb_sym LBRACKET c1).
  destruct (N.eqb c0 BANG && N.eqb c1 LBRACKET); [|done].
  pose proof (matches_image_tail true n s1) as Ht.
  pose proof (matches_image_tail false n s1) as Hf.
  cbv beta iota in Ht, Hf. rewrite Ht, Hf.
  destruct (skip_alt s1) as [[|c2 s2]|]; [done| |done].
  destruct (N.eqb c2 LPAREN); [|done].
  by destruct (take_url s2) as [[[|u url] after]|].
Qed.

Lemma exec_from_image_search n s :
  is_Some (exec_from IMAGE_SEARCH_RE n s) ↔ search s = true.
Proof.
  induction s as [|c s IH]; cbn [exec_from search];
    destruct (match_at_image n []) as [_ Hnil].
  - rewrite Hnil. simpl. split; [intros [? ?]; done|done].
  - destruct (match_at_image n (c :: s)) as [_ ->].
    destruct (match_image (c :: s)) as [[url after]|]; [|exact IH].
    split; [done|]. by eexists.
Qed.

(** X4. The expression [getMediaAndContent] replaces matches at a
    position exactly when an image reference [![alt](url)] starts there
    (no "]" in [alt], a non-empty [url] without ")"); the match ends
    behind the first ")" and the group captures [url]. The expression it
    searches finds a match exactly when the tweet contains one. *)
Theorem image_expression_matches (n : nat) (s url after : list CodeUnit) :
  (match_at IMAGE_RE n s = Some (after, Some url)
   ↔ ∃ alt, s = image alt url ++ after ∧ is_image alt url)
  ∧ (is_Some (exec IMAGE_SEARCH_RE s) ↔ contains_image s).
Proof.
  split.
  - destruct (match_at_image n s) as [-> _].
    rewrite <- match_image_spec.
    destruct (match_image s) as [[url' after']|]; split; intros H;
      try done; congruence.
  - unfold exec. rewrite exec_from_image_search. apply search_contains.
Qed.

(** *** The content of a tweet *)

Lemma getMediaAndContent_replace tweet :
  getMediaAndContent tweet
  = if Nat.ltb 4 (length (replace_images (length tweet) tweet).2)
    then Throw (JsError "Can not upload more than 4 images per tweet")
    else Ok (trim (replace_images (length tweet) tweet).1,
             (replace_images (length tweet) tweet).2).
Proof.
  unfold getMediaAndContent. destruct (search tweet) eqn:Hsearch.
  - by destruct (replace_images (length tweet) tweet).
  - by rewrite (search_false_replace tweet Hsearch).
Qed.

Lemma References_bounds s pure media :
  References s pure media →
  (length pure ≤ length s)%nat
  ∧ Forall (λ url, url ≠ [] ∧ RPAREN ∉ url) media.
Proof.
  induction 1 as [|alt url after pure media Himg Hrest [IHlen IHall]
                  |c rest pure media Hno Hrest [IHlen IHall]].
  - split; [done|constructor].
  - split.
    + rewrite length_app. lia.
    + constructor; [|done]. by destruct Himg as (_ & Hne & Hurl).
  - split; [simpl; lia|done].
Qed.

Lemma trimStart_suffix s : ∃ pre, s = pre ++ trimStart s.
Proof.
  induction s as [|c s [pre IH]]; simpl; [by exists []|].
  destruct (is_space c); [|by exists []].
  exists (c :: pre). simpl. by rewrite <- IH.
Qed.

Lemma trimStart_head s c rest : trimStart s = c :: rest → is_space c = false.
Proof.
  induction s as [|c' s IH]; simpl; [done|].
  destruct (is_space c') eqn:Hc; [exact IH|]. by intros [= <- _].
Qed.

Lemma trim_prefix s : ∃ post, trimStart s = trim s ++ post.
Proof.
  unfold trim. destruct (trimStart_suffix (rev (trimStart s))) as [pre Hpre].
  exists (rev pre). apply (f_equal (@rev CodeUnit)) in Hpre.
  by rewrite rev_involutive, rev_app_distr in Hpre.
Qed.

Lemma trim_trimmed s :
  (∀ c rest, trim s = c :: rest → is_space c = false)
  ∧ (∀ c init, trim s = init ++ [c] → is_space c = false)
  ∧ (length (trim s) ≤ length s)%nat.
Proof.
  destruct (trim_prefix s) as [post Hpost].
  destruct (trimStart_suffix s) as [pre Hpre].
  split; [|split].
  - intros c rest Htrim. rewrite Htrim in Hpost. simpl in Hpost.
    by apply trimStart_head in Hpost.
  - intros c init Htrim. unfold trim in Htrim.
    apply (f_equal (@rev CodeUnit)) in Htrim.
    rewrite rev_involutive, rev_app_distr in Htrim. simpl in Htrim.
    by apply trimStart_head in Htrim.
  - rewrite Hpre at 2. rewrite Hpost, !length_app. lia.
Qed.

(** X5. What [getMediaAndContent] returns: at most four media targets,
    none empty and none with a ")", and a text that neither starts nor
    ends with white space and is no longer than the tweet. *)
Theorem getMediaAndContent_result
    (tweet content : list CodeUnit) (media : list (list CodeUnit)) :
  getMediaAndContent tweet = Ok (content, media) →
  (length media ≤ 4)%nat
  ∧ Forall (λ url, url ≠ [] ∧ RPAREN ∉ url) media
  ∧ (length content ≤ length tweet)%nat
  ∧ (∀ c rest, content = c :: rest → is_space c = false)
  ∧ (∀ c init, content = init ++ [c] → is_space c = false).
Proof.
  rewrite getMediaAndContent_replace.
  pose proof (replace_images_references (length tweet) tweet (le_n _)) as Href.
  apply References_bounds in Href as [Hlen Hall].
  destruct (Nat.ltb_spec 4 (length (replace_images (length tweet) tweet).2));
    [done|].
  intros [= <- <-].
  destruct (trim_trimmed (replace_images (length tweet) tweet).1)
    as (Hhead & Hlast & Hshort).
  repeat split; try done; lia.
Qed.

Lemma getMediaAndContent_result_witness :
  (length [str "https://example.com/cat.png"] ≤ 4)%nat
  ∧ Forall (λ url, url ≠ [] ∧ RPAREN ∉ url) [str "https://example.com/cat.png"]
  ∧ (length (str "Look  at this") ≤ length tweet_one_image)%nat
  ∧ (∀ c rest, str "Look  at this" = c :: rest → is_space c = false)
  ∧ (∀ c init, str "Look  at this" = init ++ [c] → is_space c = false).
Proof.
  apply (getMediaAndContent_result tweet_one_image). vm_compute. reflexivity.
Defined.

(** *** The account *)

Section Account.

Variable weightedLength : list CodeUnit → Z.
Variable extractMentions : list CodeUnit → list (list CodeUnit).
Variable toLowerCase : list CodeUnit → list CodeUnit.
Variable this : Account.

Ltac step :=
  unfold Js.bind, Js.ret, Js.await, Js.call, Js.throw; cbn [fst snd].

(** Both functions read a URL the same way. *)
Lemma tweet_url_cases url :
  (∃ user id secure www sep slash,
      getTweetIDFromURL url = Some id ∧ getUserFromURL url = Some user
      ∧ url = tweet_url secure www sep user id slash
      ∧ dot sep = true ∧ is_user user ∧ is_id id)
  ∨ (getTweetIDFromURL url = None ∧ getUserFromURL url = None
     ∧ parse_tweet_url url = None).
Proof.
  rewrite getTweetIDFromURL_parse, getUserFromURL_parse.
  destruct (parse_tweet_url url) as [[user id]|] eqn:Hparse; [left|by right].
  apply parse_tweet_url_sound in Hparse
    as (secure & www & sep & slash & Hurl & Hsep & Hu & Hi).
  by exists user, id, secure, www, sep, slash.
Qed.

Lemma parse_permalink username id :
  is_user username → is_id id →
  parse_tweet_url (makeTweetPermalink username id) = Some (username, id).
Proof.
  intros Hu Hi.
  pose proof (parse_tweet_url_complete true false 46%N username id false
                eq_refl Hu Hi) as H.
  unfold tweet_url in H. unfold makeTweetPermalink.
  rewrite app_nil_r in H. exact H.
Qed.

Lemma getTweetIDFromURL_empty : getTweetIDFromURL [] = None.
Proof. reflexivity. Qed.

Lemma uploadAll_ok media ids tr :
  Forall2 (λ m id, upload this m = Ok id) media ids →
  uploadAll this media tr = (Ok ids, tr ++ map UploadMedia media).
Proof.
  intros Hall. revert tr.
  induction Hall as [|m id media ids Hm Hall IH]; intros tr; simpl.
  - unfold Js.ret. by rewrite app_nil_r.
  - unfold uploadMedia. step. rewrite Hm, IH. by rewrite <- app_assoc.
Qed.

Lemma uploadAll_trace media tr :
  snd (uploadAll this media tr) = tr ++ map UploadMedia media.
Proof.
  revert tr. induction media as [|m media IH]; intros tr; simpl.
  - unfold Js.ret. by rewrite app_nil_r.
  - unfold uploadMedia. step. specialize (IH (tr ++ [UploadMedia m])).
    destruct (uploadAll this media (tr ++ [UploadMedia m])) as [rs tr2].
    simpl in *. by rewrite IH, <- app_assoc.
Qed.

Lemma uploadAll_fails media tr :
  Exists (λ m, ¬ is_ok (upload this m)) media →
  ∃ e, fst (uploadAll this media tr) = Throw e
       ∧ Exists (λ m, upload this m = Throw e) media.
Proof.
  intros Hex. revert tr.
  induction Hex as [m media Hm|m media Hex IH]; intros tr; simpl;
    unfold uploadMedia; step.
  - destruct (uploadAll this media (tr ++ [UploadMedia m])) as [rs tr2].
    destruct (upload this m) as [id|e] eqn:Hup; [by destruct Hm|].
    exists e. split; [done|]. by left.
  - destruct (IH (tr ++ [UploadMedia m])) as (e & He & Hin).
    destruct (uploadAll this media (tr ++ [UploadMedia m])) as [rs tr2].
    simpl in He. subst rs.
    destruct (upload this m) as [id|e'] eqn:Hup.
    + exists e. split; [done|]. by right.
    + exists e'. split; [done|]. by left.
Qed.

(** X6. Publishing a card that is no retweet: more than four images make
    [publish] fail before anything is uploaded or posted; a tweet that is
    too long makes it fail after every image was uploaded, and without
    posting the status. *)
Theorem publish_rejects (card : Card) (tr : list Call) :
  retweet_section card = None →
  (∀ e, getMediaAndContent (content_section card) = Throw e →
        publish weightedLength extractMentions toLowerCase this card tr
        = (Throw e, tr))
  ∧ (∀ content media ids,
        getMediaAndContent (content_section card) = Ok (content, media) →
        Forall2 (λ m id, upload this m = Ok id) media ids →
        tweetTooLong weightedLength content = Ok true →
        publish weightedLength extractMentions toLowerCase this card tr
        = (Throw (JsError "Tweet content too long"),
           tr ++ map UploadMedia media)).
Proof.
  intros Hcard. unfold publish, separateContentAndMedia. rewrite Hcard. split.
  - intros e He. step. by rewrite He.
  - intros content media ids Hcm Hup Hlong. step. rewrite Hcm. cbn [fst snd].
    rewrite (uploadAll_ok media ids tr Hup). unfold tweet. step.
    by rewrite Hlong.
Qed.

(** X7. A failed upload does not stop the other uploads, and nothing is
    posted: when the upload of one image of a card fails, [publish]
    still requests the upload of every image of the card, then fails
    with the error of an upload, without posting the status. *)
Theorem publish_upload_failure
    (card : Card) (content : list CodeUnit) (media : list (list CodeUnit))
    (tr : list Call) :
  retweet_section card = None →
  getMediaAndContent (content_section card) = Ok (content, media) →
  Exists (λ m, ¬ is_ok (upload this m)) media →
  ∃ e,
    publish weightedLength extractMentions toLowerCase this card tr
    = (Throw e, tr ++ map UploadMedia media)
    ∧ Exists (λ m, upload this m = Throw e) media.
Proof.
  intros Hcard Hcm Hex. unfold publish, separateContentAndMedia.
  rewrite Hcard. step. rewrite Hcm. cbn [fst snd].
  destruct (uploadAll_fails media tr Hex) as (e & He & Hin).
  pose proof (uploadAll_trace media tr) as Htr.
  destruct (uploadAll this media tr) as [rs tr2]. simpl in He, Htr.
  subst rs tr2. by exists e.
Qed.

(** What the reply block leaves in the arguments. *)
Lemma reply_args_ok content inReplyTo args :
  ∃ args',
    reply_args extractMentions toLowerCase content inReplyTo args = Ok args'
    ∧ status args' = status args
    ∧ media_ids args' = media_ids args
    ∧ in_reply_to_status_id args'
      = match inReplyTo ≫= getTweetIDFromURL with
        | Some id => Some id
        | None => in_reply_to_status_id args
        end.
Proof.
  unfold reply_args. destruct inReplyTo as [url|]; [|by exists args].
  cbn [mbind option_bind].
  destruct (truthy url) eqn:Hurl.
  2:{ destruct url; [|done]. rewrite getTweetIDFromURL_empty. by exists args. }
  destruct (tweet_url_cases url)
    as [(user & id & _ & _ & _ & _ & Hid & Huser & _ & _ & _ & [Hne _])
       |(Hid & _ & _)];
    rewrite Hid; [|by exists args].
  rewrite Huser. destruct id as [|d id]; [done|]. cbn [truthy recipient_lower].
  destruct (Nat.eqb (length (map toLowerCase (extractMentions content))) 0);
    [by eexists|].
  destruct (negb (Array_includes (map toLowerCase (extractMentions content))
                    (toLowerCase user))); by eexists.
Qed.

(** X8. A tweet that is not too long, on an account that is ready, is
    posted exactly once, and the reply block never fails: the status is
    the content, [in_reply_to_status_id] is the id [getTweetIDFromURL]
    reads from [inReplyTo] (absent when there is none), [media_ids] is
    the media string unless it is empty; the outcome is that of the
    request, and a fulfilled one gives a permalink that
    [getTweetIDFromURL] reads back. *)
Theorem tweet_posts_once
    (content media : list CodeUnit) (inReplyTo : option (list CodeUnit))
    (tr : list Call) :
  tweetTooLong weightedLength content = Ok false →
  ready this = Ok tt →
  ∃ args,
    tweet weightedLength extractMentions toLowerCase this content media
      inReplyTo tr
    = (match post_update this args with
       | Ok id => Ok (makeTweetPermalink (username this) id)
       | Throw e => Throw e
       end,
       tr ++ [PostUpdate args])
    ∧ status args = content
    ∧ in_reply_to_status_id args = inReplyTo ≫= getTweetIDFromURL
    ∧ media_ids args = (if truthy media then Some media else None)
    ∧ (∀ id, post_update this args = Ok id →
             is_user (username this) → is_id id →
             getTweetIDFromURL (makeTweetPermalink (username this) id)
             = Some id).
Proof.
  intros Hlong Hready. unfold tweet. step. rewrite Hlong.
  destruct (reply_args_ok content inReplyTo
              {| status := content; in_reply_to_status_id := None;
                 auto_populate_reply_metadata := None; media_ids := None |})
    as (args' & -> & Hstatus & Hmedia & Hreply).
  rewrite Hready. cbn [status in_reply_to_status_id media_ids] in *.
  match goal with
  | |- context [PostUpdate ?a] => exists a
  end.
  split; [|split; [|split; [|split]]].
  - by destruct (post_update this _).
  - by destruct media.
  - destruct media; cbn [length Nat.eqb negb in_reply_to_status_id];
      rewrite Hreply; by destruct (inReplyTo ≫= getTweetIDFromURL).
  - destruct media; cbn; [exact Hmedia|done].
  - intros id _ Hu Hi.
    by rewrite getTweetIDFromURL_parse, parse_permalink.
Qed.

(** X9. Publishing a retweet card posts to [statuses/retweet/] followed
    by the id of the tweet when the section is a tweet URL, and to
    [statuses/retweet/null] when it is not; nothing else is requested,
    and a fulfilled request is answered by "Successfully retweeted.". *)
Theorem publish_retweet (card : Card) (url : list CodeUnit) (tr : list Call) :
  retweet_section card = Some url →
  ready this = Ok tt →
  ∃ endpoint,
    publish weightedLength extractMentions toLowerCase this card tr
    = (match post_retweet this endpoint with
       | Ok _ => Ok (str "Successfully retweeted.")
       | Throw e => Throw e
       end,
       tr ++ [PostRetweet endpoint])
    ∧ (∀ secure www sep user id slash,
          url = tweet_url secure www sep user id slash →
          dot sep = true → is_user user → is_id id →
          endpoint = str "statuses/retweet/" ++ id)
    ∧ ((∀ secure www sep user id slash,
           dot sep = true → is_user user → is_id id →
           url ≠ tweet_url secure www sep user id slash) →
       endpoint = str "statuses/retweet/null").
Proof.
  intros Hcard Hready. unfold publish, retweet. rewrite Hcard. step.
  rewrite Hready.
  exists (str "statuses/retweet/" ++ template (getTweetIDFromURL url)).
  split; [by destruct (post_retweet this _) as [[]|]|]. split.
  - intros secure www sep user id slash -> Hsep Hu Hi.
    by rewrite getTweetIDFromURL_parse, parse_tweet_url_complete.
  - intros Hnot.
    destruct (tweet_url_cases url)
      as [(user & id & secure & www & sep & slash & _ & _ & Hurl & Hsep & Hu & Hi)
         |(-> & _ & _)]; [|done].
    by destruct (Hnot secure www sep user id slash).
Qed.

Lemma String_includes_empty haystack : String_includes haystack [] = true.
Proof. by destruct haystack. Qed.

Lemma checkPosts_loop_app tweets markPublished pre rest tr :
  checkPosts_loop tweets markPublished (pre ++ rest) tr
  = match checkPosts_loop tweets markPublished pre tr with
    | (Ok _, tr1) => checkPosts_loop tweets markPublished rest tr1
    | (Throw e, tr1) => (Throw e, tr1)
    end.
Proof.
  revert tr. induction pre as [|card pre IH]; intros tr; [done|].
  cbn [app checkPosts_loop].
  match goal with
  | |- Js.bind ?m _ _ = _ => generalize m; intros body
  end.
  unfold Js.bind. destruct (body tr) as [[[]|e] tr1]; [apply IH|done].
Qed.

(** X10. A card without text is taken for published: when the content
    section of a card that is no retweet leaves nothing but images and
    white space, [checkPosts] marks it published with the permalink of
    the first tweet of the timeline, whatever that tweet says. *)
Theorem checkPosts_marks_empty_content
    (markPublished : Card → list CodeUnit → Result unit)
    (card : Card) (cards : list Card) (t : Tweet) (ts : list Tweet)
    (media : list (list CodeUnit)) (tr : list Call) :
  retweet_section card = None →
  getMediaAndContent (content_section card) = Ok ([], media) →
  is_Some (full_text t) ∨ is_Some (text t) →
  markPublished card (makeTweetPermalink (user_screen_name t) (id_str t))
  = Ok tt →
  checkPosts_loop (t :: ts) markPublished (card :: cards) tr
  = checkPosts_loop (t :: ts) markPublished cards
      (tr ++ [MarkPublished card
                (makeTweetPermalink (user_screen_name t) (id_str t))]).
Proof.
  intros Hcard Hcm Htext Hmark. cbn [checkPosts_loop]. rewrite Hcard. step.
  rewrite Hcm. cbn [fst find_tweet].
  destruct (full_text t) as [ft|]; [|destruct (text t) as [tx|]].
  - rewrite String_includes_empty. by rewrite Hmark.
  - rewrite String_includes_empty. by rewrite Hmark.
  - destruct Htext as [[? ?]|[? ?]]; done.
Qed.

(** X11. One card with more than four images stops the whole check:
    [checkPosts] fails at that card, and no card behind it is looked at
    or marked. *)
Theorem checkPosts_stops_at_bad_card
    (markPublished : Card → list CodeUnit → Result unit)
    (tweets : list Tweet) (pre : list Card) (bad : Card) (rest : list Card)
    (e : Error) (tr tr1 : list Call) :
  checkPosts_loop tweets markPublished pre tr = (Ok tt, tr1) →
  retweet_section bad = None →
  getMediaAndContent (content_section bad) = Throw e →
  checkPosts_loop tweets markPublished (pre ++ bad :: rest) tr = (Throw e, tr1).
Proof.
  intros Hpre Hbad He. rewrite checkPosts_loop_app, Hpre.
  cbn [checkPosts_loop]. rewrite Hbad. step. by rewrite He.
Qed.

End Account.

Lemma publish_rejects_witness :
  publish (λ _, 300%Z) (λ _, []) (λ s, s) demo_account card_five_images []
  = (Throw (JsError "Can not upload more than 4 images per tweet"), [])
  ∧ publish (λ _, 300%Z) (λ _, []) (λ s, s) demo_account card_images_only []
    = (Throw (JsError "Tweet content too long"),
       [UploadMedia (str "1"); UploadMedia (str "2")]).
Proof.
  split.
  - destruct (publish_rejects (λ _, 300%Z) (λ _, []) (λ s, s) demo_account
                card_five_images [] eq_refl) as [Hmany _].
    apply Hmany. vm_compute. reflexivity.
  - destruct (publish_rejects (λ _, 300%Z) (λ _, []) (λ s, s) demo_account
                card_images_only [] eq_refl) as [_ Hlong].
    apply (Hlong [] [str "1"; str "2"] [str "91"; str "92"]).
    + vm_compute. reflexivity.
    + repeat constructor.
    + reflexivity.
Defined.

Lemma publish_upload_failure_witness :
  ∃ e,
    publish (λ _, 10%Z) (λ _, []) (λ s, s)
      {| ready := Ok tt; username := str "mozilla";
         upload := λ url, if bool_decide (url = str "1")
                          then Throw (Rejection 1) else Ok url;
         post_update := λ _, Ok (str "1234");
         post_retweet := λ _, Ok tt; tweets := Ok [] |}
      card_images_only []
    = (Throw e, [UploadMedia (str "1"); UploadMedia (str "2")]).
Proof.
  destruct (publish_upload_failure (λ _, 10%Z) (λ _, []) (λ s, s)
              {| ready := Ok tt; username := str "mozilla";
                 upload := λ url, if bool_decide (url = str "1")
                                  then Throw (Rejection 1) else Ok url;
                 post_update := λ _, Ok (str "1234");
                 post_retweet := λ _, Ok tt; tweets := Ok [] |}
              card_images_only [] [str "1"; str "2"] [] eq_refl)
    as (e & Hrun & _).
  - vm_compute. reflexivity.
  - left. intros H. vm_compute in H. exact H.
  - by exists e.
Defined.

Lemma tweet_posts_once_witness :
  ∃ args,
    tweet (λ _, 10%Z) (λ _, []) (λ s, s) demo_account (str "hi") []
      (Some (str "https://twitter.com/mdn/status/42")) []
    = (Ok (makeTweetPermalink (str "mozilla") (str "1234")), [PostUpdate args])
    ∧ in_reply_to_status_id args = Some (str "42").
Proof.
  destruct (tweet_posts_once (λ _, 10%Z) (λ _, []) (λ s, s) demo_account
              (str "hi") [] (Some (str "https://twitter.com/mdn/status/42")) []
              eq_refl eq_refl)
    as (args & Hrun & _ & Hreply & _).
  exists args. split; [exact Hrun|]. rewrite Hreply. vm_compute. reflexivity.
Defined.

Lemma publish_retweet_witness :
  ∃ endpoint,
    publish (λ _, 10%Z) (λ _, []) (λ s, s) demo_account card_bad_retweet []
    = (Ok (str "Successfully retweeted."), [PostRetweet endpoint]).
Proof.
  destruct (publish_retweet (λ _, 10%Z) (λ _, []) (λ s, s) demo_account
              card_bad_retweet (str "not a tweet") [] eq_refl eq_refl)
    as (endpoint & Hrun & _).
  by exists endpoint.
Defined.

Lemma checkPosts_marks_empty_content_witness :
  checkPosts_loop
    [ {| full_text := Some (str "hello world"); text := None;
         user_screen_name := str "mozilla"; id_str := str "77";
         retweeted_status_id_str := None |} ]
    (λ _ _, Ok tt) [card_images_only] []
  = (Ok tt,
     [MarkPublished card_images_only
        (str "https://twitter.com/mozilla/status/77")]).
Proof.
  rewrite (checkPosts_marks_empty_content (λ _ _, Ok tt) card_images_only []
             {| full_text := Some (str "hello world"); text := None;
                user_screen_name := str "mozilla"; id_str := str "77";
                retweeted_status_id_str := None |} []
             [str "1"; str "2"] []).
  - reflexivity.
  - reflexivity.
  - vm_compute. reflexivity.
  - left. by eexists.
  - reflexivity.
Defined.

Lemma checkPosts_stops_at_bad_card_witness :
  checkPosts_loop [] (λ _ _, Ok tt)
    ([card_images_only] ++ card_five_images :: [card_bad_retweet]) []
  = (Throw (JsError "Can not upload more than 4 images per tweet"), []).
Proof.
  apply (checkPosts_stops_at_bad_card (λ _ _, Ok tt) [] [card_images_only]
           card_five_images [card_bad_retweet] _ [] []).
  - vm_compute. reflexivity.
  - reflexivity.
  - vm_compute. reflexivity.
Defined.

End TwitterAccountSpec.

(** ** Properties of the expiring single-flight cache *)

Module DataStoreSpec.
Import DataStore.

Section Cache.

Context {T : Type}.
Implicit Types (w : World T) (ev : Event T) (s : FutureState T).

Lemma getData_in_flight now w f :
  pendingFetch (cache w) = Some f → getData now w = (Future f, w).
Proof. intros Hf. unfold getData. by rewrite Hf. Qed.

Lemma getData_starts now w :
  pendingFetch (cache w) = None → cacheExpired now (cache w) = true →
  getData now w
  = (Future (length (futures w)),
     {| cache := {| cacheTime := cacheTime (cache w);
                    data := data (cache w);
                    lastUpdateTimestamp := lastUpdateTimestamp (cache w);
                    pendingFetch := Some (length (futures w)) |};
        fetchCalls := fetchCalls w ++ [data (cache w)];
        futures := futures w ++ [Pending] |}).
Proof. intros Hidle Hexpired. unfold getData. by rewrite Hidle, Hexpired. Qed.

Lemma getData_each_in_flight times w f :
  pendingFetch (cache w) = Some f →
  getData_each times w = (replicate (length times) (Future f), w).
Proof.
  intros Hf. induction times as [|now times IH]; simpl; [done|].
  by rewrite (getData_in_flight now w f Hf), IH.
Qed.

Lemma outstanding_started (l : list (FutureState T)) :
  length (List.filter (is_pending T) (l ++ [Pending]))
  = S (length (List.filter (is_pending T) l)).
Proof.
  induction l as [|s l IH]; simpl; [done|].
  destruct (is_pending T s); simpl; by rewrite IH.
Qed.

Lemma outstanding_settled (l : list (FutureState T)) f s :
  l !! f = Some Pending → is_pending T s = false →
  S (length (List.filter (is_pending T) (<[f := s]> l)))
  = length (List.filter (is_pending T) l).
Proof.
  intros Hf Hs. revert f Hf.
  induction l as [|s0 l IH]; intros [|f] Hf; simpl in *; try done.
  - injection Hf as ->. simpl. by rewrite Hs.
  - destruct (is_pending T s0); simpl; by rewrite IH.
Qed.

Lemma consistent_new cacheTime : consistent (new (T := T) cacheTime).
Proof. by split. Qed.

Lemma consistent_step w ev : consistent w → consistent (step w ev).
Proof.
  intros [Hlen Hpend]. unfold consistent.
  destruct ev as [now|now v|e]; simpl.
  - unfold getData.
    destruct (pendingFetch (cache w)) as [f|] eqn:Hf; simpl.
    + rewrite Hf. by split.
    + destruct (cacheExpired now (cache w)); simpl.
      * split; [rewrite !length_app; simpl; lia|].
        split.
        -- rewrite lookup_app_r by lia. by rewrite Nat.sub_diag.
        -- unfold outstanding in *. simpl. by rewrite outstanding_started, Hpend.
      * rewrite Hf. by split.
  - unfold resolve. destruct (pendingFetch (cache w)) as [f|] eqn:Hf; simpl.
    + destruct Hpend as [Hlook Hone]. split; [by rewrite length_insert|].
      unfold outstanding in *. simpl.
      pose proof (outstanding_settled (futures w) f (Fulfilled v) Hlook eq_refl).
      lia.
    + rewrite Hf. by split.
  - unfold reject. destruct (pendingFetch (cache w)) as [f|] eqn:Hf; simpl.
    + destruct Hpend as [Hlook Hone]. split; [by rewrite length_insert|].
      unfold outstanding in *. simpl.
      pose proof (outstanding_settled (futures w) f (Rejected e) Hlook eq_refl).
      lia.
    + rewrite Hf. by split.
Qed.

Lemma consistent_run evs : ∀ w, consistent w → consistent (run w evs).
Proof.
  induction evs as [|ev evs IH]; intros w Hw; simpl; [done|].
  apply IH. by apply consistent_step.
Qed.

Lemma awaited_resolved w f now v n :
  futures w !! f = Some Pending → pendingFetch (cache w) = Some f →
  Forall (λ o, awaited o (resolve now v w) = Some (Fulfilled v))
         (replicate n (Future f)).
Proof.
  intros Hlook Hf. apply Forall_replicate.
  unfold resolve. rewrite Hf. simpl.
  apply list_lookup_insert_eq. by apply lookup_lt_Some in Hlook.
Qed.

Lemma run_app w evs1 evs2 : run w (evs1 ++ evs2) = run (run w evs1) evs2.
Proof. unfold run. apply foldl_app. Qed.

Lemma run_unresolved evs :
  forallb (λ ev, negb (is_resolve ev)) evs = true →
  ∀ w, lastUpdateTimestamp (cache (run w evs)) = lastUpdateTimestamp (cache w)
       ∧ cacheTime (cache (run w evs)) = cacheTime (cache w).
Proof.
  induction evs as [|ev evs IH]; simpl; intros Hno w; [done|].
  apply andb_prop in Hno as [Hev Hno].
  destruct (IH Hno (step w ev)) as [-> ->].
  destruct ev as [now|now v|e]; simpl in *; [|done|].
  - unfold getData. destruct (pendingFetch (cache w)); [done|].
    by destruct (cacheExpired now (cache w)).
  - unfold reject. by destruct (pendingFetch (cache w)).
Qed.

(** C1. At most one fetch is outstanding at any time; calls of
    [getData] made while a fetch is in flight all return the future of
    that fetch and invoke no fetch, and once the fetch resolves every
    caller observes the same value; a first call on an expired idle
    cache followed by any number of calls invokes fetch exactly once. *)
Theorem single_flight
    (cacheTime : Z) (history : list (Event T)) (now : Z) (times : list Z) :
  let w := run (new cacheTime) history in
  (outstanding w ≤ 1)%nat
  ∧ (∀ f, pendingFetch (cache w) = Some f →
          getData_each times w = (replicate (length times) (Future f), w)
          ∧ ∀ now' v,
              Forall (λ o, awaited o (resolve now' v w) = Some (Fulfilled v))
                     (replicate (length times) (Future f)))
  ∧ (pendingFetch (cache w) = None → cacheExpired now (cache w) = true →
     ∃ f w1,
       getData_each (now :: times) w
       = (replicate (S (length times)) (Future f), w1)
       ∧ fetchCalls w1 = fetchCalls w ++ [data (cache w)]
       ∧ outstanding w1 = 1%nat
       ∧ ∀ now' v,
           Forall (λ o, awaited o (resolve now' v w1) = Some (Fulfilled v))
                  (replicate (S (length times)) (Future f))).
Proof.
  intros w.
  assert (Hw : consistent w) by apply consistent_run, consistent_new.
  split; [|split].
  - destruct Hw as [_ Hpend]. destruct (pendingFetch (cache w)).
    + destruct Hpend as [_ ->]. lia.
    + rewrite Hpend. lia.
  - intros f Hf. split; [by apply getData_each_in_flight|].
    intros now' v. destruct Hw as [_ Hpend]. rewrite Hf in Hpend.
    destruct Hpend as [Hlook _]. by apply awaited_resolved.
  - intros Hidle Hexpired.
    pose proof (consistent_step w (GetData now) Hw) as Hw1.
    simpl in Hw1. simpl getData_each.
    assert (Hcall : getData now w
                    = (Future (length (futures w)), (getData now w).2)).
    { unfold getData. by rewrite Hidle, Hexpired. }
    assert (Hf1 : pendingFetch (cache (getData now w).2)
                  = Some (length (futures w))).
    { unfold getData. by rewrite Hidle, Hexpired. }
    exists (length (futures w)), (getData now w).2.
    rewrite Hcall at 1.
    rewrite (getData_each_in_flight times _ _ Hf1). split; [done|].
    split; [unfold getData; by rewrite Hidle, Hexpired|].
    destruct Hw1 as [_ Hpend]. rewrite Hf1 in Hpend.
    destruct Hpend as [Hlook Hone]. split; [done|].
    intros now' v. by apply awaited_resolved.
Qed.

(** C5. A rejected fetch fails its awaiters, leaves the cached data and
    the timestamp as they were and clears the in-flight marker, so the
    next call invokes fetch again: after a rejecting and then a resolving
    fetch the fetch function was invoked exactly twice and the second
    caller observes the value. *)
Theorem retry_after_failure
    (w : World T) (now1 now2 now3 : Z) (e : Error) (v : T) :
  pendingFetch (cache w) = None →
  cacheExpired now1 (cache w) = true →
  (now1 ≤ now2)%Z →
  let r1 := getData now1 w in
  let w2 := reject e r1.2 in
  let r2 := getData now2 w2 in
  let w4 := resolve now3 v r2.2 in
  ∃ f1 f2,
    r1.1 = Future f1 ∧ r2.1 = Future f2 ∧ f1 ≠ f2
    ∧ awaited r1.1 w2 = Some (Rejected e)
    ∧ data (cache w2) = data (cache w)
    ∧ lastUpdateTimestamp (cache w2) = lastUpdateTimestamp (cache w)
    ∧ pendingFetch (cache w2) = None
    ∧ fetchCalls r2.2 = fetchCalls w ++ [data (cache w); data (cache w)]
    ∧ awaited r2.1 w4 = Some (Fulfilled v)
    ∧ awaited r1.1 w4 = Some (Rejected e)
    ∧ data (cache w4) = Some v
    ∧ lastUpdateTimestamp (cache w4) = Some now3.
Proof.
  intros Hidle Hexpired Hle r1 w2 r2 w4.
  assert (Hexpired2 : cacheExpired now2 (cache w) = true).
  { unfold cacheExpired in *. destruct (lastUpdateTimestamp (cache w)); [|done].
    apply Z.leb_le in Hexpired. apply Z.leb_le. lia. }
  set (n := length (futures w)).
  assert (H1 : r1 = (Future n, r1.2) ∧ pendingFetch (cache r1.2) = Some n
               ∧ futures r1.2 = futures w ++ [Pending]
               ∧ fetchCalls r1.2 = fetchCalls w ++ [data (cache w)]
               ∧ data (cache r1.2) = data (cache w)
               ∧ lastUpdateTimestamp (cache r1.2) = lastUpdateTimestamp (cache w)
               ∧ cacheTime (cache r1.2) = cacheTime (cache w)).
  { subst r1. rewrite (getData_starts now1 w Hidle Hexpired). by simpl. }
  destruct H1 as (Hr1 & Hp1 & Hfut1 & Hcalls1 & Hdata1 & Hts1 & Hct1).
  assert (H2 : pendingFetch (cache w2) = None
               ∧ futures w2 = <[n := Rejected e]> (futures w ++ [Pending])
               ∧ fetchCalls w2 = fetchCalls w ++ [data (cache w)]
               ∧ data (cache w2) = data (cache w)
               ∧ lastUpdateTimestamp (cache w2) = lastUpdateTimestamp (cache w)
               ∧ cacheTime (cache w2) = cacheTime (cache w)).
  { subst w2. unfold reject. rewrite Hp1. simpl. by rewrite Hfut1. }
  destruct H2 as (Hp2 & Hfut2 & Hcalls2 & Hdata2 & Hts2 & Hct2).
  assert (Hexp : cacheExpired now2 (cache w2) = true).
  { unfold cacheExpired in *. by rewrite Hts2, Hct2. }
  assert (Hlen2 : length (futures w2) = S n).
  { rewrite Hfut2, length_insert, length_app. simpl. lia. }
  assert (H3 : r2 = (Future (S n), r2.2) ∧ pendingFetch (cache r2.2) = Some (S n)
               ∧ futures r2.2 = futures w2 ++ [Pending]
               ∧ fetchCalls r2.2 = fetchCalls w2 ++ [data (cache w2)]).
  { subst r2. rewrite (getData_starts now2 w2 Hp2 Hexp). simpl.
    by rewrite Hlen2. }
  destruct H3 as (Hr2 & Hp3 & Hfut3 & Hcalls3).
  assert (Hlook1 : futures w2 !! n = Some (Rejected e)).
  { rewrite Hfut2. apply list_lookup_insert_eq. rewrite length_app. simpl. lia. }
  exists n, (S n). rewrite Hr1, Hr2. simpl.
  split; [done|]. split; [done|]. split; [lia|]. split; [exact Hlook1|].
  split; [done|]. split; [done|]. split; [done|].
  split; [by rewrite Hcalls3, Hcalls2, Hdata2, <- app_assoc|].
  subst w4. unfold resolve. rewrite Hp3. simpl. rewrite Hfut3.
  split; [apply list_lookup_insert_eq; rewrite length_app; simpl; lia|].
  split; [|done].
  rewrite list_lookup_insert_ne by lia.
  rewrite lookup_app_l by lia. exact Hlook1.
Qed.

(** C7. [cacheExpired] is true as long as no fetch has completed; once
    a fetch has completed at [now0] it is false while
    [now - now0 < cacheTime] and true from [now - now0 >= cacheTime] on,
    until the next fetch completes. *)
Theorem cacheExpired_ttl
    (cacheTime0 : Z) (history : list (Event T)) (now : Z) :
  (forallb (λ ev, negb (is_resolve ev)) history = true →
   cacheExpired now (cache (run (new cacheTime0) history)) = true)
  ∧ (∀ w f now0 v later,
        pendingFetch (cache w) = Some f →
        forallb (λ ev, negb (is_resolve ev)) later = true →
        let w' := run (resolve now0 v w) later in
        (cacheExpired now (cache w') = false ↔ (now - now0 < cacheTime (cache w))%Z)
        ∧ (cacheExpired now (cache w') = true ↔ (cacheTime (cache w) ≤ now - now0)%Z)).
Proof.
  split.
  - intros Hno. unfold cacheExpired.
    by destruct (run_unresolved history Hno (new cacheTime0)) as [-> _].
  - intros w f now0 v later Hf Hno w'. unfold cacheExpired. subst w'.
    destruct (run_unresolved later Hno (resolve now0 v w)) as [-> ->].
    unfold resolve. rewrite Hf. simpl.
    destruct (Z.leb_spec (cacheTime (cache w)) (now - now0)); split; split;
      intros; try done; lia.
Qed.

End Cache.

(** test/data-store.js, "get data from expired cache": with a lifetime of
    3000 the second call, 3001 later, fetches again and hands the fetch
    function the cached data. *)
Lemma demo_expired_cache_refetches :
  fetchCalls
    (run (new (T := nat) 3000)
         [GetData 10000; Resolve 10000 5%nat; GetData 13001; Resolve 13001 5%nat])
  = [None; Some 5%nat].
Proof. reflexivity. Qed.

(** test/data-store.js, "get data from cache": a second call within the
    lifetime returns the cached data without fetching. *)
Lemma demo_cached_data :
  getData 10001 (run (new (T := nat) 3000) [GetData 10000; Resolve 10000 5%nat])
  = (Cached (Some 5%nat),
     run (new 3000) [GetData 10000; Resolve 10000 5%nat])
  ∧ length (fetchCalls
              (run (new (T := nat) 3000) [GetData 10000; Resolve 10000 5%nat]))
    = 1%nat.
Proof. split; reflexivity. Qed.

Lemma single_flight_witness :
  ∃ f w1,
    getData_each [10000; 10000; 10001]%Z (run (new (T := nat) 3000) [])
    = (replicate 3 (Future f), w1)
    ∧ length (fetchCalls w1) = 1%nat
    ∧ Forall (λ o, awaited o (resolve 10002 42%nat w1) = Some (Fulfilled 42%nat))
             (replicate 3 (Future f)).
Proof.
  destruct (single_flight (T := nat) 3000 [] 10000 [10000; 10001]%Z)
    as (_ & _ & Hfirst).
  destruct (Hfirst eq_refl eq_refl) as (f & w1 & Hrun & Hcalls & _ & Hall).
  exists f, w1. split; [exact Hrun|]. split; [by rewrite Hcalls|].
  apply Hall.
Defined.

Lemma retry_after_failure_witness :
  ∃ f1 f2 : nat,
    f1 ≠ f2
    ∧ awaited (T := nat) (Future f1)
        (reject (Rejection 0) (getData 10000 (new 3000)).2)
      = Some (Rejected (Rejection 0))
    ∧ length (fetchCalls
                (getData 10000
                   (reject (Rejection 0) (getData 10000 (new (T := nat) 3000)).2)).2)
      = 2%nat.
Proof.
  destruct (retry_after_failure (new (T := nat) 3000) 10000 10000 10001
              (Rejection 0) 7%nat eq_refl eq_refl ltac:(lia))
    as (f1 & f2 & H1 & H2 & Hne & Hrej & _ & _ & _ & Hcalls & _).
  exists f1, f2. split; [exact Hne|].
  simpl in H1. injection H1 as <-. split; [exact Hrej|]. by rewrite Hcalls.
Defined.

Lemma cacheExpired_ttl_witness :
  cacheExpired 10000 (cache (new (T := nat) 3000)) = true
  ∧ cacheExpired 10000 (cache (resolve 10000 1%nat (getData 10000 (new 3000)).2)) = false
  ∧ cacheExpired 13000 (cache (resolve 10000 1%nat (getData 10000 (new 3000)).2)) = true.
Proof.
  destruct (cacheExpired_ttl (T := nat) 3000 [] 10000) as [Hnew Hafter].
  split; [exact (Hnew eq_refl)|].
  destruct (Hafter (getData 10000 (new 3000)).2 0%nat 10000%Z 1%nat []
              eq_refl eq_refl) as [Hfresh _].
  split; [apply Hfresh; simpl; lia|].
  destruct (cacheExpired_ttl (T := nat) 3000 [] 13000) as [_ Hlater].
  destruct (Hlater (getData 10000 (new 3000)).2 0%nat 10000%Z 1%nat []
              eq_refl eq_refl) as [_ Hstale].
  apply Hstale. simpl. lia.
Defined.

End DataStoreSpec.

(** ** Properties of the publish quota *)

Module PublishSourceSpec.
Import PublishSource.

Open Scope Z_scope.

Lemma count_slots_filter this now tokens count :
  count_slots now (lastUpdate this) tokens count
  = (count + length (filter (elapsed this now) tokens))%nat.
Proof.
  revert count. induction tokens as [|t rest IH]; intros count; simpl.
  - lia.
  - destruct (Z.leb_spec (resolved now t) now) as [Hle|Hgt];
      destruct (Z.ltb_spec (lastUpdate this) (resolved now t)) as [Hlt|Hge];
      simpl; rewrite IH.
    + rewrite filter_cons_True by (unfold elapsed; lia). simpl. lia.
    + rewrite filter_cons_False by (unfold elapsed; lia). done.
    + rewrite filter_cons_False by (unfold elapsed; lia). done.
    + rewrite filter_cons_False by (unfold elapsed; lia). done.
Qed.

Lemma demo_quota_empty now :
  getCurrentQuota {| schedule := []; lastUpdate := 0 |} now = Infinity.
Proof. reflexivity. Qed.

Lemma demo_quota_test : getCurrentQuota test_source 3700001 = Slots 2.
Proof. reflexivity. Qed.

(** The current UTC hour and minute resolve to now truncated to the
    minute. *)
Lemma toUTCTimestamp_now now :
  toUTCTimestamp now (now mod MS_PER_DAY / MS_PER_HOUR)
                     (now mod MS_PER_HOUR / MS_PER_MINUTE)
  = now - now mod MS_PER_MINUTE.
Proof.
  unfold toUTCTimestamp, startOfUTCDay, MS_PER_DAY, MS_PER_HOUR, MS_PER_MINUTE.
  pose proof (Z.div_mod now 86400000 ltac:(lia)).
  pose proof (Z.mod_pos_bound now 86400000 ltac:(lia)).
  pose proof (Z.div_mod (now mod 86400000) 3600000 ltac:(lia)).
  pose proof (Z.mod_pos_bound (now mod 86400000) 3600000 ltac:(lia)).
  pose proof (Z.div_mod now 3600000 ltac:(lia)).
  pose proof (Z.mod_pos_bound now 3600000 ltac:(lia)).
  pose proof (Z.div_mod (now mod 3600000) 60000 ltac:(lia)).
  pose proof (Z.mod_pos_bound (now mod 3600000) 60000 ltac:(lia)).
  pose proof (Z.div_mod now 60000 ltac:(lia)).
  pose proof (Z.mod_pos_bound now 60000 ltac:(lia)).
  assert (H24 : (now mod 86400000) mod 3600000 = now mod 3600000).
  { apply Z.mod_mod_divide. exists 24. lia. }
  assert (H60 : (now mod 3600000) mod 60000 = now mod 60000).
  { apply Z.mod_mod_divide. exists 60. lia. }
  lia.
Qed.

(** C2. [getCurrentQuota()] returns Infinity when the schedule is empty;
    otherwise it returns the number of schedule entries whose timestamp
    on the current UTC day is at most now and strictly greater than
    [lastUpdate]. *)
Theorem getCurrentQuota_counts_elapsed_slots (this : Source) (now : Z) :
  (schedule this = [] → getCurrentQuota this now = Infinity)
  ∧ (schedule this ≠ [] →
     getCurrentQuota this now
     = Slots (length (filter (λ t, lastUpdate this < resolved now t ≤ now)
                             (schedule this))))
  ∧ (∀ t, elapsed this now t
          ↔ lastUpdate this
            < now - now mod 86400000 + hour t * 3600000 + minute t * 60000
            ≤ now).
Proof.
  split; [|split].
  - intros Hempty. unfold getCurrentQuota. by rewrite Hempty.
  - intros Hsome. unfold getCurrentQuota.
    destruct (schedule this) as [|t rest] eqn:Hs; [done|].
    rewrite <- Hs at 1. rewrite count_slots_filter, Hs. simpl.
    f_equal.
  - intros t. unfold elapsed, resolved, toUTCTimestamp, startOfUTCDay,
      MS_PER_DAY, MS_PER_HOUR, MS_PER_MINUTE. done.
Qed.

Lemma getCurrentQuota_counts_elapsed_slots_witness :
  getCurrentQuota test_source 3700001
  = Slots (length (filter (λ t, 0 < resolved 3700001 t ≤ 3700001)
                          (schedule test_source)))
  ∧ getCurrentQuota test_source 3700001 = Slots 2.
Proof.
  destruct (getCurrentQuota_counts_elapsed_slots test_source 3700001)
    as (_ & Hcount & _).
  split; [by apply Hcount|reflexivity].
Defined.

Close Scope Z_scope.

End PublishSourceSpec.
